(** * Compile-database store, compiler-defaults resolver and dependee
      traversal of the catkin workspace (src/catkin_workspace.ts)

    A shallow embedding of the class [CatkinWorkspace]: its fields become a
    record, its methods become functions in a state-and-exception monad that
    also collects the observable effects (signal dispatches, commands handed
    to the shell, dialogs shown) in the order they happen.

    Conventions of the model:
    - a JavaScript string is a [string]: a sequence of code units, here
      restricted to the range 0..255;
    - [undefined] where the source can produce it for a path is [None] in an
      [option string];
    - the three [Map]s keyed by file name are [gmap]s (their iteration order
      is never observed), the set of seen names is a [gset], the package
      [Map] is an association list in insertion order because
      [buildDependencyGraph] iterates it;
    - [console.log] and [output_channel.appendLine] are not modelled;
    - an [async] method is run to completion at the place it is called,
      also the [updateDatabase] that [startWatchingCompileCommandsFile]
      starts without awaiting it;
    - what a scan learns from outside is its input ([ScanInput]).  The
      directory provider [getBuildDir] is taken at its outcome: the whole
      [reload] that the source runs inside it when it finds the profile
      changed is outside the model, and so is a failure of [fs.watch] or of
      the name lookup for the progress title.  The theorems about the
      scan and [reload] are invariants of the state and bounds on the
      events, which hold of the nested and of the failing runs as well. *)

From Stdlib Require Import Ascii String.
From stdpp Require Import base gmap strings list.

Local Open Scope string_scope.
Local Open Scope list_scope.

(** ** JavaScript string primitives used by the source *)

Module JsString.

Definition dquote : ascii := ascii_of_nat 34.
Definition newline : ascii := ascii_of_nat 10.
Definition backslash : ascii := ascii_of_nat 92.

(** [s.startsWith(p)] *)
Fixpoint startsWith (s p : string) : bool :=
  match p with
  | EmptyString => true
  | String a p' =>
      match s with
      | EmptyString => false
      | String b s' => if Ascii.eqb a b then startsWith s' p' else false
      end
  end.

(** [s.slice(n)] for [0 <= n] *)
Fixpoint slice (n : nat) (s : string) : string :=
  match n, s with
  | O, _ => s
  | S _, EmptyString => EmptyString
  | S k, String _ s' => slice k s'
  end.

(** [s.indexOf(sub) >= 0] *)
Fixpoint includes (s sub : string) : bool :=
  startsWith s sub ||
  match s with
  | EmptyString => false
  | String _ s' => includes s' sub
  end.

(** [s.endsWith(p)] *)
Definition endsWith (s p : string) : bool :=
  startsWith (String.rev s) (String.rev p).

(** [s.split(sep)] for a non-empty separator.  [skip] counts the code
    units of a separator occurrence that are still to be dropped. *)
Fixpoint split_from (sep : string) (skip : nat) (s : string) : list string :=
  match s with
  | EmptyString => [EmptyString]
  | String a s' =>
      match skip with
      | S k => split_from sep k s'
      | O =>
          if startsWith s sep
          then EmptyString :: split_from sep (String.length sep - 1) s'
          else match split_from sep 0 s' with
               | t :: ts => String a t :: ts
               | [] => [String a EmptyString]
               end
      end
  end.

Definition split (s sep : string) : list string := split_from sep 0 s.

(** White space of [trim] and of the regular-expression class [\s],
    among the code units 0..255. *)
Definition isSpace (a : ascii) : bool :=
  let n := nat_of_ascii a in
  ((9 <=? n)%nat && (n <=? 13)%nat) || (n =? 32)%nat || (n =? 160)%nat.

(** The code units that [.] does not match, among 0..255. *)
Definition isLineTerminator (a : ascii) : bool :=
  let n := nat_of_ascii a in (n =? 10)%nat || (n =? 13)%nat.

Fixpoint trimStart (s : string) : string :=
  match s with
  | EmptyString => EmptyString
  | String a s' => if isSpace a then trimStart s' else s
  end.

Definition trimEnd (s : string) : string :=
  String.rev (trimStart (String.rev s)).

(** [s.trim()] *)
Definition trim (s : string) : string := trimEnd (trimStart s).

(** [s.replace(/\\/g, "")] *)
Fixpoint stripBackslashes (s : string) : string :=
  match s with
  | EmptyString => EmptyString
  | String a s' =>
      if Ascii.eqb a backslash then stripBackslashes s'
      else String a (stripBackslashes s')
  end.

Fixpoint noLineTerminator (s : string) : bool :=
  match s with
  | EmptyString => true
  | String a s' => negb (isLineTerminator a) && noLineTerminator s'
  end.

(** Does [.*post] match at the start of [s]? *)
Fixpoint dotStarThen (post s : string) : bool :=
  startsWith s post ||
  match s with
  | EmptyString => false
  | String a s' => if isLineTerminator a then false else dotStarThen post s'
  end.

(** [s.match(pre + ".*" + post)] is not null, for literal [pre], [post]. *)
Fixpoint matchesDotStar (pre post s : string) : bool :=
  (startsWith s pre && dotStarThen post (slice (String.length pre) s)) ||
  match s with
  | EmptyString => false
  | String _ s' => matchesDotStar pre post s'
  end.

(** [array[array.length - 1]] of a [split] result, which is never empty. *)
Definition lastOf (l : list string) : string := List.last l EmptyString.

End JsString.

(** ** Data model *)

(** One element of a parsed compile database.  [jsonfile.readFile] parses
    the file anew on every call and so builds a new object for every element
    each time; [oid] is the identity of that object, which is what the
    source's [!==] compares. *)
Record CompileCommand := {
  oid : nat;
  file : string;
  command : string
}.

(** The text of one element of a compile database, as it stands on disk. *)
Record RawCommand := {
  raw_file : string;
  raw_command : string
}.

(** Modelled from the spec: the class [CatkinPackage] of
    src/catkin_package.ts, of which the workspace reads [name] (also through
    [getName()]), [dependencies] and [dependees]; section 3 of the spec gives
    the same three fields. *)
Record CatkinPackage := {
  name : string;
  dependencies : list string;
  dependees : list string
}.

(** The value handed to the editor tooling; [None] in [includePath] is
    JavaScript's [undefined]. *)
Record SourceFileConfiguration := {
  standard : string;
  intelliSenseMode : string;
  includePath : list (option string);
  defines : list string;
  compilerPath : string
}.

Inductive Resolver := Cpp | Ccache | Nvcc.

Inductive Warning :=
| ExportCompileCommandsDisabled
| NoCompileCommandsFound.

Inductive Item := IgnoreThis | UpdateCatkinConfig | BuildWorkspace.

(** What the workspace does to the outside, in the order it happens.
    [Called] records the entry into one of the three resolver methods; no
    code of the source reads it. *)
Inductive Event :=
| build_commands_changed
| system_paths_changed
| Called (r : Resolver) (compiler : string)
| ShowWarningMessage (w : Warning) (items : list Item)
| ShowErrorMessage
| EnableCompileCommandsGeneration
| ExecuteTask
| WatchBuildDir (dir : string)
| onWorkspaceInitialized.

Inductive Exn :=
| TypeError
| CommandFailed (message : string).

#[global] Instance Resolver_eq_dec : EqDecision Resolver.
Proof. solve_decision. Defined.
#[global] Instance Warning_eq_dec : EqDecision Warning.
Proof. solve_decision. Defined.
#[global] Instance Item_eq_dec : EqDecision Item.
Proof. solve_decision. Defined.
#[global] Instance Event_eq_dec : EqDecision Event.
Proof. solve_decision. Defined.

(** The fields of the class.  The profile and configuration scalars
    ([catkin_profile], [catkin_config], the four directory strings) belong to
    the directory provider, which is an input here.  [next_oid] is the next
    object identity the JavaScript heap hands out. *)
Record CatkinWorkspace := {
  compile_commands : gmap string (list CompileCommand);
  file_to_command : gmap string CompileCommand;
  file_to_compile_commands : gmap string string;
  watchers : gset string;
  system_include_browse_paths : list (option string);
  default_system_include_paths : list string;
  build_dir : option string;
  ignore_missing_db : bool;
  is_initialized : bool;
  packages : list (string * CatkinPackage);
  next_oid : nat
}.

(** The state of [new CatkinWorkspace(...)]. *)
Definition newWorkspace : CatkinWorkspace := {|
  compile_commands := ∅;
  file_to_command := ∅;
  file_to_compile_commands := ∅;
  watchers := ∅;
  system_include_browse_paths := [];
  default_system_include_paths := [];
  build_dir := None;
  ignore_missing_db := false;
  is_initialized := false;
  packages := [];
  next_oid := 0
|}.

Definition set_compile_commands f (w : CatkinWorkspace) : CatkinWorkspace :=
  {| compile_commands := f (compile_commands w);
     file_to_command := file_to_command w;
     file_to_compile_commands := file_to_compile_commands w;
     watchers := watchers w;
     system_include_browse_paths := system_include_browse_paths w;
     default_system_include_paths := default_system_include_paths w;
     build_dir := build_dir w;
     ignore_missing_db := ignore_missing_db w;
     is_initialized := is_initialized w;
     packages := packages w;
     next_oid := next_oid w |}.

Definition set_file_to_command f (w : CatkinWorkspace) : CatkinWorkspace :=
  {| compile_commands := compile_commands w;
     file_to_command := f (file_to_command w);
     file_to_compile_commands := file_to_compile_commands w;
     watchers := watchers w;
     system_include_browse_paths := system_include_browse_paths w;
     default_system_include_paths := default_system_include_paths w;
     build_dir := build_dir w;
     ignore_missing_db := ignore_missing_db w;
     is_initialized := is_initialized w;
     packages := packages w;
     next_oid := next_oid w |}.

Definition set_file_to_compile_commands f (w : CatkinWorkspace) : CatkinWorkspace :=
  {| compile_commands := compile_commands w;
     file_to_command := file_to_command w;
     file_to_compile_commands := f (file_to_compile_commands w);
     watchers := watchers w;
     system_include_browse_paths := system_include_browse_paths w;
     default_system_include_paths := default_system_include_paths w;
     build_dir := build_dir w;
     ignore_missing_db := ignore_missing_db w;
     is_initialized := is_initialized w;
     packages := packages w;
     next_oid := next_oid w |}.

Definition set_watchers f (w : CatkinWorkspace) : CatkinWorkspace :=
  {| compile_commands := compile_commands w;
     file_to_command := file_to_command w;
     file_to_compile_commands := file_to_compile_commands w;
     watchers := f (watchers w);
     system_include_browse_paths := system_include_browse_paths w;
     default_system_include_paths := default_system_include_paths w;
     build_dir := build_dir w;
     ignore_missing_db := ignore_missing_db w;
     is_initialized := is_initialized w;
     packages := packages w;
     next_oid := next_oid w |}.

Definition set_system_include_browse_paths f (w : CatkinWorkspace) : CatkinWorkspace :=
  {| compile_commands := compile_commands w;
     file_to_command := file_to_command w;
     file_to_compile_commands := file_to_compile_commands w;
     watchers := watchers w;
     system_include_browse_paths := f (system_include_browse_paths w);
     default_system_include_paths := default_system_include_paths w;
     build_dir := build_dir w;
     ignore_missing_db := ignore_missing_db w;
     is_initialized := is_initialized w;
     packages := packages w;
     next_oid := next_oid w |}.

Definition set_default_system_include_paths f (w : CatkinWorkspace) : CatkinWorkspace :=
  {| compile_commands := compile_commands w;
     file_to_command := file_to_command w;
     file_to_compile_commands := file_to_compile_commands w;
     watchers := watchers w;
     system_include_browse_paths := system_include_browse_paths w;
     default_system_include_paths := f (default_system_include_paths w);
     build_dir := build_dir w;
     ignore_missing_db := ignore_missing_db w;
     is_initialized := is_initialized w;
     packages := packages w;
     next_oid := next_oid w |}.

Definition set_build_dir f (w : CatkinWorkspace) : CatkinWorkspace :=
  {| compile_commands := compile_commands w;
     file_to_command := file_to_command w;
     file_to_compile_commands := file_to_compile_commands w;
     watchers := watchers w;
     system_include_browse_paths := system_include_browse_paths w;
     default_system_include_paths := default_system_include_paths w;
     build_dir := f (build_dir w);
     ignore_missing_db := ignore_missing_db w;
     is_initialized := is_initialized w;
     packages := packages w;
     next_oid := next_oid w |}.

Definition set_ignore_missing_db f (w : CatkinWorkspace) : CatkinWorkspace :=
  {| compile_commands := compile_commands w;
     file_to_command := file_to_command w;
     file_to_compile_commands := file_to_compile_commands w;
     watchers := watchers w;
     system_include_browse_paths := system_include_browse_paths w;
     default_system_include_paths := default_system_include_paths w;
     build_dir := build_dir w;
     ignore_missing_db := f (ignore_missing_db w);
     is_initialized := is_initialized w;
     packages := packages w;
     next_oid := next_oid w |}.

Definition set_is_initialized f (w : CatkinWorkspace) : CatkinWorkspace :=
  {| compile_commands := compile_commands w;
     file_to_command := file_to_command w;
     file_to_compile_commands := file_to_compile_commands w;
     watchers := watchers w;
     system_include_browse_paths := system_include_browse_paths w;
     default_system_include_paths := default_system_include_paths w;
     build_dir := build_dir w;
     ignore_missing_db := ignore_missing_db w;
     is_initialized := f (is_initialized w);
     packages := packages w;
     next_oid := next_oid w |}.

Definition set_packages f (w : CatkinWorkspace) : CatkinWorkspace :=
  {| compile_commands := compile_commands w;
     file_to_command := file_to_command w;
     file_to_compile_commands := file_to_compile_commands w;
     watchers := watchers w;
     system_include_browse_paths := system_include_browse_paths w;
     default_system_include_paths := default_system_include_paths w;
     build_dir := build_dir w;
     ignore_missing_db := ignore_missing_db w;
     is_initialized := is_initialized w;
     packages := f (packages w);
     next_oid := next_oid w |}.

Definition set_next_oid f (w : CatkinWorkspace) : CatkinWorkspace :=
  {| compile_commands := compile_commands w;
     file_to_command := file_to_command w;
     file_to_compile_commands := file_to_compile_commands w;
     watchers := watchers w;
     system_include_browse_paths := system_include_browse_paths w;
     default_system_include_paths := default_system_include_paths w;
     build_dir := build_dir w;
     ignore_missing_db := ignore_missing_db w;
     is_initialized := is_initialized w;
     packages := packages w;
     next_oid := f (next_oid w) |}.

(** ** The monad of the methods: state, exceptions, emitted events *)

Definition M (A : Type) : Type :=
  CatkinWorkspace -> (Exn + A) * CatkinWorkspace * list Event.

(** The three components of a run. *)
Definition result_of {A} (o : (Exn + A) * CatkinWorkspace * list Event) : Exn + A :=
  o.1.1.
Definition state_of {A} (o : (Exn + A) * CatkinWorkspace * list Event) : CatkinWorkspace :=
  o.1.2.
Definition events_of {A} (o : (Exn + A) * CatkinWorkspace * list Event) : list Event :=
  o.2.

Definition ret {A} (a : A) : M A := fun w => (inr a, w, []).

(** Sequencing: an exception of [m] ends the run; the state reached and the
    events emitted so far stay. *)
Definition bind {A B} (m : M A) (k : A -> M B) : M B :=
  fun w =>
    let o := m w in
    match result_of o with
    | inl e => (inl e, state_of o, events_of o)
    | inr a =>
        let o' := k a (state_of o) in
        (result_of o', state_of o', events_of o ++ events_of o')
    end.

Definition throw {A} (e : Exn) : M A := fun w => (inl e, w, []).
Definition get : M CatkinWorkspace := fun w => (inr w, w, []).
Definition modify (f : CatkinWorkspace -> CatkinWorkspace) : M unit :=
  fun w => (inr tt, f w, []).
Definition emit (e : Event) : M unit := fun w => (inr tt, w, [e]).
Definition lift {A} (r : Exn + A) : M A := fun w => (r, w, []).

(** [try { m } catch (error) { h }] *)
Definition try_catch {A} (m : M A) (h : Exn -> M A) : M A :=
  fun w =>
    let o := m w in
    match result_of o with
    | inl e =>
        let o' := h e (state_of o) in
        (result_of o', state_of o', events_of o ++ events_of o')
    | inr a => o
    end.

Declare Scope js_scope.
Delimit Scope js_scope with js.
Notation "x <- m ;; k" := (bind m (fun x => k))
  (at level 100, m at next level, right associativity) : js_scope.
Notation "m ;; k" := (bind m (fun _ => k))
  (at level 100, right associativity) : js_scope.
Local Open Scope js_scope.

(** ** The collaborators the workspace calls *)

Record Env := {
  (** [vscode.workspace.workspaceFolders]: [ws.uri.fsPath] for each folder;
      [None] is [undefined], its value while no workspace is open *)
  workspaceFolders : option (list string);
  (** [child_process.execSync(cmd, options)]: its output, or the message of
      the error it throws when the command exits with a non-zero status *)
  execSync : string -> string + string;
  (** the compile database stored under a path, [None] when
      [fs.existsSync] answers false *)
  readFile : string -> option (list RawCommand);
  (** [vscode.workspace.getConfiguration('catkin_tools')] *)
  cppStandard : string;
  intelliSenseMode_setting : string
}.

(** ** Compiler-defaults resolver *)

Import JsString.

(** The loop of [parseCompilerDefaultsCpp] over the lines of the compiler's
    output; the result lists the lines it pushes, trimmed, in order. *)
Fixpoint cppSearchList (private_includes public_includes : bool)
    (lines : list string) : list string :=
  match lines with
  | [] => []
  | line :: rest =>
      if matchesDotStar ("#include " +:+ String dquote "") "starts here" line
      then cppSearchList true false rest
      else if matchesDotStar "#include <" "starts here" line
      then cppSearchList false true rest
      else if includes line "End of search list"
      then cppSearchList false false rest
      else if private_includes || public_includes
      then trim line :: cppSearchList private_includes public_includes rest
      else cppSearchList private_includes public_includes rest
  end.

(** [line.match(re)] for the regular expression [re] of
    [parseCompilerDefaultsNvcc]: the line starts with [#$ INCLUDES=] and a
    double quote, then comes a greedy group of any characters but line
    terminators, a double quote, white space and the end of the line; the
    result is the group.  The closing quote of a match
    is the last quote of the line, since only white space may follow it. *)
Definition matchIncludes (line : string) : option string :=
  let pre := "#$ INCLUDES=" +:+ String dquote "" in
  if startsWith line pre then
    match trimStart (String.rev (slice (String.length pre) line)) with
    | String q body_rev =>
        if Ascii.eqb q dquote && noLineTerminator body_rev
        then Some (String.rev body_rev)
        else None
    | EmptyString => None
    end
  else None.

(** The loops of [parseCompilerDefaultsNvcc] over the lines of the error
    message: the paths they push. *)
Fixpoint nvccIncludes (lines : list string) : list string :=
  match lines with
  | [] => []
  | line :: rest =>
      match matchIncludes line with
      | Some group =>
          filter (fun trimmed => String.length trimmed ≠ 0)
                 (map trim (split group "-I"))
          ++ nvccIncludes rest
      | None => nvccIncludes rest
      end
  end.

(** [compiler_path[compiler_path.length - 1]] of
    [compiler_path = compiler.split('/')] *)
Definition compiler_name (compiler : string) : string :=
  lastOf (split compiler "/").

Section Resolver.

Variable env : Env.

Definition parseCompilerDefaultsCpp (compiler : string) : M unit :=
  emit (Called Cpp compiler) ;;
  match execSync env (compiler +:+ " -xc++ -E -v /dev/null -o /dev/null 2>&1") with
  | inr message => throw (CommandFailed message)
  | inl stdout =>
      modify (set_default_system_include_paths
                (fun paths =>
                   paths ++ cppSearchList false false
                              (split stdout (String newline ""))))
  end.

Definition parseCompilerDefaultsNvcc (compiler : string) : M unit :=
  emit (Called Nvcc compiler) ;;
  match execSync env (compiler +:+ " --dryrun -v /dev/null 1>&2") with
  | inl _ => ret tt
  | inr message =>
      modify (set_default_system_include_paths
                (fun paths =>
                   paths ++ nvccIncludes (split message (String newline ""))))
  end.

(** [parseCompilerDefaultsCcache], given the method it calls back. *)
Definition parseCompilerDefaultsCcache_body
    (parseCompilerDefaults : string -> list string -> M unit)
    (caching_compiler : string) (args : list string) : M unit :=
  emit (Called Ccache caching_compiler) ;;
  match args with
  | [] => ret tt
  | arg0 :: rest => parseCompilerDefaults arg0 rest
  end.

(** [parseCompilerDefaults] and [parseCompilerDefaultsCcache] call each
    other; every such round drops the first of [args]. *)
Fixpoint parseCompilerDefaults (compiler : string) (args : list string)
    {struct args} : M unit :=
  modify (set_default_system_include_paths (fun _ => [])) ;;
  (if decide (compiler_name compiler = "nvcc")
   then parseCompilerDefaultsNvcc compiler
   else ret tt) ;;
  (if includes (compiler_name compiler) "ccache"
   then parseCompilerDefaultsCcache_body parseCompilerDefaults compiler args
   else parseCompilerDefaultsCpp compiler) ;;
  emit system_paths_changed.

Definition parseCompilerDefaultsCcache : string -> list string -> M unit :=
  parseCompilerDefaultsCcache_body parseCompilerDefaults.

(** ** Invocation parser *)

(** [isWorkspacePath(path)]: the loop over the folders; reading
    [startsWith] of [undefined] raises. *)
Fixpoint isWorkspacePath_from (folders : list string) (path : option string)
    : Exn + bool :=
  match folders with
  | [] => inr false
  | ws :: more =>
      let base := if negb (endsWith ws "/") then ws +:+ "/" else ws in
      let base := base +:+ "src" in
      match path with
      | None => inl TypeError
      | Some p =>
          if startsWith p base then inr true
          else isWorkspacePath_from more path
      end
  end.

(** [for (var ws of undefined)] raises before the loop reads [path]. *)
Definition isWorkspacePath (path : option string) : Exn + bool :=
  match workspaceFolders env with
  | None => inl TypeError
  | Some folders => isWorkspacePath_from folders path
  end.

(** The local variables of the scan loop. *)
Record Scan := {
  includePaths : list (option string);
  scanned_defines : list string;
  new_system_path_found : bool
}.

(** The statements the three include branches share, from
    [includePaths.push(path)] on. *)
Definition addIncludePath (path : option string) (s : Scan) : M Scan :=
  let s := {| includePaths := includePaths s ++ [path];
              scanned_defines := scanned_defines s;
              new_system_path_found := new_system_path_found s |} in
  in_workspace <- lift (isWorkspacePath path) ;;
  if negb in_workspace then
    w <- get ;;
    if bool_decide (path ∉ system_include_browse_paths w) then
      modify (set_system_include_browse_paths (fun paths => paths ++ [path])) ;;
      ret {| includePaths := includePaths s;
             scanned_defines := scanned_defines s;
             new_system_path_found := true |}
    else ret s
  else ret s.

(** The loop [for (let i = 1; i < args.length; ++i)], on the arguments
    from index [i] on.  In the [-isystem] branch [++i; args[i]] takes the
    next argument, which is [undefined] when there is none. *)
Fixpoint scanArgs (opts : list string) (s : Scan) {struct opts} : M Scan :=
  match opts with
  | [] => ret s
  | opt :: rest =>
      if startsWith opt "-I" then
        s <- addIncludePath (Some (slice 2 opt)) s ;; scanArgs rest s
      else if decide (opt = "-isystem") then
        match rest with
        | [] => addIncludePath None s
        | path :: rest => s <- addIncludePath (Some path) s ;; scanArgs rest s
        end
      else if startsWith opt "-isystem=" then
        s <- addIncludePath (Some (slice 9 opt)) s ;; scanArgs rest s
      else if startsWith opt "-D" then
        let define := stripBackslashes (slice 2 opt) in
        scanArgs rest {| includePaths := includePaths s;
                         scanned_defines := scanned_defines s ++ [define];
                         new_system_path_found := new_system_path_found s |}
      else scanArgs rest s
  end.

(** The first statement of [getSourceFileConfiguration]: the defaults
    are resolved when the list that caches them is empty. *)
Definition resolveWhenEmpty (compiler : string) (args : list string) : M unit :=
  w <- get ;;
  if decide (length (default_system_include_paths w) = 0)
  then parseCompilerDefaults compiler args
  else ret tt.

(** [getSourceFileConfiguration(commands)].  [args[0]] exists because
    [split] never returns an empty array. *)
Definition getSourceFileConfiguration (commands : CompileCommand)
    : M SourceFileConfiguration :=
  let args := split (command commands) " " in
  let compiler := hd "" args in
  resolveWhenEmpty compiler (tl args) ;;
  s <- scanArgs (tl args)
         {| includePaths := []; scanned_defines := [];
            new_system_path_found := false |} ;;
  (if new_system_path_found s then emit system_paths_changed else ret tt) ;;
  w <- get ;;
  ret {| standard := cppStandard env;
         intelliSenseMode := intelliSenseMode_setting env;
         includePath := includePaths s ++ map Some (default_system_include_paths w);
         defines := scanned_defines s;
         compilerPath := compiler |}.

End Resolver.

(** ** Compile-database store *)

(** The array [jsonfile.readFile] returns: one new object per element, with
    identities from [first_oid] on. *)
Fixpoint parseRecords (first_oid : nat) (raws : list RawCommand)
    : list CompileCommand :=
  match raws with
  | [] => []
  | r :: rest =>
      {| oid := first_oid; file := raw_file r; command := raw_command r |}
      :: parseRecords (S first_oid) rest
  end.

(** [this.file_to_command.get(file) !== cmd]: [undefined] differs from every
    object, two objects differ when they are not the same object. *)
Definition differs (stored : option CompileCommand) (cmd : CompileCommand) : bool :=
  match stored with
  | None => true
  | Some c => bool_decide (oid c ≠ oid cmd)
  end.

(** The body of the loop over [file_to_compile_commands.entries()] in the
    branch of a vanished file.  Deleting the entry under visit does not
    disturb the iteration of a [Map], so the loop sees every entry once. *)
Definition forgetEntry (db_file : string) (w : CatkinWorkspace)
    (entry : string * string) : CatkinWorkspace :=
  if decide (entry.2 = db_file)
  then set_file_to_compile_commands (delete entry.1)
         (set_file_to_command (delete entry.1) w)
  else w.

Definition forgetDatabase (db_file : string) (w : CatkinWorkspace) : CatkinWorkspace :=
  foldl (forgetEntry db_file) w (map_to_list (file_to_compile_commands w)).

Section Store.

Variable env : Env.

(** The loop [for (var index in db_part)]. *)
Fixpoint mergeRecords (db_file : string) (db_part : list CompileCommand)
    (change : bool) : M bool :=
  match db_part with
  | [] => ret change
  | cmd :: rest =>
      w <- get ;;
      if differs (file_to_command w !! file cmd) cmd then
        modify (set_file_to_command <[file cmd := cmd]>) ;;
        modify (set_file_to_compile_commands <[file cmd := db_file]>) ;;
        mergeRecords db_file rest true
      else mergeRecords db_file rest change
  end.

Definition updateDatabase (db_file : string) : M bool :=
  match readFile env db_file with
  | None =>
      modify (forgetDatabase db_file) ;;
      emit build_commands_changed ;;
      ret true
  | Some raws =>
      w <- get ;;
      let db_part := parseRecords (next_oid w) raws in
      modify (set_next_oid (fun n => n + length raws)) ;;
      modify (set_compile_commands <[db_file := db_part]>) ;;
      change <- mergeRecords db_file db_part false ;;
      (if change then emit build_commands_changed else ret tt) ;;
      ret change
  end.

(** ** Database watch manager *)

Definition stopWatching (path : string) : M unit :=
  modify (set_watchers (fun ws => ws ∖ {[path]})).

(** The promise of [updateDatabase] is dropped by the source; the update
    is run in place here, and [fs.watch] is taken to succeed. *)
Definition startWatchingCompileCommandsFile (path : string) : M unit :=
  _ <- updateDatabase path ;;
  stopWatching path ;;
  modify (set_watchers (fun ws => {[path]} ∪ ws)).

Fixpoint startWatchingAll (entries : list string) : M unit :=
  match entries with
  | [] => ret tt
  | path :: rest => startWatchingCompileCommandsFile path ;; startWatchingAll rest
  end.

(** What one run of [loadAndWatchCompileCommands] learns from the
    directory provider, the file system, the task list and the user. *)
Record ScanInput := {
  (** [await this.getBuildDir()], which may throw or give [null]; its
      outcome only, see the conventions *)
  getBuildDir : Exn + option string;
  (** [fs.existsSync(build_dir)] *)
  build_dir_exists : bool;
  (** [await glob.async([expr])] *)
  glob_entries : list string;
  (** [await this.getConfigEntry("Additional CMake Args")] *)
  additional_cmake_args : string;
  (** the item picked in the first dialog, [None] when it is dismissed *)
  export_answer : option Item;
  (** whether [fetchTasks] lists a task named build of this folder *)
  build_task_found : bool;
  (** the item picked in the second dialog, [None] when it is dismissed *)
  missing_answer : option Item
}.

(** The block under [if (ask_trigger_build)]. *)
Definition askTriggerBuild (inp : ScanInput) : M unit :=
  let items := IgnoreThis :: (if build_task_found inp then [BuildWorkspace] else []) in
  emit (ShowWarningMessage NoCompileCommandsFound items) ;;
  match missing_answer inp with
  | Some IgnoreThis => modify (set_ignore_missing_db (fun _ => true))
  | Some BuildWorkspace => emit ExecuteTask
  | _ => ret tt
  end.

(** The block under [if (fs.existsSync(build_dir))]; its value is
    [db_found]. *)
Definition watchDatabases (inp : ScanInput) (dir : string) : M bool :=
  if build_dir_exists inp then
    w <- get ;;
    (if decide (build_dir w ≠ Some dir)
     then modify (set_build_dir (fun _ => Some dir)) ;;
          emit (WatchBuildDir dir)
     else ret tt) ;;
    startWatchingAll (glob_entries inp) ;;
    ret (negb (bool_decide (length (glob_entries inp) = 0)))
  else ret false.

(** The block under [if (!db_found && !this.ignore_missing_db)], where
    [ask_trigger_build] starts as true. *)
Definition askAboutMissingDatabase (inp : ScanInput) : M unit :=
  if negb (includes (additional_cmake_args inp) "CMAKE_EXPORT_COMPILE_COMMANDS")
  then
    emit (ShowWarningMessage ExportCompileCommandsDisabled
            [IgnoreThis; UpdateCatkinConfig]) ;;
    match export_answer inp with
    | Some IgnoreThis => modify (set_ignore_missing_db (fun _ => true))
    | Some UpdateCatkinConfig =>
        emit EnableCompileCommandsGeneration ;; askTriggerBuild inp
    | _ => askTriggerBuild inp
    end
  else askTriggerBuild inp.

Definition loadAndWatchCompileCommands (inp : ScanInput) : M unit :=
  resolved <- lift (getBuildDir inp) ;;
  match resolved with
  | None => emit ShowErrorMessage
  | Some dir =>
      db_found <- watchDatabases inp dir ;;
      w <- get ;;
      if negb db_found && negb (ignore_missing_db w)
      then askAboutMissingDatabase inp
      else ret tt
  end.

(** ** Package registry and dependency graph *)

(** [Map.prototype.get] on the package map *)
Fixpoint lookupPackage (pkgs : list (string * CatkinPackage)) (key : string)
    : option CatkinPackage :=
  match pkgs with
  | [] => None
  | (k, p) :: rest => if decide (k = key) then Some p else lookupPackage rest key
  end.

(** [Map.prototype.set]: an existing key keeps its place. *)
Fixpoint storePackage (key : string) (p : CatkinPackage)
    (pkgs : list (string * CatkinPackage)) : list (string * CatkinPackage) :=
  match pkgs with
  | [] => [(key, p)]
  | (k, q) :: rest =>
      if decide (k = key) then (k, p) :: rest
      else (k, q) :: storePackage key p rest
  end.

Definition getPackage (w : CatkinWorkspace) (key : string) : option CatkinPackage :=
  lookupPackage (packages w) key.

(** [pkg.dependees.push(dependee)] on the package stored under [key] *)
Fixpoint pushDependee (key dependee : string)
    (pkgs : list (string * CatkinPackage)) : list (string * CatkinPackage) :=
  match pkgs with
  | [] => []
  | (k, q) :: rest =>
      if decide (k = key)
      then (k, {| name := name q; dependencies := dependencies q;
                  dependees := dependees q ++ [dependee] |}) :: rest
      else (k, q) :: pushDependee key dependee rest
  end.

(** The inner loop of [buildDependencyGraph]; a name that is not a key
    changes nothing. *)
Definition linkDependencies (pkgs : list (string * CatkinPackage))
    (catkin_package : CatkinPackage) : list (string * CatkinPackage) :=
  foldl (fun pkgs depency => pushDependee depency (name catkin_package) pkgs)
        pkgs (dependencies catkin_package).

(** The loop visits the packages in the order of the map; the pushes
    change neither the keys nor any [name] or [dependencies]. *)
Definition buildDependencyGraph : M unit :=
  modify (set_packages (fun pkgs => foldl linkDependencies pkgs (map snd pkgs))).

(** [loadPackage]: [None] stands for a descriptor that fails to parse. *)
Definition loadPackage (loaded : option CatkinPackage) : M unit :=
  match loaded with
  | Some catkin_package =>
      modify (set_packages (storePackage (name catkin_package) catkin_package))
  | None => ret tt
  end.

Fixpoint loadPackages (found : list (option CatkinPackage)) : M unit :=
  match found with
  | [] => ret tt
  | loaded :: rest => loadPackage loaded ;; loadPackages rest
  end.

(** ** Workspace orchestrator *)

(** What one [reload] learns from outside: the inputs of its scan and, for
    each [package.xml] found, the package [CatkinPackage.loadFromXML]
    builds from it. *)
Record ReloadInput := {
  scan_input : ScanInput;
  found_packages : list (option CatkinPackage)
}.

Definition clearCaches (w : CatkinWorkspace) : CatkinWorkspace :=
  {| compile_commands := ∅;
     file_to_command := ∅;
     file_to_compile_commands := ∅;
     watchers := ∅;
     system_include_browse_paths := [];
     default_system_include_paths := [];
     build_dir := build_dir w;
     ignore_missing_db := ignore_missing_db w;
     is_initialized := is_initialized w;
     packages := [];
     next_oid := next_oid w |}.

(** [reload()]; the progress is not cancellable, so the loop over the
    descriptors runs to its end. *)
Definition reload (inp : ReloadInput) : M unit :=
  modify clearCaches ;;
  emit build_commands_changed ;;
  loaded <- try_catch (loadAndWatchCompileCommands (scan_input inp) ;; ret true)
                      (fun _ => emit ShowErrorMessage ;; ret false) ;;
  if loaded : bool then
    loadPackages (found_packages inp) ;;
    buildDependencyGraph ;;
    modify (set_is_initialized (fun _ => true)) ;;
    emit onWorkspaceInitialized
  else ret tt.

End Store.

(** ** Transitive dependees *)

Section Dependees.

Variable pkgs : list (string * CatkinPackage).
(** The callback [async_filter], taken as a function of the package. *)
Variable async_filter : CatkinPackage -> bool.

(** The [while] loop of [iterateDependentPackages], at most [fuel] rounds.
    [visited] lists the names whose package was handed to the callback. *)
Fixpoint iterateLoop (fuel : nat) (checked_pkgs : gset string)
    (unchecked_pkgs : list string) (visited : list string)
    : option (bool * list string) :=
  match unchecked_pkgs with
  | [] => Some (false, visited)
  | dep_name :: unchecked_pkgs =>
      match fuel with
      | O => None
      | S fuel =>
          if decide (dep_name ∈ checked_pkgs)
          then iterateLoop fuel checked_pkgs unchecked_pkgs visited
          else
            let checked_pkgs := {[dep_name]} ∪ checked_pkgs in
            match lookupPackage pkgs dep_name with
            | None => iterateLoop fuel checked_pkgs unchecked_pkgs visited
            | Some dependency =>
                if async_filter dependency
                then Some (true, visited ++ [dep_name])
                else iterateLoop fuel checked_pkgs
                       (unchecked_pkgs ++ dependees dependency)
                       (visited ++ [dep_name])
            end
      end
  end.

(** The number of names the loop can still take from its queue: those in
    the queue and the dependees of every package not yet checked. *)
Definition pending (checked_pkgs : gset string) : nat :=
  sum_list (map (fun kp : string * CatkinPackage =>
                   if decide (kp.1 ∈ checked_pkgs) then 0
                   else length (dependees kp.2)) pkgs).

Definition iterateDependentPackages (catkin_package : CatkinPackage)
    : option (bool * list string) :=
  iterateLoop (length (dependees catkin_package) + pending ∅) ∅
              (dependees catkin_package) [].

End Dependees.

(** ** Notions used to state the properties *)

(** Every stored record is an object the heap has already handed out. *)
Definition heap_ok (w : CatkinWorkspace) : Prop :=
  forall f c, file_to_command w !! f = Some c -> oid c < next_oid w.

(** The scan loop ends on an [-isystem] that it reads as an option: the
    token is neither the compiler nor the path of an [-isystem] before it. *)
Fixpoint danglingIsystem (opts : list string) : bool :=
  match opts with
  | [] => false
  | opt :: rest =>
      if decide (opt = "-isystem") then
        match rest with
        | [] => true
        | _ :: rest => danglingIsystem rest
        end
      else danglingIsystem rest
  end.

(** The names a walk along [dependees] reaches from the list [direct],
    going on only from names that are keys of the package map. *)
Inductive reaches (pkgs : list (string * CatkinPackage)) (direct : list string)
    : string -> Prop :=
| reaches_direct n : n ∈ direct -> reaches pkgs direct n
| reaches_step n p m :
    reaches pkgs direct n -> lookupPackage pkgs n = Some p ->
    m ∈ dependees p -> reaches pkgs direct m.

Definition is_warning (e : Event) : bool :=
  match e with
  | ShowWarningMessage _ _ => true
  | _ => false
  end.

Definition is_resolver_call (e : Event) : bool :=
  match e with
  | Called _ _ => true
  | _ => false
  end.

(** One entry into the workspace from outside: a reload, a scan, the
    callback of a file watcher, a query of the editor tooling.  Each comes
    with the surroundings it finds. *)
Inductive Call :=
| CallReload (env : Env) (inp : ReloadInput)
| CallScan (env : Env) (inp : ScanInput)
| CallUpdateDatabase (env : Env) (db_file : string)
| CallGetSourceFileConfiguration (env : Env) (commands : CompileCommand).

Definition run_call (c : Call) (w : CatkinWorkspace) : CatkinWorkspace * list Event :=
  match c with
  | CallReload env inp =>
      let o := reload env inp w in (state_of o, events_of o)
  | CallScan env inp =>
      let o := loadAndWatchCompileCommands env inp w in (state_of o, events_of o)
  | CallUpdateDatabase env db_file =>
      let o := updateDatabase env db_file w in (state_of o, events_of o)
  | CallGetSourceFileConfiguration env commands =>
      let o := getSourceFileConfiguration env commands w in (state_of o, events_of o)
  end.

(** A sequence of calls, one after the other; a call that raises leaves the
    state it reached to the next one. *)
Fixpoint run_calls (calls : list Call) (w : CatkinWorkspace)
    : CatkinWorkspace * list Event :=
  match calls with
  | [] => (w, [])
  | c :: rest =>
      let (w', ev) := run_call c w in
      let (w'', ev') := run_calls rest w' in
      (w'', ev ++ ev')
  end.

(** [m] keeps the invariant [I] of the state and emits only events in [P],
    whether it returns or raises. *)
Definition maintains {A} (I : CatkinWorkspace -> Prop) (P : Event -> Prop)
    (m : M A) : Prop :=
  forall w, I w -> I (state_of (m w)) /\ Forall P (events_of (m w)).

(** ** Concrete surroundings for the examples *)

Definition line_break : string := String JsString.newline "".

(** What [g++ -xc++ -E -v /dev/null -o /dev/null] prints, in short. *)
Definition gxx_output : string :=
  "#include <...> search starts here:" +:+ line_break +:+
  " /usr/include/c++/9" +:+ line_break +:+
  " /usr/local/include" +:+ line_break +:+
  "End of search list.".

Definition example_record : CompileCommand :=
  {| oid := 0;
     file := "/ws/src/a/a.cpp";
     command := "/usr/bin/g++ -I/ws/src/a/include -isystem /usr/include -DDEBUG=1 a.cpp" |}.

Definition example_database : string := "/ws/build/a/compile_commands.json".

(** A workspace rooted at [/ws] with one compile database of one record;
    [/usr/bin/g++] and [/usr/bin/clang++] answer the query for their search
    list, every other command fails. *)
Definition example_env : Env :=
  {| workspaceFolders := Some ["/ws"];
     execSync := fun cmd =>
       if decide (cmd = "/usr/bin/g++ -xc++ -E -v /dev/null -o /dev/null 2>&1")
       then inl gxx_output
       else if decide (cmd = "/usr/bin/clang++ -xc++ -E -v /dev/null -o /dev/null 2>&1")
       then inl gxx_output
       else inr "Command failed";
     readFile := fun path =>
       if decide (path = example_database)
       then Some [ {| raw_file := file example_record;
                      raw_command := command example_record |} ]
       else None;
     cppStandard := "c++14";
     intelliSenseMode_setting := "gcc-x64" |}.

(** The scan state after [includePaths.push(path)], with the flag raised
    when the path is new to the browse list. *)
Definition pushPath (path : option string) (found : bool) (s : Scan) : Scan :=
  {| includePaths := includePaths s ++ [path];
     scanned_defines := scanned_defines s;
     new_system_path_found := found || new_system_path_found s |}.

(** What a scan that started in state [w] with the local variables [s] has
    done when it ends as [o]: it emitted nothing, it extended the browse
    list by some [added], and either it returned the include paths extended
    by some [explicit], which holds [added], or it raised: on the first
    path when the folders are [undefined], on reading the path of a
    dangling [-isystem] when there is a folder. *)
Definition scan_spec (folders : option (list string)) (dangling : bool) (s : Scan)
    (w : CatkinWorkspace) (o : (Exn + Scan) * CatkinWorkspace * list Event) : Prop :=
  events_of o = [] /\
  exists added,
    state_of o = set_system_include_browse_paths
                   (fun _ => system_include_browse_paths w ++ added) w /\
    match result_of o with
    | inr s' =>
        exists explicit,
          includePaths s' = includePaths s ++ explicit /\
          (forall p, p ∈ added -> p ∈ explicit) /\
          (dangling = false -> None ∉ explicit) /\
          (dangling = true ->
             folders = Some [] /\
             exists before, explicit = before ++ [None] /\ None ∉ before)
    | inl e =>
        e = TypeError
        /\ (folders = None \/ (dangling = true /\ folders ≠ Some []))
    end.

(** The local variables of the scan loop when it starts. *)
Definition scan_start : Scan :=
  {| includePaths := []; scanned_defines := []; new_system_path_found := false |}.

(** The tokens of a record's command: the compiler and the options. *)
Definition tokens (commands : CompileCommand) : list string :=
  JsString.split (command commands) " ".

(** What [getSourceFileConfiguration] returns for [example_record] in
    [example_env] when no defaults are cached. *)
Definition example_configuration : SourceFileConfiguration :=
  {| standard := "c++14";
     intelliSenseMode := "gcc-x64";
     includePath := [Some "/ws/src/a/include"; Some "/usr/include";
                     Some "/usr/include/c++/9"; Some "/usr/local/include"];
     defines := ["DEBUG=1"];
     compilerPath := "/usr/bin/g++" |}.

(** A record of a second package, built with another compiler. *)
Definition second_record : CompileCommand :=
  {| oid := 1;
     file := "/ws/src/b/b.cpp";
     command := "/usr/bin/clang++ -I/opt/b/include b.cpp" |}.

(** The workspace after the editor asked for [example_record] once. *)
Definition after_first_query : CatkinWorkspace :=
  state_of (getSourceFileConfiguration example_env example_record newWorkspace).

(** ** The claims that the code does not meet, as they are stated *)

(** C8 as stated: after the parse of a record, every path of the browse
    list is among the include paths returned for that record. *)
Definition browse_paths_within_include_paths (env : Env)
    (commands : CompileCommand) (w : CatkinWorkspace) : Prop :=
  forall cfg,
    result_of (getSourceFileConfiguration env commands w) = inr cfg ->
    forall p,
      p ∈ system_include_browse_paths
            (state_of (getSourceFileConfiguration env commands w)) ->
      p ∈ includePath cfg.

(** C10 as stated: whenever the last token of the command is [-isystem],
    the include paths returned hold [undefined]. *)
Definition trailing_isystem_yields_undefined (env : Env)
    (commands : CompileCommand) (w : CatkinWorkspace) : Prop :=
  last (tokens commands) = Some "-isystem" ->
  exists cfg,
    result_of (getSourceFileConfiguration env commands w) = inr cfg
    /\ None ∈ includePath cfg.

(** A command whose last [-isystem] is the path of the one before it. *)
Definition doubled_isystem_record : CompileCommand :=
  {| oid := 2; file := "/ws/src/a/a.cpp";
     command := "/usr/bin/g++ -isystem -isystem" |}.

(** A command that ends on an [-isystem] without a path. *)
Definition dangling_isystem_record : CompileCommand :=
  {| oid := 3; file := "/ws/src/a/a.cpp";
     command := "/usr/bin/g++ -I/opt/a/include -isystem" |}.

(** The resolution of the defaults for a record raises nothing: the list is
    cached, or the resolution of the record's compiler returns. *)
Definition defaults_available (env : Env) (commands : CompileCommand)
    (w : CatkinWorkspace) : Prop :=
  default_system_include_paths w ≠ []
  \/ result_of (parseCompilerDefaults env (hd "" (tokens commands))
                  (tl (tokens commands)) w) = inr tt.

(** C5 as stated: the query for [example_record] returns the two explicit
    paths followed by the defaults and the define [DEBUG=1], and the browse
    list holds [/usr/include] and every default path that is not a workspace
    path. *)
Definition example_scenario_as_stated (env : Env) (w : CatkinWorkspace) : Prop :=
  forall cfg,
    result_of (getSourceFileConfiguration env example_record w) = inr cfg ->
    let w' := state_of (getSourceFileConfiguration env example_record w) in
    includePath cfg
      = [Some "/ws/src/a/include"; Some "/usr/include"]
        ++ map Some (default_system_include_paths w')
    /\ defines cfg = ["DEBUG=1"]
    /\ forall p,
         p ∈ system_include_browse_paths w' <->
         p = Some "/usr/include"
         \/ exists d, p = Some d /\ d ∈ default_system_include_paths w'
                      /\ isWorkspacePath env p = inr false.

(** An invariant that reads no field but [ignore_missing_db] and
    [default_system_include_paths]. *)
Definition shielded (I : CatkinWorkspace -> Prop) : Prop :=
  forall w w',
    ignore_missing_db w' = ignore_missing_db w ->
    default_system_include_paths w' = default_system_include_paths w ->
    I w -> I w'.

(** The missing-database dialogs are suppressed. *)
Definition ignoring (w : CatkinWorkspace) : Prop := ignore_missing_db w = true.

Definition no_warning (e : Event) : Prop := is_warning e = false.

(** A scan that finds no compile database under a build directory it could
    resolve. *)
Definition database_missing (inp : ScanInput) : Prop :=
  (exists dir, getBuildDir inp = inr (Some dir))
  /\ (build_dir_exists inp = false \/ glob_entries inp = []).

(** The user picks the ignore item in a dialog of the scan: in the first
    one, which is shown when the configuration lacks the export option, or
    in the second one, which is shown unless the first was answered so. *)
Definition selects_ignore (inp : ScanInput) : Prop :=
  (JsString.includes (additional_cmake_args inp) "CMAKE_EXPORT_COMPILE_COMMANDS" = false
   /\ export_answer inp = Some IgnoreThis)
  \/ missing_answer inp = Some IgnoreThis.

(** C9 as stated, its second half: once a full reload has completed, a
    scan that finds no database shows a dialog again. *)
Definition reload_lifts_suppression (env : Env) (inp : ReloadInput)
    (w : CatkinWorkspace) : Prop :=
  ignoring w ->
  result_of (reload env inp w) = inr tt ->
  forall next : ScanInput,
    database_missing next ->
    exists e,
      e ∈ events_of (loadAndWatchCompileCommands env next (state_of (reload env inp w)))
      /\ is_warning e = true.

(** A scan in a workspace that was never built, answered with the ignore
    item, and a reload that finds the workspace in the same condition. *)
Definition unbuilt_scan : ScanInput :=
  {| getBuildDir := inr (Some "/ws/build");
     build_dir_exists := false;
     glob_entries := [];
     additional_cmake_args := "None";
     export_answer := Some IgnoreThis;
     build_task_found := true;
     missing_answer := None |}.

Definition unbuilt_reload : ReloadInput :=
  {| scan_input := unbuilt_scan;
     found_packages := [Some {| name := "a"; dependencies := []; dependees := [] |}] |}.

Definition after_ignore : CatkinWorkspace :=
  state_of (loadAndWatchCompileCommands example_env unbuilt_scan newWorkspace).


(** C3 as stated: for a vanished file, [updateDatabase] returns true,
    removes the records that came from the file and no other, and
    dispatches the signal exactly when it removed a record. *)
Definition vanished_file_as_stated (env : Env) (db_file : string)
    (w : CatkinWorkspace) : Prop :=
  readFile env db_file = None ->
  let o := updateDatabase env db_file w in
  result_of o = inr true
  /\ (forall f,
        file_to_command (state_of o) !! f
        = if decide (file_to_compile_commands w !! f = Some db_file)
          then None else file_to_command w !! f)
  /\ (build_commands_changed ∈ events_of o <->
      exists f, file_to_compile_commands w !! f = Some db_file).

(** A database that was never written. *)
Definition absent_database : string := "/ws/build/b/compile_commands.json".

(** The packages [A <- B <- C] and [A <- D] of the spec, as
    [buildDependencyGraph] leaves them: [B] and [D] depend on [A], [C]
    depends on [B]. *)
Definition package_A : CatkinPackage :=
  {| name := "A"; dependencies := []; dependees := ["B"; "D"] |}.
Definition package_B : CatkinPackage :=
  {| name := "B"; dependencies := ["A"]; dependees := ["C"] |}.
Definition package_C : CatkinPackage :=
  {| name := "C"; dependencies := ["B"]; dependees := [] |}.
Definition package_D : CatkinPackage :=
  {| name := "D"; dependencies := ["A"]; dependees := [] |}.
Definition example_packages : list (string * CatkinPackage) :=
  [("A", package_A); ("B", package_B); ("C", package_C); ("D", package_D)].

(** ** Further notions: the store *)

(** The two maps of the projection have the same keys: every source file
    with a record has an origin, and the other way round. *)
Definition store_ok (w : CatkinWorkspace) : Prop :=
  forall f, is_Some (file_to_command w !! f)
            <-> is_Some (file_to_compile_commands w !! f).

(** A state the workspace can be in: what a sequence of calls makes of a
    new workspace. *)
Definition reachable (w : CatkinWorkspace) : Prop :=
  exists calls, w = (run_calls calls newWorkspace).1.

(** The command of the last record of a database for a source file. *)
Fixpoint last_command (raws : list RawCommand) (f : string) : option string :=
  match raws with
  | [] => None
  | r :: rest =>
      match last_command rest f with
      | Some c => Some c
      | None => if decide (raw_file r = f) then Some (raw_command r) else None
      end
  end.

(** What the merge loop does when every record differs from the stored
    one: both maps get the record, in the order of the database. *)
Definition storeRecord (db_file : string) (w : CatkinWorkspace)
    (cmd : CompileCommand) : CatkinWorkspace :=
  set_file_to_compile_commands <[file cmd := db_file]>
    (set_file_to_command <[file cmd := cmd]> w).

(** The invariant of the store. *)
Definition store_inv (w : CatkinWorkspace) : Prop := heap_ok w /\ store_ok w.

(** Two databases that list the same source file, and the same file system
    once the second database is gone. *)
Definition database_a : string := "/ws/build/a/compile_commands.json".
Definition database_b : string := "/ws/build/b/compile_commands.json".

Definition shared_source : string := "/ws/src/common/util.cpp".

Definition two_databases_env : Env :=
  {| workspaceFolders := Some ["/ws"];
     execSync := execSync example_env;
     readFile := fun path =>
       if decide (path = database_a)
       then Some [ {| raw_file := shared_source;
                      raw_command := "/usr/bin/g++ -DPKG_A -c util.cpp" |} ]
       else if decide (path = database_b)
       then Some [ {| raw_file := shared_source;
                      raw_command := "/usr/bin/g++ -DPKG_B -c util.cpp" |} ]
       else None;
     cppStandard := "c++14";
     intelliSenseMode_setting := "gcc-x64" |}.

Definition database_b_removed_env : Env :=
  {| workspaceFolders := Some ["/ws"];
     execSync := execSync example_env;
     readFile := fun path =>
       if decide (path = database_a)
       then Some [ {| raw_file := shared_source;
                      raw_command := "/usr/bin/g++ -DPKG_A -c util.cpp" |} ]
       else None;
     cppStandard := "c++14";
     intelliSenseMode_setting := "gcc-x64" |}.

(** ** Further notions: the packages *)

(** The package [p] after [extra] was pushed to its dependees. *)
Definition withDependees (extra : list string) (p : CatkinPackage) : CatkinPackage :=
  {| name := name p; dependencies := dependencies p;
     dependees := dependees p ++ extra |}.

(** The names that [buildDependencyGraph] pushes to the package stored
    under [key]: for every package in the order of the map, its name once
    for each time it lists [key] among its dependencies. *)
Definition dependents_of (descriptors : list CatkinPackage) (key : string)
    : list string :=
  concat (map (fun q : CatkinPackage =>
                 map (fun _ => name q) (filter (fun d => d = key) (dependencies q)))
              descriptors).

(** The last package of the given name among those [loadFromXML] built. *)
Fixpoint last_loaded (found : list (option CatkinPackage)) (n : string)
    : option CatkinPackage :=
  match found with
  | [] => None
  | loaded :: rest =>
      match last_loaded rest n with
      | Some p => Some p
      | None =>
          match loaded with
          | Some p => if decide (name p = n) then Some p else None
          | None => None
          end
      end
  end.

(** Every package is stored under its name, and no key occurs twice. *)
Definition keyed_by_name (pkgs : list (string * CatkinPackage)) : Prop :=
  (forall k p, (k, p) ∈ pkgs -> name p = k) /\ NoDup (map fst pkgs).

(** A field that the store does not write. *)
Definition beside_the_store {B} (field : CatkinWorkspace -> B) : Prop :=
  (forall g w, field (set_file_to_command g w) = field w)
  /\ (forall g w, field (set_file_to_compile_commands g w) = field w)
  /\ (forall g w, field (set_compile_commands g w) = field w)
  /\ (forall g w, field (set_next_oid g w) = field w).

(** ** Further notions: strings and tokens *)

(** [tokens.join(sep)] *)
Fixpoint join (sep : string) (l : list string) : string :=
  match l with
  | [] => ""
  | [t] => t
  | t :: rest => t +:+ sep +:+ join sep rest
  end.

(** The prefix that [isWorkspacePath] compares a path with, for one
    workspace folder. *)
Definition workspace_base (ws : string) : string :=
  (if negb (JsString.endsWith ws "/") then ws +:+ "/" else ws) +:+ "src".

(** The two start markers and the end marker of [parseCompilerDefaultsCpp]. *)
Definition is_start_marker (line : string) : bool :=
  JsString.matchesDotStar ("#include " +:+ String JsString.dquote "") "starts here" line
  || JsString.matchesDotStar "#include <" "starts here" line.

Definition is_end_marker (line : string) : bool :=
  JsString.includes line "End of search list".

(** A command line of wrappers around a compiler: the first of the list is
    the compiler asked for, the others are its first arguments. *)
Definition all_wrappers (names : list string) : Prop :=
  Forall (fun c => JsString.includes (compiler_name c) "ccache" = true) names.

(** ** Further notions: what a command line names *)

(** The include paths that the scan loop reads off the options, in the
    order of the options; the last one is [None] when the options end on
    an [-isystem] that the loop reads as an option. *)
Fixpoint named_paths (opts : list string) : list (option string) :=
  match opts with
  | [] => []
  | opt :: rest =>
      if JsString.startsWith opt "-I" then Some (JsString.slice 2 opt) :: named_paths rest
      else if decide (opt = "-isystem") then
        match rest with
        | [] => [None]
        | path :: rest => Some path :: named_paths rest
        end
      else if JsString.startsWith opt "-isystem=" then
        Some (JsString.slice 9 opt) :: named_paths rest
      else named_paths rest
  end.

(** The options that the scan loop reads as a define: those that start
    with [-D] and are not the path of an [-isystem] before them. *)
Fixpoint define_options (opts : list string) : list string :=
  match opts with
  | [] => []
  | opt :: rest =>
      if JsString.startsWith opt "-I" then define_options rest
      else if decide (opt = "-isystem") then
        match rest with
        | [] => []
        | _ :: rest => define_options rest
        end
      else if JsString.startsWith opt "-isystem=" then define_options rest
      else if JsString.startsWith opt "-D" then opt :: define_options rest
      else define_options rest
  end.

(** The string of the one code unit [a]. *)
Definition unit_string (a : ascii) : string := String a "".

(** The define that the scan loop makes of an option [-D...]. *)
Definition define_of (opt : string) : string :=
  JsString.stripBackslashes (JsString.slice 2 opt).

(** What a scan that started in state [w] with the local variables [s] and
    returned has done, when the options it saw name the paths [named] and
    the defines [named_defines]: it emitted nothing, its lists grew by the
    named paths and defines, and the browse list grew by [added], the named
    paths outside the workspace that the list did not hold, each once; the
    flag is raised when [added] is not empty. *)
Definition scan_outcome (env : Env) (named : list (option string))
    (named_defines : list string) (s : Scan) (w : CatkinWorkspace)
    (o : (Exn + Scan) * CatkinWorkspace * list Event) : Prop :=
  forall s', result_of o = inr s' ->
    events_of o = []
    /\ includePaths s' = includePaths s ++ named
    /\ scanned_defines s' = scanned_defines s ++ named_defines
    /\ exists added,
         state_of o
         = set_system_include_browse_paths (fun paths => paths ++ added) w
         /\ (forall q, q ∈ added <->
               q ∈ named /\ isWorkspacePath env q = inr false
               /\ q ∉ system_include_browse_paths w)
         /\ NoDup added
         /\ new_system_path_found s'
            = new_system_path_found s || negb (bool_decide (added = [])).

(** ** Further notions: the output of a compiler *)

(** A line that is neither a start marker nor the end marker. *)
Definition is_plain_line (line : string) : bool :=
  negb (is_start_marker line) && negb (is_end_marker line).

(** The lines of an output with search lists: each section is a start
    marker and the plain lines after it. *)
Definition section_lines (sections : list (string * list string)) : list string :=
  flat_map (fun sec => sec.1 :: sec.2) sections.

(** A record whose compiler is no command of [example_env]. *)
Definition missing_compiler_record : CompileCommand :=
  {| oid := 4; file := "/ws/src/a/a.cpp";
     command := "/usr/bin/g++-12 -I/opt/a/include -c a.cpp" |}.

(** ** The packages that may use a file *)

Section PossibleSourceFiles.

Variable pkgs : list (string * CatkinPackage).

(** Modelled from the spec: [containsFile(uri)], the containment predicate
    of a package descriptor, taken at the file of the call. *)
Variable containsFile : CatkinPackage -> bool.

(** Modelled from the spec: [iteratePossibleSourceFiles(file, predicate)]
    of a package descriptor, taken at the file and the predicate of the
    call: whether the package accepts the file. *)
Variable accepts : CatkinPackage -> bool.






End PossibleSourceFiles.




(** ** The configuration of the build tool *)

(** [s.indexOf(sub)]: the place of the first occurrence, [-1] when there
    is none. *)
Fixpoint indexOf (s sub : string) : Z :=
  if JsString.startsWith s sub then 0%Z
  else match s with
       | EmptyString => (-1)%Z
       | String _ s' =>
           let i := indexOf s' sub in
           if (i <? 0)%Z then (-1)%Z else (i + 1)%Z
       end.

(** The body of the loop of [loadCatkinConfig] for one line.  The pattern
    [[key, val]] takes the first two pieces of the line; [val] is
    [undefined], here [None], when there is no second piece. *)
Definition setConfigLine (catkin_config : gmap string (option string))
    (line : string) : gmap string (option string) :=
  if (0 <? indexOf line ":")%Z then
    let pieces := map JsString.trim (JsString.split line ":") in
    <[hd "" pieces := pieces !! 1%nat]> catkin_config
  else catkin_config.

(** [loadCatkinConfig()], given the output of [catkin config]: the map
    it leaves in [catkin_config]. *)
Definition loadCatkinConfig (stdout : string) : gmap string (option string) :=
  foldl setConfigLine ∅ (JsString.split stdout line_break).

(** The key that a line of the output sets, if it sets one. *)
Definition config_key (line : string) : option string :=
  if (0 <? indexOf line ":")%Z
  then Some (JsString.trim (hd "" (JsString.split line ":")))
  else None.

(** What [catkin config] prints, in short. *)
Definition config_output : string :=
  "Profile:                     default" +:+ line_break +:+
  "Extending:          [env] /opt/ros/noetic:/opt/extra" +:+ line_break +:+
  "Additional CMake Args:  -DCMAKE_BUILD_TYPE=Release" +:+ line_break.

(** ** Further notions: what a call leaves alone *)

(** The state [w'] is [w] but for the list of defaults and the browse
    list. *)
Definition differs_in_path_lists (w w' : CatkinWorkspace) : Prop :=
  exists defaults browse,
    w' = set_default_system_include_paths (fun _ => defaults)
           (set_system_include_browse_paths (fun _ => browse) w).

(** The events of the resolver: its calls and the signal of the system
    paths. *)
Definition is_resolver_event (e : Event) : Prop :=
  e = system_paths_changed \/ exists r compiler, e = Called r compiler.

(** ** Further notions: the output of nvcc *)

(** Every code unit of [s] satisfies [P]. *)
Fixpoint all_units (P : ascii -> bool) (s : string) : bool :=
  match s with
  | EmptyString => true
  | String a s' => P a && all_units P s'
  end.

(** White space that is no line terminator. *)
Definition is_blank (a : ascii) : bool :=
  JsString.isSpace a && negb (JsString.isLineTerminator a).

(** The text between the quotes of a line [#$ INCLUDES="..."] that lists
    [items]: each item is a path, after [-I], and the blanks that follow
    it. *)
Fixpoint includes_text (items : list (string * string)) : string :=
  match items with
  | [] => ""
  | item :: rest => "-I" +:+ item.1 +:+ item.2 +:+ includes_text rest
  end.

(** The line itself; [trailing] is what follows the closing quote. *)
Definition includes_line (items : list (string * string)) (trailing : string)
    : string :=
  "#$ INCLUDES=" +:+ String JsString.dquote
    (includes_text items +:+ String JsString.dquote trailing).

(** A path that such a line can list: it is not empty, has no white space
    at its ends, and holds neither a line terminator nor [-I]. *)
Definition listable (p : string) : Prop :=
  p ≠ ""
  /\ JsString.trimStart p = p
  /\ JsString.trimStart (String.rev p) = String.rev p
  /\ JsString.noLineTerminator p = true
  /\ JsString.includes p "-I" = false.

(** What [nvcc --dryrun -v /dev/null] prints, in short, and a file system
    where it does, failing as it is run on no source. *)
Definition nvcc_items : list (string * string) :=
  [("/usr/local/cuda/bin/../targets/x86_64-linux/include", " ");
   ("/opt/cuda-extras/include", "")].

Definition nvcc_output : string :=
  "#$ _NVVM_BRANCH_=nvvm" +:+ line_break +:+
  includes_line nvcc_items "  " +:+ line_break +:+
  "#$ LIBRARIES=  -L/usr/local/cuda/lib64".

Definition nvcc_env : Env :=
  {| workspaceFolders := Some ["/ws"];
     execSync := fun cmd =>
       if decide (cmd = "/usr/local/cuda/bin/nvcc --dryrun -v /dev/null 1>&2")
       then inr nvcc_output
       else inr "Command failed";
     readFile := fun _ => None;
     cppStandard := "c++14";
     intelliSenseMode_setting := "gcc-x64" |}.

(** ** Further notions: the order of the walk *)

(** A walk of [k] steps along [dependees] that starts at one of [direct]
    and goes on only from keys of the package map ends at the name. *)
Inductive steps_to (pkgs : list (string * CatkinPackage)) (direct : list string)
    : nat -> string -> Prop :=
| steps_direct n : n ∈ direct -> steps_to pkgs direct 0 n
| steps_next k n p m :
    steps_to pkgs direct k n -> lookupPackage pkgs n = Some p ->
    m ∈ dependees p -> steps_to pkgs direct (S k) m.

(** The name is at most [k] steps away from [direct]. *)
Definition near (pkgs : list (string * CatkinPackage)) (direct : list string)
    (k : nat) (n : string) : Prop :=
  exists j, j <= k /\ steps_to pkgs direct j n.

(** No name of the list is farther from [direct] than a name after it. *)
Definition by_distance (pkgs : list (string * CatkinPackage))
    (direct : list string) (l : list string) : Prop :=
  forall before x mid y after,
    l = before ++ x :: mid ++ y :: after ->
    forall k, near pkgs direct k y -> near pkgs direct k x.

(** What the loop appends to its queue when it has handed over the package
    stored under [n]. *)
Definition queued_for (pkgs : list (string * CatkinPackage)) (n : string)
    : list string :=
  match lookupPackage pkgs n with
  | Some p => dependees p
  | None => []
  end.

(** The keys among [names], each at its first occurrence, the names in
    [seen] passed over. *)
Fixpoint first_keys (pkgs : list (string * CatkinPackage)) (seen : gset string)
    (names : list string) : list string :=
  match names with
  | [] => []
  | n :: rest =>
      if decide (n ∈ seen) then first_keys pkgs seen rest
      else
        let later := first_keys pkgs ({[n]} ∪ seen) rest in
        if lookupPackage pkgs n is Some _ then n :: later else later
  end.
(** ** Laws of the monad *)

Section MonadLaws.

Context {A B : Type}.
Implicit Types (m : M A) (k : A -> M B) (w : CatkinWorkspace).

Lemma run_bind_inr m k w a :
  result_of (m w) = inr a ->
  bind m k w = (result_of (k a (state_of (m w))),
                state_of (k a (state_of (m w))),
                events_of (m w) ++ events_of (k a (state_of (m w)))).
Proof. intros H. unfold bind. cbn zeta. by rewrite H. Qed.

Lemma run_bind_inl m k w e :
  result_of (m w) = inl e ->
  bind m k w = (inl e, state_of (m w), events_of (m w)).
Proof. intros H. unfold bind. cbn zeta. by rewrite H. Qed.

Lemma run_bind_inl_eq m k w e w' ev :
  m w = (inl e, w', ev) -> bind m k w = (inl e, w', ev).
Proof. intros Hm. unfold bind. by rewrite Hm. Qed.

Lemma events_of_bind m k w :
  events_of (bind m k w) =
  events_of (m w) ++
  match result_of (m w) with
  | inl _ => []
  | inr a => events_of (k a (state_of (m w)))
  end.
Proof.
  unfold bind. cbn zeta.
  destruct (result_of (m w)); cbn; [by rewrite (right_id_L [] (++))|done].
Qed.

Lemma state_of_bind m k w :
  state_of (bind m k w) =
  match result_of (m w) with
  | inl _ => state_of (m w)
  | inr a => state_of (k a (state_of (m w)))
  end.
Proof. unfold bind. cbn zeta. by destruct (result_of (m w)). Qed.

Lemma result_of_bind m k w :
  result_of (bind m k w) =
  match result_of (m w) with
  | inl e => inl e
  | inr a => result_of (k a (state_of (m w)))
  end.
Proof. unfold bind. cbn zeta. by destruct (result_of (m w)). Qed.

Lemma maintains_bind I P m k :
  maintains I P m -> (forall a, maintains I P (k a)) ->
  maintains I P (bind m k).
Proof.
  intros Hm Hk w Hw. destruct (Hm w Hw) as [Hi Hev].
  destruct (result_of (m w)) as [e|a] eqn:Hr.
  - rewrite (run_bind_inl _ _ _ _ Hr). by split.
  - rewrite (run_bind_inr _ _ _ _ Hr). cbn.
    destruct (Hk a _ Hi) as [Hi' Hev']. split; [done|].
    by apply Forall_app.
Qed.

End MonadLaws.

Lemma surjective_run {A} (o : (Exn + A) * CatkinWorkspace * list Event) :
  o = (result_of o, state_of o, events_of o).
Proof. by destruct o as [[??]?]. Qed.

Lemma maintains_ret {A} I P (a : A) : maintains I P (ret a).
Proof. intros w Hw. by split. Qed.

Lemma maintains_throw {A} I P e : maintains I P (@throw A e).
Proof. intros w Hw. by split. Qed.

Lemma maintains_get I P : maintains I P get.
Proof. intros w Hw. by split. Qed.

Lemma maintains_lift {A} I P (r : Exn + A) : maintains I P (lift r).
Proof. intros w Hw. by split. Qed.

Lemma maintains_emit (I : CatkinWorkspace -> Prop) (P : Event -> Prop) e :
  P e -> maintains I P (emit e).
Proof. intros He w Hw. split; [done|]. by repeat constructor. Qed.

Lemma maintains_modify (I : CatkinWorkspace -> Prop) P f :
  (forall w, I w -> I (f w)) -> maintains I P (modify f).
Proof. intros Hf w Hw. split; [by apply Hf|]. constructor. Qed.

Lemma maintains_try_catch {A} I P (m : M A) h :
  maintains I P m -> (forall e, maintains I P (h e)) ->
  maintains I P (try_catch m h).
Proof.
  intros Hm Hh w Hw. destruct (Hm w Hw) as [Hi Hev].
  unfold try_catch. cbn zeta.
  destruct (result_of (m w)) as [e|a].
  - cbn. destruct (Hh e _ Hi) as [Hi' Hev']. split; [done|].
    by apply Forall_app.
  - by split.
Qed.

Lemma maintains_if {A} I P (b : bool) (m1 m2 : M A) :
  maintains I P m1 -> maintains I P m2 ->
  maintains I P (if b then m1 else m2).
Proof. by destruct b. Qed.

Lemma maintains_decide {A} I P (Q : Prop) (d : Decision Q) (m1 m2 : M A) :
  maintains I P m1 -> maintains I P m2 ->
  maintains I P (if d then m1 else m2).
Proof. by destruct d. Qed.

Create HintDb maintains discriminated.
#[local] Hint Resolve maintains_ret maintains_throw maintains_get
  maintains_lift maintains_emit maintains_modify maintains_try_catch
  maintains_if maintains_decide : maintains.
#[local] Hint Extern 2 (maintains _ _ (bind _ _)) =>
  apply maintains_bind; [|intros ?] : maintains.
#[local] Hint Extern 3 (maintains _ _ (match ?x with _ => _ end)) =>
  destruct x : maintains.

Ltac maintain := cbv beta; eauto 20 with maintains.

(** Runs of the primitive steps followed by a continuation. *)

Lemma run_ret_bind {A B} (a : A) (k : A -> M B) w : bind (ret a) k w = k a w.
Proof. unfold bind. cbn. by destruct (k a w) as [[??]?]. Qed.

Lemma run_get_bind {B} (k : CatkinWorkspace -> M B) w : bind get k w = k w w.
Proof. unfold bind. cbn. by destruct (k w w) as [[??]?]. Qed.

Lemma run_modify_bind {B} f (k : unit -> M B) w :
  bind (modify f) k w = k tt (f w).
Proof. unfold bind. cbn. by destruct (k tt (f w)) as [[??]?]. Qed.

Lemma run_emit_bind {B} e (k : unit -> M B) w :
  bind (emit e) k w =
  (result_of (k tt w), state_of (k tt w), e :: events_of (k tt w)).
Proof. done. Qed.

Lemma run_throw_bind {A B} e (k : A -> M B) w :
  bind (throw e) k w = (inl e, w, []).
Proof. done. Qed.

Lemma run_lift_bind {A B} (r : Exn + A) (k : A -> M B) w :
  bind (lift r) k w =
  match r with
  | inl e => (inl e, w, [])
  | inr a => k a w
  end.
Proof. destruct r as [e|a]; [done|]. unfold bind. cbn. by destruct (k a w) as [[??]?]. Qed.

Lemma run_bind_assoc {A B C} (m : M A) (k : A -> M B) (k' : B -> M C) w :
  bind (bind m k) k' w = bind m (fun a => bind (k a) k') w.
Proof.
  unfold bind. cbn zeta.
  destruct (result_of (m w)) as [e|a]; [done|]. cbn.
  destruct (result_of (k a (state_of (m w)))) as [e|b]; [done|]. cbn.
  by rewrite (assoc_L (++)).
Qed.

(** ** The resolver *)

Section ResolverFacts.

Variable env : Env.

Lemma parseCompilerDefaults_unfold compiler args :
  parseCompilerDefaults env compiler args =
  (modify (set_default_system_include_paths (fun _ => [])) ;;
   (if decide (compiler_name compiler = "nvcc")
    then parseCompilerDefaultsNvcc env compiler
    else ret tt) ;;
   (if includes (compiler_name compiler) "ccache"
    then parseCompilerDefaultsCcache env compiler args
    else parseCompilerDefaultsCpp env compiler) ;;
   emit system_paths_changed).
Proof. by destruct args. Qed.

(** The resolution starts by emptying the list, so it does not depend on
    what the list held. *)
Lemma parseCompilerDefaults_reset compiler args w :
  parseCompilerDefaults env compiler args
    (set_default_system_include_paths (fun _ => []) w)
  = parseCompilerDefaults env compiler args w.
Proof. rewrite parseCompilerDefaults_unfold. by rewrite !run_modify_bind. Qed.

Lemma wrapper_is_not_nvcc compiler :
  includes (compiler_name compiler) "ccache" = true ->
  compiler_name compiler ≠ "nvcc".
Proof. intros H E. rewrite E in H. discriminate H. Qed.

(** A wrapper with a first argument resolves that argument. *)
Lemma parseCompilerDefaults_wrapper compiler arg0 rest w :
  includes (compiler_name compiler) "ccache" = true ->
  let inner := parseCompilerDefaults env arg0 rest w in
  parseCompilerDefaults env compiler (arg0 :: rest) w =
  (result_of inner, state_of inner,
   Called Ccache compiler :: events_of inner ++
     match result_of inner with
     | inr _ => [system_paths_changed]
     | inl _ => []
     end).
Proof.
  intros Hw inner. subst inner.
  rewrite (parseCompilerDefaults_unfold compiler).
  destruct (decide (compiler_name compiler = "nvcc")) as [E|_];
    [by apply wrapper_is_not_nvcc in Hw|].
  rewrite Hw, run_modify_bind, run_ret_bind.
  unfold parseCompilerDefaultsCcache, parseCompilerDefaultsCcache_body.
  rewrite run_bind_assoc, run_emit_bind.
  unfold bind. cbn zeta. rewrite parseCompilerDefaults_reset.
  destruct (result_of (parseCompilerDefaults env arg0 rest w)) as [e|[]] eqn:Hr;
    cbn; rewrite ?Hr; [by rewrite (right_id_L [] (++))|done].
Qed.

(** A wrapper without arguments resolves nothing. *)
Lemma parseCompilerDefaults_wrapper_alone compiler w :
  includes (compiler_name compiler) "ccache" = true ->
  parseCompilerDefaults env compiler [] w =
  (inr tt, set_default_system_include_paths (fun _ => []) w,
   [Called Ccache compiler; system_paths_changed]).
Proof.
  intros Hw. rewrite (parseCompilerDefaults_unfold compiler).
  destruct (decide (compiler_name compiler = "nvcc")) as [E|_];
    [by apply wrapper_is_not_nvcc in Hw|].
  by rewrite Hw, run_modify_bind, run_ret_bind.
Qed.

End ResolverFacts.

(** C7.  Resolving the defaults of the caching wrapper [ccache] followed by
    [g++ -std=c++17] gives what resolving [g++] with the argument
    [-std=c++17] gives, list and outcome alike; resolving [ccache] with no
    further argument returns with an empty list of defaults. *)
Theorem ccache_resolves_as_wrapped_compiler (env : Env) (w : CatkinWorkspace) :
  let wrapped := parseCompilerDefaults env "ccache" ["g++"; "-std=c++17"] w in
  let direct := parseCompilerDefaults env "g++" ["-std=c++17"] w in
  let alone := parseCompilerDefaults env "ccache" [] w in
  default_system_include_paths (state_of wrapped)
    = default_system_include_paths (state_of direct)
  /\ result_of wrapped = result_of direct
  /\ state_of wrapped = state_of direct
  /\ result_of alone = inr tt
  /\ default_system_include_paths (state_of alone) = [].
Proof.
  intros wrapped direct alone. subst wrapped direct alone.
  rewrite (parseCompilerDefaults_wrapper env "ccache" "g++"), 
    (parseCompilerDefaults_wrapper_alone env "ccache") by reflexivity.
  done.
Qed.

Section ResolverCalls.

Variable env : Env.

Lemma parseCompilerDefaultsCpp_calls compiler w :
  List.filter is_resolver_call (events_of (parseCompilerDefaultsCpp env compiler w))
  = [Called Cpp compiler].
Proof.
  unfold parseCompilerDefaultsCpp. rewrite run_emit_bind.
  by destruct (execSync env _).
Qed.

Lemma parseCompilerDefaultsNvcc_run compiler w :
  exists w', parseCompilerDefaultsNvcc env compiler w
             = (inr tt, w', [Called Nvcc compiler]).
Proof.
  unfold parseCompilerDefaultsNvcc. rewrite run_emit_bind.
  destruct (execSync env _); eauto.
Qed.



End ResolverCalls.

(** A compiler named [nvcc] enters the GPU resolver and then the generic
    one. *)
Lemma nvcc_calls (env : Env) (compiler : string) (args : list string)
    (w : CatkinWorkspace) :
  compiler_name compiler = "nvcc" ->
  List.filter is_resolver_call (events_of (parseCompilerDefaults env compiler args w))
  = [Called Nvcc compiler; Called Cpp compiler].
Proof.
  intros Hn. rewrite parseCompilerDefaults_unfold, run_modify_bind.
  destruct (decide _) as [_|]; [|done].
  rewrite Hn. change (includes "nvcc" "ccache") with false. cbv iota.
  destruct (parseCompilerDefaultsNvcc_run env compiler
              (set_default_system_include_paths (fun _ => []) w)) as [w' Hrun].
  unfold bind at 1. cbn zeta. rewrite Hrun.
  cbn [result_of state_of events_of fst snd app List.filter is_resolver_call].
  f_equal.
  rewrite events_of_bind, List.filter_app, parseCompilerDefaultsCpp_calls.
  by destruct (result_of _).
Qed.


(** C2, where the code departs from it.  For a compiler whose base name is
    exactly [nvcc], one resolution enters two resolvers: the GPU resolver
    and then, the [if] on the wrapper name not being an [else if], the
    generic resolver on the same compiler. *)
Theorem nvcc_runs_gpu_then_generic_resolver
    (env : Env) (compiler : string) (args : list string) (w : CatkinWorkspace) :
  compiler_name compiler = "nvcc" ->
  List.filter is_resolver_call (events_of (parseCompilerDefaults env compiler args w))
  = [Called Nvcc compiler; Called Cpp compiler].
Proof. apply nvcc_calls. Qed.

Lemma nvcc_runs_gpu_then_generic_resolver_witness :
  compiler_name "/usr/local/cuda/bin/nvcc" = "nvcc"
  /\ List.filter is_resolver_call
       (events_of (parseCompilerDefaults example_env "/usr/local/cuda/bin/nvcc"
                     [] newWorkspace))
     = [Called Nvcc "/usr/local/cuda/bin/nvcc"; Called Cpp "/usr/local/cuda/bin/nvcc"].
Proof.
  split; [reflexivity|].
  apply (nvcc_runs_gpu_then_generic_resolver example_env
           "/usr/local/cuda/bin/nvcc" [] newWorkspace).
  reflexivity.
Defined.

(** ** The invocation parser *)

Section ParserFacts.

Variable env : Env.

Lemma isWorkspacePath_undefined_folders path :
  workspaceFolders env = None -> isWorkspacePath env path = inl TypeError.
Proof. unfold isWorkspacePath. by intros ->. Qed.

Lemma isWorkspacePath_Some folders p :
  workspaceFolders env = Some folders ->
  exists b, isWorkspacePath env (Some p) = inr b.
Proof.
  unfold isWorkspacePath. intros ->.
  induction folders as [|ws more IH]; cbn.
  - by eexists.
  - destruct (JsString.startsWith p _); [by eexists|done].
Qed.

Lemma isWorkspacePath_None :
  isWorkspacePath env None =
  match workspaceFolders env with
  | Some [] => inr false
  | _ => inl TypeError
  end.
Proof. unfold isWorkspacePath. by destruct (workspaceFolders env) as [[|]|]. Qed.

Lemma addIncludePath_run path s w :
  addIncludePath env path s w =
  match isWorkspacePath env path with
  | inl e => (inl e, w, [])
  | inr true => (inr (pushPath path false s), w, [])
  | inr false =>
      if bool_decide (path ∉ system_include_browse_paths w)
      then (inr (pushPath path true s),
            set_system_include_browse_paths (fun paths => paths ++ [path]) w, [])
      else (inr (pushPath path false s), w, [])
  end.
Proof.
  unfold addIncludePath. rewrite run_lift_bind.
  destruct (isWorkspacePath env path) as [e|[]]; [done|done|].
  cbn [negb]. rewrite run_get_bind.
  destruct (bool_decide _); [|done].
  by rewrite run_modify_bind.
Qed.

Lemma set_browse_id w :
  set_system_include_browse_paths
    (fun _ => system_include_browse_paths w ++ []) w = w.
Proof. destruct w. cbn. by rewrite app_nil_r. Qed.

Lemma set_browse_push w path added :
  set_system_include_browse_paths
    (fun _ => system_include_browse_paths
                (set_system_include_browse_paths (fun paths => paths ++ [path]) w)
              ++ added)
    (set_system_include_browse_paths (fun paths => paths ++ [path]) w)
  = set_system_include_browse_paths
      (fun _ => system_include_browse_paths w ++ path :: added) w.
Proof. destruct w. cbn. by rewrite <- app_assoc. Qed.

Lemma set_browse_app_nil w :
  set_system_include_browse_paths (fun paths => paths ++ []) w = w.
Proof.
  destruct w. unfold set_system_include_browse_paths.
  cbn [system_include_browse_paths]. by rewrite app_nil_r.
Qed.

Lemma isystem_not_I : JsString.startsWith "-isystem" "-I" = false.
Proof. reflexivity. Qed.

Lemma scan_spec_done dangling s w :
  dangling = false ->
  scan_spec (workspaceFolders env) dangling s w (inr s, w, []).
Proof.
  intros ->. split; [done|]. exists []. rewrite set_browse_id. split; [done|].
  exists []. cbn. rewrite app_nil_r. repeat split; try done. set_solver.
Qed.

Lemma scan_spec_push p dangling s w (k : Scan -> M Scan) :
  (forall s' w', scan_spec (workspaceFolders env) dangling s' w' (k s' w')) ->
  scan_spec (workspaceFolders env) dangling s w
    (bind (addIncludePath env (Some p) s) k w).
Proof.
  intros Hk.
  assert (Hext : forall found w1 extra,
    (forall q, q ∈ extra -> q = Some p) ->
    w1 = set_system_include_browse_paths
           (fun paths => paths ++ extra) w ->
    addIncludePath env (Some p) s w = (inr (pushPath (Some p) found s), w1, []) ->
    scan_spec (workspaceFolders env) dangling s w
      (bind (addIncludePath env (Some p) s) k w)).
  { intros found w1 extra Hextra -> Hrun.
    rewrite (run_bind_inr _ _ _ (pushPath (Some p) found s)) by by rewrite Hrun.
    rewrite Hrun. cbn [state_of events_of fst snd app].
    destruct (Hk (pushPath (Some p) found s)
                (set_system_include_browse_paths (fun paths => paths ++ extra) w))
      as (Hev & added & Hst & Hres).
    split; [done|]. exists (extra ++ added). cbn [state_of result_of fst snd].
    split.
    { rewrite Hst. destruct w. cbn. by rewrite <- app_assoc. }
    destruct (result_of _) as [e|s']; [done|].
    destruct Hres as (explicit & Hinc & Hsub & Hno & Hdang).
    exists (Some p :: explicit). cbn in Hinc. rewrite <- app_assoc in Hinc.
    split; [done|]. split.
    { intros q [Hq|Hq]%elem_of_app; [rewrite (Hextra q Hq)|]; set_solver. }
    split.
    { intros Hd. specialize (Hno Hd). set_solver. }
    intros Hd. destruct (Hdang Hd) as (Hf & before & -> & Hb).
    split; [done|]. exists (Some p :: before). split; [done|]. set_solver. }
  pose proof (addIncludePath_run (Some p) s w) as Hrun.
  destruct (workspaceFolders env) as [folders|] eqn:Hfolders.
  2:{ rewrite (isWorkspacePath_undefined_folders _ Hfolders) in Hrun.
      rewrite (run_bind_inl _ _ _ TypeError) by by rewrite Hrun.
      rewrite Hrun. split; [done|]. exists []. rewrite set_browse_id.
      split; [done|]. split; [done|]. by left. }
  destruct (isWorkspacePath_Some folders p Hfolders) as [b Hb]. rewrite Hb in Hrun.
  destruct b.
  - apply (Hext false w []); [set_solver| |done].
    by rewrite set_browse_app_nil.
  - destruct (bool_decide _).
    + apply (Hext true
               (set_system_include_browse_paths (fun paths => paths ++ [Some p]) w)
               [Some p]); [set_solver|done|done].
    + apply (Hext false w []); [set_solver| |done].
      by rewrite set_browse_app_nil.
Qed.

Lemma scan_spec_dangling s w :
  scan_spec (workspaceFolders env) true s w (addIncludePath env None s w).
Proof.
  rewrite addIncludePath_run, isWorkspacePath_None.
  destruct (workspaceFolders env) as [[|ws more]|] eqn:Hf.
  - assert (Hlast : exists before : list (option string),
              [None] = before ++ [None] /\ None ∉ before).
    { exists []. split; [done|]. set_solver. }
    destruct (bool_decide _).
    + split; [done|]. exists [None]. split; [done|].
      exists [None]. repeat split; done.
    + split; [done|]. exists []. rewrite set_browse_id. split; [done|].
      exists [None]. repeat split; try done. set_solver.
  - split; [done|]. exists []. rewrite set_browse_id.
    split; [done|]. split; [done|]. right. by split.
  - split; [done|]. exists []. rewrite set_browse_id.
    split; [done|]. split; [done|]. by left.
Qed.

Lemma scan_spec_paths folders dangling s1 s2 w o :
  includePaths s1 = includePaths s2 ->
  scan_spec folders dangling s1 w o -> scan_spec folders dangling s2 w o.
Proof. unfold scan_spec. by intros ->. Qed.

Lemma scanArgs_spec n : forall opts s w, length opts <= n ->
  scan_spec (workspaceFolders env) (danglingIsystem opts) s w
    (scanArgs env opts s w).
Proof.
  induction n as [|n IH]; intros opts s w Hlen.
  { destruct opts; [|cbn in Hlen; lia]. by apply scan_spec_done. }
  destruct opts as [|opt rest]; [by apply scan_spec_done|].
  cbn in Hlen. cbn [scanArgs danglingIsystem].
  destruct (JsString.startsWith opt "-I") eqn:HI.
  { destruct (decide (opt = "-isystem")) as [->|_]; [done|].
    apply scan_spec_push. intros. apply IH. lia. }
  destruct (decide (opt = "-isystem")) as [->|_].
  { destruct rest as [|path rest]; [apply scan_spec_dangling|].
    apply scan_spec_push. intros. apply IH. cbn in Hlen. lia. }
  destruct (JsString.startsWith opt "-isystem=").
  { apply scan_spec_push. intros. apply IH. lia. }
  destruct (JsString.startsWith opt "-D"); [|apply IH; lia].
  eapply scan_spec_paths; [|apply IH; lia]. done.
Qed.

(** With the folders [undefined] the scan raises on the first path that
    the options name, before it writes anything; it returns when they name
    none. *)
Lemma scanArgs_undefined_folders n : forall opts s w, length opts <= n ->
  workspaceFolders env = None ->
  match named_paths opts with
  | [] => exists s', scanArgs env opts s w = (inr s', w, [])
                     /\ includePaths s' = includePaths s
  | _ :: _ => scanArgs env opts s w = (inl TypeError, w, [])
  end.
Proof.
  induction n as [|n IH]; intros opts s w Hlen Hf.
  { destruct opts; [|cbn in Hlen; lia]. by exists s. }
  destruct opts as [|opt rest]; [by exists s|].
  cbn in Hlen. cbn [scanArgs named_paths].
  assert (Hraise : forall path (k : Scan -> M Scan),
            bind (addIncludePath env path s) k w = (inl TypeError, w, [])).
  { intros path k. apply run_bind_inl_eq.
    by rewrite addIncludePath_run, (isWorkspacePath_undefined_folders _ Hf). }
  destruct (JsString.startsWith opt "-I"); [apply Hraise|].
  destruct (decide (opt = "-isystem")) as [->|_].
  { destruct rest as [|path rest]; [|apply Hraise].
    by rewrite addIncludePath_run, (isWorkspacePath_undefined_folders _ Hf). }
  destruct (JsString.startsWith opt "-isystem="); [apply Hraise|].
  destruct (JsString.startsWith opt "-D"); [|apply IH; [lia|done]].
  specialize (IH rest {| includePaths := includePaths s;
                         scanned_defines :=
                           scanned_defines s
                           ++ [JsString.stripBackslashes (JsString.slice 2 opt)];
                         new_system_path_found := new_system_path_found s |}
                w ltac:(lia) Hf).
  by destruct (named_paths rest).
Qed.
End ParserFacts.

Section QueryFacts.

Variable env : Env.

(** The steps of [getSourceFileConfiguration] one after the other: the
    resolution when the list of defaults is empty, the scan, the signal
    and the record returned. *)
Lemma getSourceFileConfiguration_run commands w :
  let compiler := hd "" (tokens commands) in
  let pre := resolveWhenEmpty env compiler (tl (tokens commands)) w in
  getSourceFileConfiguration env commands w =
  match result_of pre with
  | inl e => (inl e, state_of pre, events_of pre)
  | inr _ =>
      let o := scanArgs env (tl (tokens commands)) scan_start (state_of pre) in
      match result_of o with
      | inl e => (inl e, state_of o, events_of pre ++ events_of o)
      | inr s =>
          (inr {| standard := cppStandard env;
                  intelliSenseMode := intelliSenseMode_setting env;
                  includePath :=
                    includePaths s
                    ++ map Some (default_system_include_paths (state_of o));
                  defines := scanned_defines s;
                  compilerPath := compiler |},
           state_of o,
           events_of pre ++ events_of o ++
             (if new_system_path_found s then [system_paths_changed] else []))
      end
  end.
Proof.
  intros compiler pre. unfold getSourceFileConfiguration.
  fold (tokens commands). fold compiler. fold scan_start. fold pre.
  destruct (result_of pre) as [e|[]] eqn:Hpre.
  { by rewrite (run_bind_inl _ _ _ _ Hpre). }
  rewrite (run_bind_inr _ _ _ _ Hpre). cbn zeta.
  destruct (result_of (scanArgs _ _ _ _)) as [e|s] eqn:Hscan.
  { by rewrite (run_bind_inl _ _ _ _ Hscan). }
  rewrite (run_bind_inr _ _ _ _ Hscan).
  cbn [result_of state_of events_of fst snd].
  destruct (new_system_path_found s).
  - by rewrite run_emit_bind, run_get_bind.
  - rewrite run_ret_bind, run_get_bind. cbn. by rewrite app_nil_r.
Qed.

Lemma resolveWhenEmpty_run compiler args w :
  resolveWhenEmpty env compiler args w =
  match default_system_include_paths w with
  | [] => parseCompilerDefaults env compiler args w
  | _ :: _ => (inr tt, w, [])
  end.
Proof.
  unfold resolveWhenEmpty. rewrite run_get_bind.
  by destruct (default_system_include_paths w).
Qed.

Lemma parseCompilerDefaultsCpp_maintains I P compiler :
  (forall g w, I w -> I (set_default_system_include_paths g w)) ->
  (forall r c, P (Called r c)) ->
  maintains I P (parseCompilerDefaultsCpp env compiler).
Proof. intros HI HP. unfold parseCompilerDefaultsCpp. maintain. Qed.

Lemma parseCompilerDefaultsNvcc_maintains I P compiler :
  (forall g w, I w -> I (set_default_system_include_paths g w)) ->
  (forall r c, P (Called r c)) ->
  maintains I P (parseCompilerDefaultsNvcc env compiler).
Proof. intros HI HP. unfold parseCompilerDefaultsNvcc. maintain. Qed.

(** The resolution writes no field but the list of defaults and emits
    nothing but its calls and the signal of the system paths. *)
Lemma parseCompilerDefaults_maintains I (P : Event -> Prop) :
  (forall g w, I w -> I (set_default_system_include_paths g w)) ->
  (forall r c, P (Called r c)) -> P system_paths_changed ->
  forall args compiler, maintains I P (parseCompilerDefaults env compiler args).
Proof.
  intros HI HP Hs args.
  induction args as [|arg0 rest IH]; intros compiler;
    rewrite parseCompilerDefaults_unfold;
    unfold parseCompilerDefaultsCcache, parseCompilerDefaultsCcache_body;
    pose proof (parseCompilerDefaultsCpp_maintains I P compiler HI HP);
    pose proof (parseCompilerDefaultsNvcc_maintains I P compiler HI HP);
    maintain.
Qed.

Lemma parseCompilerDefaults_keeps_browse_paths compiler args w :
  system_include_browse_paths (state_of (parseCompilerDefaults env compiler args w))
  = system_include_browse_paths w.
Proof.
  by apply (parseCompilerDefaults_maintains
              (fun w' => system_include_browse_paths w' = system_include_browse_paths w)
              (fun _ => True)).
Qed.

(** The resolution of a compiler that is neither [nvcc] nor a wrapper,
    when the compiler answers. *)
Lemma parseCompilerDefaults_generic_run compiler args w stdout :
  compiler_name compiler ≠ "nvcc" ->
  includes (compiler_name compiler) "ccache" = false ->
  execSync env (compiler +:+ " -xc++ -E -v /dev/null -o /dev/null 2>&1") = inl stdout ->
  parseCompilerDefaults env compiler args w =
  (inr tt,
   set_default_system_include_paths
     (fun _ => cppSearchList false false (split stdout (String newline ""))) w,
   [Called Cpp compiler; system_paths_changed]).
Proof.
  intros Hn Hc Hexec. rewrite parseCompilerDefaults_unfold, run_modify_bind.
  destruct (decide _) as [|_]; [done|]. rewrite Hc, run_ret_bind.
  unfold parseCompilerDefaultsCpp. rewrite run_bind_assoc, run_emit_bind, Hexec.
  by rewrite run_modify_bind.
Qed.

Lemma resolveWhenEmpty_keeps_browse_paths compiler args w :
  system_include_browse_paths (state_of (resolveWhenEmpty env compiler args w))
  = system_include_browse_paths w.
Proof.
  rewrite resolveWhenEmpty_run.
  destruct (default_system_include_paths w);
    [apply parseCompilerDefaults_keeps_browse_paths|done].
Qed.

End QueryFacts.

(** C8, as the code has it.  The paths a query adds to the browse list of
    the workspace are among the include paths it returns; the browse list is
    one list for all records, and what earlier queries put there stays. *)
Theorem new_browse_paths_are_include_paths
    (env : Env) (commands : CompileCommand) (w : CatkinWorkspace)
    (cfg : SourceFileConfiguration) :
  result_of (getSourceFileConfiguration env commands w) = inr cfg ->
  exists added,
    system_include_browse_paths
      (state_of (getSourceFileConfiguration env commands w))
    = system_include_browse_paths w ++ added
    /\ forall p, p ∈ added -> p ∈ includePath cfg.
Proof.
  rewrite getSourceFileConfiguration_run. cbn zeta.
  pose proof (resolveWhenEmpty_keeps_browse_paths env (hd "" (tokens commands))
                (tl (tokens commands)) w) as Hpre.
  set (pre := resolveWhenEmpty _ _ _ _) in *.
  destruct (result_of pre) as [e|[]]; [done|].
  destruct (scanArgs_spec env _ (tl (tokens commands)) scan_start (state_of pre)
              (le_n _)) as (_ & added & Hst & Hres).
  set (o := scanArgs _ _ _ _) in *.
  destruct (result_of o) as [e|s]; [done|].
  intros [= <-]. cbn [state_of fst snd includePath].
  destruct Hres as (explicit & Hinc & Hsub & _).
  exists added. change (o.1.2) with (state_of o). rewrite Hst.
  change (system_include_browse_paths (set_system_include_browse_paths ?g ?v))
    with (g (system_include_browse_paths v)). cbv beta. rewrite Hpre.
  split; [done|].
  intros p Hp. rewrite Hinc. cbn. apply elem_of_app. left. by apply Hsub.
Qed.

Lemma new_browse_paths_are_include_paths_witness :
  result_of (getSourceFileConfiguration example_env example_record newWorkspace)
    = inr example_configuration
  /\ exists added,
       system_include_browse_paths
         (state_of (getSourceFileConfiguration example_env example_record newWorkspace))
       = system_include_browse_paths newWorkspace ++ added
       /\ forall p, p ∈ added -> p ∈ includePath example_configuration.
Proof.
  split; [vm_compute; reflexivity|].
  apply (new_browse_paths_are_include_paths example_env example_record
           newWorkspace example_configuration).
  vm_compute. reflexivity.
Defined.

(** C8 as stated fails on the second of two queries: [/usr/include], which
    the first record put on the browse list, is still there and is not an
    include path of the second record. *)
Lemma browse_paths_outlive_their_record :
  ~ browse_paths_within_include_paths example_env second_record after_first_query.
Proof.
  intros H.
  specialize (H {| standard := "c++14"; intelliSenseMode := "gcc-x64";
                   includePath := [Some "/opt/b/include"; Some "/usr/include/c++/9";
                                   Some "/usr/local/include"];
                   defines := []; compilerPath := "/usr/bin/clang++" |}).
  specialize (H ltac:(vm_compute; reflexivity) (Some "/usr/include")).
  assert (Hin : Some "/usr/include" ∈
                system_include_browse_paths
                  (state_of (getSourceFileConfiguration example_env second_record
                               after_first_query))).
  { vm_compute. apply list_elem_of_here. }
  specialize (H Hin). cbn in H.
  repeat (apply elem_of_cons in H as [H|H]; [discriminate H|]).
  by apply elem_of_nil in H.
Qed.

Lemma resolveWhenEmpty_returns env commands w :
  defaults_available env commands w ->
  result_of (resolveWhenEmpty env (hd "" (tokens commands))
               (tl (tokens commands)) w) = inr tt.
Proof.
  intros Hav. rewrite resolveWhenEmpty_run.
  destruct (default_system_include_paths w) eqn:Hd; [|done].
  by destruct Hav.
Qed.

(** C10, as the code has it.  When the scan ends on an [-isystem] that it
    reads as an option, it takes [args[i]] one past the end of the tokens,
    which is [undefined], and pushes it after the explicit paths.  The test
    of the workspace folders then raises a [TypeError] on it, so the list
    with [undefined] is returned only when the folders are an empty list.
    When every [-isystem] read as an option has a path after it and the
    folders are a list, the query returns and no include path is
    [undefined].  While no workspace is open the folders are [undefined]:
    the query then raises a [TypeError] on the first path that the options
    name, dangling or not, and returns only when they name none. *)
Theorem dangling_isystem_reads_past_the_end
    (env : Env) (commands : CompileCommand) (w : CatkinWorkspace) :
  defaults_available env commands w ->
  let o := getSourceFileConfiguration env commands w in
  match workspaceFolders env with
  | Some folders =>
      if danglingIsystem (tl (tokens commands)) then
        match folders with
        | [] =>
            exists cfg before,
              result_of o = inr cfg
              /\ includePath cfg
                 = before ++ [None]
                   ++ map Some (default_system_include_paths (state_of o))
              /\ None ∉ before
        | _ :: _ => result_of o = inl TypeError
        end
      else
        exists cfg, result_of o = inr cfg /\ None ∉ includePath cfg
  | None =>
      match named_paths (tl (tokens commands)) with
      | [] => exists cfg, result_of o = inr cfg /\ None ∉ includePath cfg
      | _ :: _ => result_of o = inl TypeError
      end
  end.
Proof.
  intros Hav o. subst o. rewrite getSourceFileConfiguration_run. cbn zeta.
  rewrite (resolveWhenEmpty_returns _ _ _ Hav).
  set (pre := resolveWhenEmpty _ _ _ _).
  destruct (workspaceFolders env) as [folders|] eqn:Hfolders.
  2:{ pose proof (scanArgs_undefined_folders env _ (tl (tokens commands)) scan_start
                    (state_of pre) (le_n _) Hfolders) as Hscan.
      destruct (named_paths (tl (tokens commands))).
      - destruct Hscan as (s' & -> & Hinc). eexists. split; [done|].
        cbn. rewrite Hinc. cbn.
        intros (? & ? & ?)%list_elem_of_fmap. done.
      - by rewrite Hscan. }
  destruct (scanArgs_spec env _ (tl (tokens commands)) scan_start (state_of pre)
              (le_n _)) as (_ & added & Hst & Hres).
  rewrite Hfolders in Hres.
  set (o := scanArgs _ _ _ _) in *.
  destruct (danglingIsystem (tl (tokens commands))) eqn:Hd.
  - destruct (result_of o) as [e|s].
    + destruct Hres as (-> & [?|[_ Hf]]); [done|]. by destruct folders.
    + destruct Hres as (explicit & Hinc & _ & _ & Hdang).
      destruct (Hdang eq_refl) as ([= ->] & before & -> & Hb).
      eexists _, before. split; [done|]. cbn. rewrite Hinc. cbn.
      split; [by rewrite <- app_assoc|done].
  - destruct (result_of o) as [e|s].
    + by destruct Hres as (_ & [?|[? _]]).
    + destruct Hres as (explicit & Hinc & _ & Hno & _).
      eexists. split; [done|]. cbn. rewrite Hinc. cbn.
      intros [Hin|Hin]%elem_of_app; [by apply Hno|].
      apply list_elem_of_fmap in Hin as (? & ? & ?). done.
Qed.

Lemma dangling_isystem_reads_past_the_end_witness :
  defaults_available example_env dangling_isystem_record newWorkspace
  /\ result_of (getSourceFileConfiguration example_env dangling_isystem_record
                  newWorkspace) = inl TypeError.
Proof.
  assert (Hav : defaults_available example_env dangling_isystem_record newWorkspace).
  { right. vm_compute. reflexivity. }
  split; [exact Hav|].
  exact (dangling_isystem_reads_past_the_end example_env dangling_isystem_record
           newWorkspace Hav).
Defined.

(** C10 as stated fails when the last [-isystem] is itself the path of the
    [-isystem] before it: nothing is read past the end and every include
    path returned is a string. *)
Lemma trailing_isystem_may_be_a_path :
  ~ trailing_isystem_yields_undefined example_env doubled_isystem_record newWorkspace.
Proof.
  intros H. destruct (H ltac:(vm_compute; reflexivity)) as (cfg & Hres & Hin).
  vm_compute in Hres. injection Hres as <-. cbn in Hin.
  repeat (apply elem_of_cons in Hin as [Hin|Hin]; [discriminate Hin|]).
  by apply elem_of_nil in Hin.
Qed.

Lemma run_bind_step {A B} (m : M A) (k : A -> M B) w a w' :
  m w = (inr a, w', []) -> bind m k w = k a w'.
Proof.
  intros Hm. rewrite (run_bind_inr _ _ _ a) by by rewrite Hm.
  rewrite Hm. cbn. by destruct (k a w') as [[??]?].
Qed.

Section ExampleScenario.

Variable env : Env.
Hypothesis rooted_at_ws : workspaceFolders env = Some ["/ws"].

Lemma scan_example_record w :
  scanArgs env (tl (tokens example_record)) scan_start w =
  (inr {| includePaths := [Some "/ws/src/a/include"; Some "/usr/include"];
          scanned_defines := ["DEBUG=1"];
          new_system_path_found :=
            bool_decide (Some "/usr/include" ∉ system_include_browse_paths w) |},
   (if bool_decide (Some "/usr/include" ∉ system_include_browse_paths w)
    then set_system_include_browse_paths
           (fun paths => paths ++ [Some "/usr/include"]) w
    else w),
   []).
Proof.
  assert (Hin : isWorkspacePath env (Some "/ws/src/a/include") = inr true).
  { unfold isWorkspacePath. by rewrite rooted_at_ws. }
  assert (Hout : isWorkspacePath env (Some "/usr/include") = inr false).
  { unfold isWorkspacePath. by rewrite rooted_at_ws. }
  change (tl (tokens example_record))
    with ["-I/ws/src/a/include"; "-isystem"; "/usr/include"; "-DDEBUG=1"; "a.cpp"].
  cbn [scanArgs].
  change (startsWith "-I/ws/src/a/include" "-I") with true. cbv iota.
  change (slice 2 "-I/ws/src/a/include") with "/ws/src/a/include".
  rewrite (run_bind_step _ _ _ (pushPath (Some "/ws/src/a/include") false scan_start) w)
    by by rewrite addIncludePath_run, Hin.
  change (startsWith "-isystem" "-I") with false. cbv iota.
  rewrite decide_True by done.
  pose proof (addIncludePath_run env (Some "/usr/include")
                (pushPath (Some "/ws/src/a/include") false scan_start) w) as Hadd.
  rewrite Hout in Hadd.
  destruct (bool_decide (Some "/usr/include" ∉ system_include_browse_paths w)).
  - rewrite (run_bind_step _ _ _ _ _ Hadd).
    change (startsWith "-DDEBUG=1" "-I") with false. cbv iota.
    rewrite decide_False by done.
    change (startsWith "-DDEBUG=1" "-isystem=") with false.
    change (startsWith "-DDEBUG=1" "-D") with true. cbv iota.
    change (startsWith "a.cpp" "-I") with false. cbv iota.
    rewrite decide_False by done.
    reflexivity.
  - rewrite (run_bind_step _ _ _ _ _ Hadd).
    change (startsWith "-DDEBUG=1" "-I") with false. cbv iota.
    rewrite decide_False by done.
    change (startsWith "-DDEBUG=1" "-isystem=") with false.
    change (startsWith "-DDEBUG=1" "-D") with true. cbv iota.
    change (startsWith "a.cpp" "-I") with false. cbv iota.
    rewrite decide_False by done.
    reflexivity.
Qed.

Lemma resolve_example_record w :
  default_system_include_paths w ≠ []
  \/ (exists stdout,
        execSync env "/usr/bin/g++ -xc++ -E -v /dev/null -o /dev/null 2>&1"
        = inl stdout) ->
  let pre := resolveWhenEmpty env "/usr/bin/g++" (tl (tokens example_record)) w in
  result_of pre = inr tt
  /\ system_include_browse_paths (state_of pre) = system_include_browse_paths w
  /\ (default_system_include_paths w ≠ [] -> state_of pre = w).
Proof.
  intros Hav pre. subst pre. split; [|split].
  - rewrite resolveWhenEmpty_run.
    destruct (default_system_include_paths w) eqn:Hd; [|done].
    destruct Hav as [?|[stdout Hexec]]; [done|].
    by rewrite (parseCompilerDefaults_generic_run env "/usr/bin/g++" _ w stdout).
  - apply resolveWhenEmpty_keeps_browse_paths.
  - intros Hne. rewrite resolveWhenEmpty_run.
    by destruct (default_system_include_paths w).
Qed.

End ExampleScenario.

(** C5, as the code has it.  In a workspace rooted at [/ws], when the
    defaults are cached or [/usr/bin/g++] answers the query for them, the
    query for the record returns the include paths [/ws/src/a/include],
    [/usr/include] followed by the defaults, the define [DEBUG=1] and the
    compiler [/usr/bin/g++]; it adds [/usr/include], if new, to the browse
    list and nothing else: the default paths go to the include paths only. *)
Theorem example_record_configuration (env : Env) (w : CatkinWorkspace) :
  workspaceFolders env = Some ["/ws"] ->
  (default_system_include_paths w ≠ []
   \/ exists stdout,
        execSync env "/usr/bin/g++ -xc++ -E -v /dev/null -o /dev/null 2>&1"
        = inl stdout) ->
  let o := getSourceFileConfiguration env example_record w in
  exists cfg,
    result_of o = inr cfg
    /\ includePath cfg
       = [Some "/ws/src/a/include"; Some "/usr/include"]
         ++ map Some (default_system_include_paths (state_of o))
    /\ defines cfg = ["DEBUG=1"]
    /\ compilerPath cfg = "/usr/bin/g++"
    /\ system_include_browse_paths (state_of o)
       = (if decide (Some "/usr/include" ∈ system_include_browse_paths w)
          then system_include_browse_paths w
          else system_include_browse_paths w ++ [Some "/usr/include"])
    /\ (default_system_include_paths w ≠ [] ->
        default_system_include_paths (state_of o) = default_system_include_paths w).
Proof.
  intros Hroot Hav o. subst o.
  rewrite getSourceFileConfiguration_run. cbn zeta.
  change (hd "" (tokens example_record)) with "/usr/bin/g++".
  destruct (resolve_example_record env w Hav) as (Hres & Hbrowse & Hsame).
  rewrite Hres. set (w1 := state_of (resolveWhenEmpty _ _ _ _)) in *.
  clearbody w1.
  rewrite (scan_example_record env Hroot).
  cbn [result_of state_of events_of fst snd includePaths scanned_defines
       includePath defines compilerPath].
  eexists. split; [done|]. split; [done|]. split; [done|]. split; [done|].
  rewrite Hbrowse. split.
  - destruct (decide (Some "/usr/include" ∈ system_include_browse_paths w)) as [Hin|Hin].
    + by rewrite bool_decide_false by auto.
    + rewrite bool_decide_true by done. cbn. by rewrite Hbrowse.
  - intros Hne. rewrite (Hsame Hne). by destruct (bool_decide _).
Qed.

Lemma example_record_configuration_witness :
  workspaceFolders example_env = Some ["/ws"]
  /\ (exists stdout,
        execSync example_env "/usr/bin/g++ -xc++ -E -v /dev/null -o /dev/null 2>&1"
        = inl stdout)
  /\ exists cfg,
       result_of (getSourceFileConfiguration example_env example_record newWorkspace)
         = inr cfg
       /\ includePath cfg = includePath example_configuration
       /\ system_include_browse_paths
            (state_of (getSourceFileConfiguration example_env example_record
                         newWorkspace))
          = [Some "/usr/include"].
Proof.
  assert (Hexec : exists stdout,
            execSync example_env "/usr/bin/g++ -xc++ -E -v /dev/null -o /dev/null 2>&1"
            = inl stdout) by (eexists; reflexivity).
  split; [reflexivity|]. split; [exact Hexec|].
  destruct (example_record_configuration example_env newWorkspace eq_refl
              (or_intror Hexec)) as (cfg & Hres & Hinc & _ & _ & Hbrowse & _).
  exists cfg. split; [exact Hres|]. split; [|exact Hbrowse].
  rewrite Hinc. vm_compute. reflexivity.
Defined.

(** C5 as stated fails on the browse list: [/usr/include/c++/9] is a
    default path outside the workspace, and the query does not put it
    there. *)
Lemma default_paths_stay_off_the_browse_list :
  ~ example_scenario_as_stated example_env newWorkspace.
Proof.
  intros H.
  destruct (H example_configuration ltac:(vm_compute; reflexivity)) as (_ & _ & Hb).
  destruct (Hb (Some "/usr/include/c++/9")) as [_ Hin].
  assert (Hno : Some "/usr/include/c++/9" ∉
                system_include_browse_paths
                  (state_of (getSourceFileConfiguration example_env example_record
                               newWorkspace))).
  { vm_compute. intros Hin'.
    repeat (apply elem_of_cons in Hin' as [Hin'|Hin']; [discriminate Hin'|]).
    by apply elem_of_nil in Hin'. }
  apply Hno, Hin. right. exists "/usr/include/c++/9".
  split; [done|]. split; [|vm_compute; reflexivity].
  vm_compute. apply list_elem_of_here.
Qed.

(** ** Frames of the store, the watch manager and the orchestrator *)

Lemma maintains_get_bind {B} I P (k : CatkinWorkspace -> M B) :
  (forall w, I w -> I (state_of (k w w)) /\ Forall P (events_of (k w w))) ->
  maintains I P (bind get k).
Proof. intros H w Hw. rewrite run_get_bind. by apply H. Qed.

Lemma maintains_modify_shielded I P f :
  shielded I ->
  (forall w, ignore_missing_db (f w) = ignore_missing_db w) ->
  (forall w, default_system_include_paths (f w) = default_system_include_paths w) ->
  maintains I P (modify f).
Proof. intros HI Hf Hd. apply maintains_modify. intros w. by apply HI. Qed.

Lemma forgetDatabase_frame db_file w :
  ignore_missing_db (forgetDatabase db_file w) = ignore_missing_db w
  /\ default_system_include_paths (forgetDatabase db_file w)
     = default_system_include_paths w.
Proof.
  unfold forgetDatabase.
  generalize (map_to_list (file_to_compile_commands w)). intros l.
  revert w. induction l as [|entry l IH]; intros w; [done|].
  cbn [foldl]. destruct (IH (forgetEntry db_file w entry)) as [-> ->].
  unfold forgetEntry. by destruct (decide _).
Qed.

Section StoreFrames.

Variable env : Env.
Variable I : CatkinWorkspace -> Prop.
Variable P : Event -> Prop.
Hypothesis I_shielded : shielded I.

Lemma mergeRecords_maintains db_file db_part change :
  maintains I P (mergeRecords db_file db_part change).
Proof.
  revert change. induction db_part as [|cmd rest IH]; intros change; cbn [mergeRecords].
  - maintain.
  - apply maintains_bind; [maintain|]. intros w.
    destruct (differs _ _); [|apply IH].
    apply maintains_bind; [by apply maintains_modify_shielded|intros _].
    apply maintains_bind; [by apply maintains_modify_shielded|intros _].
    apply IH.
Qed.

Lemma updateDatabase_maintains db_file :
  P build_commands_changed -> maintains I P (updateDatabase env db_file).
Proof.
  intros HP. unfold updateDatabase. destruct (readFile env db_file) as [raws|].
  - apply maintains_bind; [maintain|]. intros w.
    apply maintains_bind; [by apply maintains_modify_shielded|intros _].
    apply maintains_bind; [by apply maintains_modify_shielded|intros _].
    apply maintains_bind; [apply mergeRecords_maintains|intros change].
    maintain.
  - apply maintains_bind; [|maintain].
    apply maintains_modify_shielded; [done| |]; intros w;
      by destruct (forgetDatabase_frame db_file w).
Qed.

Lemma startWatchingAll_maintains entries :
  P build_commands_changed -> maintains I P (startWatchingAll env entries).
Proof.
  intros HP. induction entries as [|path rest IH]; cbn [startWatchingAll]; [maintain|].
  apply maintains_bind; [|by intros _].
  unfold startWatchingCompileCommandsFile, stopWatching.
  apply maintains_bind; [by apply updateDatabase_maintains|intros _].
  apply maintains_bind; [by apply maintains_modify_shielded|intros _].
  by apply maintains_modify_shielded.
Qed.

Lemma watchDatabases_maintains inp dir :
  P build_commands_changed -> P (WatchBuildDir dir) ->
  maintains I P (watchDatabases env inp dir).
Proof.
  intros HP HW. unfold watchDatabases. destruct (build_dir_exists inp); [|maintain].
  apply maintains_bind; [maintain|]. intros w.
  apply maintains_bind.
  { destruct (decide _); [|maintain].
    apply maintains_bind; [by apply maintains_modify_shielded|maintain]. }
  intros _. apply maintains_bind; [by apply startWatchingAll_maintains|maintain].
Qed.

Lemma loadPackages_maintains found : maintains I P (loadPackages found).
Proof.
  induction found as [|loaded rest IH]; cbn [loadPackages]; [maintain|].
  apply maintains_bind; [|by intros _].
  destruct loaded; [by apply maintains_modify_shielded|maintain].
Qed.

Lemma buildDependencyGraph_maintains : maintains I P buildDependencyGraph.
Proof. by apply maintains_modify_shielded. Qed.



(** After the scan, what [reload] goes on to do. *)
Lemma reload_rest_maintains found (loaded : bool) :
  P onWorkspaceInitialized ->
  maintains I P
    (if loaded then
       loadPackages found ;; buildDependencyGraph ;;
       modify (set_is_initialized (fun _ => true)) ;; emit onWorkspaceInitialized
     else ret tt).
Proof.
  intros HP. destruct loaded; [|maintain].
  apply maintains_bind; [apply loadPackages_maintains|intros _].
  apply maintains_bind; [apply buildDependencyGraph_maintains|intros _].
  apply maintains_bind; [by apply maintains_modify_shielded|maintain].
Qed.

End StoreFrames.

(** ** The missing-database dialogs *)

Lemma shielded_ignoring : shielded ignoring.
Proof. intros w w' Hf _. unfold ignoring. by rewrite Hf. Qed.

Lemma scan_suppressed env inp :
  maintains ignoring no_warning (loadAndWatchCompileCommands env inp).
Proof.
  unfold loadAndWatchCompileCommands.
  apply maintains_bind; [apply maintains_lift|].
  intros [dir|]; [|by apply maintains_emit].
  apply maintains_bind.
  { by apply watchDatabases_maintains; [apply shielded_ignoring|..]. }
  intros db_found. apply maintains_get_bind. intros w Hw.
  rewrite Hw, andb_false_r. by split.
Qed.

Lemma reload_suppressed env inp :
  maintains ignoring no_warning (reload env inp).
Proof.
  unfold reload.
  apply maintains_bind; [by apply maintains_modify|intros _].
  apply maintains_bind; [by apply maintains_emit|intros _].
  apply maintains_bind.
  { apply maintains_try_catch.
    - apply maintains_bind; [apply scan_suppressed|intros _; apply maintains_ret].
    - intros e. apply maintains_bind; [by apply maintains_emit|].
      intros _. apply maintains_ret. }
  intros loaded. by apply reload_rest_maintains; [apply shielded_ignoring|].
Qed.

Lemma query_frame env commands w :
  ignore_missing_db (state_of (getSourceFileConfiguration env commands w))
  = ignore_missing_db w
  /\ Forall no_warning (events_of (getSourceFileConfiguration env commands w)).
Proof.
  rewrite getSourceFileConfiguration_run. cbn zeta.
  assert (Hpre : maintains (fun w' => ignore_missing_db w' = ignore_missing_db w)
                   no_warning
                   (resolveWhenEmpty env (hd "" (tokens commands))
                      (tl (tokens commands)))).
  { unfold resolveWhenEmpty. apply maintains_bind; [maintain|]. intros w'.
    destruct (decide _); [|maintain].
    by apply parseCompilerDefaults_maintains. }
  destruct (Hpre w eq_refl) as [Hflag Hev].
  set (pre := resolveWhenEmpty _ _ _ _) in *. clearbody pre.
  destruct (result_of pre) as [e|[]]; [done|].
  destruct (scanArgs_spec env _ (tl (tokens commands)) scan_start (state_of pre)
              (le_n _)) as (Hnone & added & Hst & _).
  set (o := scanArgs _ _ _ _) in *. clearbody o.
  assert (Hflag' : ignore_missing_db (state_of o) = ignore_missing_db w)
    by by rewrite Hst.
  destruct (result_of o) as [e|s]; cbn [state_of events_of fst snd];
    rewrite Hnone; (split; [done|]).
  - by rewrite app_nil_r.
  - apply Forall_app. split; [done|]. cbn.
    destruct (new_system_path_found s); by repeat constructor.
Qed.

Lemma call_suppressed c w :
  ignoring w -> ignoring (run_call c w).1 /\ Forall no_warning (run_call c w).2.
Proof.
  intros Hw. destruct c as [env inp|env inp|env db_file|env commands]; cbn.
  - by apply reload_suppressed.
  - by apply scan_suppressed.
  - by apply updateDatabase_maintains; [apply shielded_ignoring|..].
  - destruct (query_frame env commands w) as [Hf Hev].
    split; [|done]. unfold ignoring. by rewrite Hf.
Qed.

Lemma calls_suppressed calls : forall w,
  ignoring w -> ignoring (run_calls calls w).1 /\ Forall no_warning (run_calls calls w).2.
Proof.
  induction calls as [|c rest IH]; intros w Hw; [by split|].
  cbn [run_calls]. destruct (call_suppressed c w Hw) as [Hw' Hev].
  destruct (run_call c w) as [w' ev]. cbn in Hw', Hev.
  destruct (IH w' Hw') as [Hw'' Hev'].
  destruct (run_calls rest w') as [w'' ev']. cbn in *.
  split; [done|]. by apply Forall_app.
Qed.

(** A scan that finds no database and is answered with the ignore item
    sets the flag. *)
Lemma ignore_is_remembered env inp w :
  database_missing inp -> selects_ignore inp ->
  ignoring (state_of (loadAndWatchCompileCommands env inp w)).
Proof.
  intros [[dir Hdir] Hmiss] Hsel.
  destruct (ignore_missing_db w) eqn:Hflag.
  { by apply scan_suppressed. }
  unfold loadAndWatchCompileCommands. rewrite Hdir, run_lift_bind.
  assert (Hwatch : result_of (watchDatabases env inp dir w) = inr false
                   /\ ignore_missing_db (state_of (watchDatabases env inp dir w)) = false).
  { unfold watchDatabases. destruct Hmiss as [->| ->]; [done|].
    destruct (build_dir_exists inp); [|done].
    rewrite run_get_bind. by destruct (decide _). }
  destruct Hwatch as [Hres Hflag1].
  rewrite (run_bind_inr _ _ _ false Hres).
  set (w1 := state_of (watchDatabases env inp dir w)) in *. clearbody w1.
  cbn [state_of fst snd].
  rewrite run_get_bind, Hflag1. cbn [negb andb].
  unfold askAboutMissingDatabase, askTriggerBuild, ignoring.
  destruct Hsel as [[-> ->]| ->]; [done|].
  destruct (negb _); [destruct (export_answer inp) as [[]|]|]; done.
Qed.

(** C9, as the code has it.  When a scan that finds no compile database is
    answered with the ignore item, the flag [ignore_missing_db] is set, and
    from then on no call into the workspace, a full reload included, shows
    a missing-database dialog or clears the flag. *)
Theorem ignore_outlasts_every_reload
    (env : Env) (inp : ScanInput) (w : CatkinWorkspace) (calls : list Call) :
  database_missing inp -> selects_ignore inp ->
  let w1 := state_of (loadAndWatchCompileCommands env inp w) in
  ignoring w1
  /\ ignoring (run_calls calls w1).1
  /\ Forall no_warning (run_calls calls w1).2.
Proof.
  intros Hmiss Hsel w1.
  assert (Hw1 : ignoring w1) by by apply ignore_is_remembered.
  split; [done|]. by apply calls_suppressed.
Qed.

Lemma ignore_outlasts_every_reload_witness :
  database_missing unbuilt_scan
  /\ selects_ignore unbuilt_scan
  /\ ignoring after_ignore
  /\ ignoring (run_calls [CallReload example_env unbuilt_reload;
                          CallScan example_env unbuilt_scan] after_ignore).1
  /\ Forall no_warning
       (run_calls [CallReload example_env unbuilt_reload;
                   CallScan example_env unbuilt_scan] after_ignore).2.
Proof.
  assert (Hmiss : database_missing unbuilt_scan).
  { split; [by eexists|by left]. }
  assert (Hsel : selects_ignore unbuilt_scan).
  { left. split; reflexivity. }
  split; [exact Hmiss|]. split; [exact Hsel|].
  exact (ignore_outlasts_every_reload example_env unbuilt_scan newWorkspace
           [CallReload example_env unbuilt_reload; CallScan example_env unbuilt_scan]
           Hmiss Hsel).
Defined.

(** C9 as stated fails on its second half: after the ignore item was
    picked, a full reload completes, and the scan that follows still finds
    no database and shows nothing. *)
Lemma reload_keeps_suppression :
  ~ reload_lifts_suppression example_env unbuilt_reload after_ignore.
Proof.
  intros H.
  destruct (H ltac:(vm_compute; reflexivity) ltac:(vm_compute; reflexivity)
              unbuilt_scan) as (e & Hin & _).
  { split; [by eexists|by left]. }
  vm_compute in Hin. by apply elem_of_nil in Hin.
Qed.

(** ** The cache of the defaults *)








(** ** The compile-database store *)

Lemma forget_fold db_file (l : list (string * string)) : forall w,
  let w' := foldl (forgetEntry db_file) w l in
  (forall f,
     file_to_compile_commands w' !! f
     = if decide ((f, db_file) ∈ l) then None else file_to_compile_commands w !! f)
  /\ (forall f,
        file_to_command w' !! f
        = if decide ((f, db_file) ∈ l) then None else file_to_command w !! f).
Proof.
  induction l as [|[k d] l IH]; intros w; cbn zeta.
  { split; intros f; destruct (decide _) as [Hin|_]; try done;
      by apply elem_of_nil in Hin. }
  cbn [foldl]. destruct (IH (forgetEntry db_file w (k, d))) as [IH1 IH2].
  split; intros f; [rewrite IH1|rewrite IH2]; clear IH1 IH2 IH;
    unfold forgetEntry; cbn [fst snd];
    destruct (decide ((f, db_file) ∈ l)) as [Hin|Hin].
  1,3: rewrite decide_True by (by apply list_elem_of_further); done.
  all: destruct (decide (d = db_file)) as [->|Hd]; cbn.
  - destruct (decide (f = k)) as [->|Hf].
    + rewrite lookup_delete_eq. by rewrite decide_True by apply list_elem_of_here.
    + rewrite lookup_delete_ne by done.
      rewrite decide_False; [done|].
      intros [Heq|?]%elem_of_cons; [|done]. by injection Heq.
  - rewrite decide_False; [done|].
    intros [Heq|?]%elem_of_cons; [|done]. by injection Heq.
  - destruct (decide (f = k)) as [->|Hf].
    + rewrite lookup_delete_eq. by rewrite decide_True by apply list_elem_of_here.
    + rewrite lookup_delete_ne by done.
      rewrite decide_False; [done|].
      intros [Heq|?]%elem_of_cons; [|done]. by injection Heq.
  - rewrite decide_False; [done|].
    intros [Heq|?]%elem_of_cons; [|done]. by injection Heq.
Qed.

(** The records of a database are forgotten, all of them and no other. *)
Lemma forgetDatabase_lookup db_file w :
  (forall f,
     file_to_compile_commands (forgetDatabase db_file w) !! f
     = if decide (file_to_compile_commands w !! f = Some db_file)
       then None else file_to_compile_commands w !! f)
  /\ (forall f,
        file_to_command (forgetDatabase db_file w) !! f
        = if decide (file_to_compile_commands w !! f = Some db_file)
          then None else file_to_command w !! f).
Proof.
  destruct (forget_fold db_file (map_to_list (file_to_compile_commands w)) w)
    as [H1 H2].
  unfold forgetDatabase.
  split; intros f; [rewrite (H1 f)|rewrite (H2 f)];
    destruct (decide ((f, db_file) ∈ map_to_list (file_to_compile_commands w)))
      as [Hin|Hin];
    destruct (decide (file_to_compile_commands w !! f = Some db_file)) as [Hl|Hl];
    try done.
  1,3: by apply elem_of_map_to_list in Hin.
  all: by apply elem_of_map_to_list in Hl.
Qed.

(** C3, as the code has it.  For a file that no longer exists,
    [updateDatabase] returns true, forgets the records whose origin is that
    file and no other record, and dispatches the signal of the build
    commands once, whether or not it forgot a record. *)
Theorem vanished_database_is_forgotten
    (env : Env) (db_file : string) (w : CatkinWorkspace) :
  readFile env db_file = None ->
  let o := updateDatabase env db_file w in
  result_of o = inr true
  /\ events_of o = [build_commands_changed]
  /\ (forall f,
        file_to_compile_commands (state_of o) !! f
        = if decide (file_to_compile_commands w !! f = Some db_file)
          then None else file_to_compile_commands w !! f)
  /\ (forall f,
        file_to_command (state_of o) !! f
        = if decide (file_to_compile_commands w !! f = Some db_file)
          then None else file_to_command w !! f).
Proof.
  intros Hgone o. subst o. unfold updateDatabase. rewrite Hgone.
  rewrite run_modify_bind, run_emit_bind. cbn.
  split; [done|]. split; [done|]. apply forgetDatabase_lookup.
Qed.

Lemma vanished_database_is_forgotten_witness :
  readFile example_env absent_database = None
  /\ events_of (updateDatabase example_env absent_database newWorkspace)
     = [build_commands_changed]
  /\ result_of (updateDatabase example_env absent_database newWorkspace) = inr true.
Proof.
  split; [reflexivity|].
  destruct (vanished_database_is_forgotten example_env absent_database newWorkspace
              eq_refl) as (Hres & Hev & _).
  split; [exact Hev|exact Hres].
Defined.

(** C3 as stated fails on the signal: with no record at all in the
    workspace, the update for a vanished file still dispatches it. *)
Lemma vanished_file_signals_without_removal :
  ~ vanished_file_as_stated example_env absent_database newWorkspace.
Proof.
  intros H. destruct (H eq_refl) as (_ & _ & [Hsig _]).
  destruct Hsig as [f Hf]; [vm_compute; apply list_elem_of_here|].
  cbn in Hf. by rewrite lookup_empty in Hf.
Qed.

Lemma parseRecords_oid raws : forall first_oid c,
  c ∈ parseRecords first_oid raws ->
  first_oid <= oid c < first_oid + length raws.
Proof.
  induction raws as [|r rest IH]; intros first_oid c Hin; cbn in Hin.
  { by apply elem_of_nil in Hin. }
  apply elem_of_cons in Hin as [->|Hin]; cbn; [lia|].
  apply IH in Hin. lia.
Qed.

(** The merge loop returns, emits nothing, leaves the heap counter alone and
    stores nothing but records of [db_part]; a change seen once stays seen. *)
Lemma mergeRecords_facts db_file db_part : forall change w,
  let o := mergeRecords db_file db_part change w in
  (exists b, result_of o = inr b /\ (change = true -> b = true))
  /\ events_of o = []
  /\ next_oid (state_of o) = next_oid w
  /\ (forall f c, file_to_command (state_of o) !! f = Some c ->
                  file_to_command w !! f = Some c \/ c ∈ db_part).
Proof.
  induction db_part as [|cmd rest IH]; intros change w; cbn zeta.
  { cbn. split; [by exists change|]. split; [done|]. split; [done|]. by left. }
  cbn [mergeRecords]. rewrite run_get_bind.
  destruct (differs _ _).
  - rewrite !run_modify_bind.
    destruct (IH true (set_file_to_compile_commands <[file cmd:=db_file]>
                         (set_file_to_command <[file cmd:=cmd]> w)))
      as ((b & Hres & Hb) & Hev & Hoid & Hstored).
    split; [exists b; split; [done|]; intros _; by apply Hb|].
    split; [done|]. split; [done|].
    intros f c Hf. destruct (Hstored f c Hf) as [Hold|Hin].
    + cbn in Hold. destruct (decide (file cmd = f)) as [<-|Hne].
      * rewrite lookup_insert_eq in Hold. injection Hold as <-.
        right. apply list_elem_of_here.
      * rewrite lookup_insert_ne in Hold by done. by left.
    + right. by apply list_elem_of_further.
  - destruct (IH change w) as ((b & Hres & Hb) & Hev & Hoid & Hstored).
    split; [by exists b|]. split; [done|]. split; [done|].
    intros f c Hf. destruct (Hstored f c Hf) as [?|?]; [by left|].
    right. by apply list_elem_of_further.
Qed.

(** An update from a database with at least one record always reports a
    change: the first record it reads is an object the heap has just handed
    out, so no stored record is that object. *)
Lemma updateDatabase_fresh_records env db_file w r raws :
  heap_ok w -> readFile env db_file = Some (r :: raws) ->
  let o := updateDatabase env db_file w in
  result_of o = inr true
  /\ events_of o = [build_commands_changed]
  /\ heap_ok (state_of o).
Proof.
  intros Hheap Hfile o. subst o. unfold updateDatabase. rewrite Hfile.
  rewrite run_get_bind, !run_modify_bind.
  set (w0 := set_compile_commands _ (set_next_oid _ w)).
  set (db_part := parseRecords (next_oid w) (r :: raws)).
  destruct (mergeRecords_facts db_file db_part false w0)
    as (_ & Hev & Hoid & Hstored).
  assert (Hchange : result_of (mergeRecords db_file db_part false w0) = inr true).
  { subst db_part. cbn [parseRecords mergeRecords]. rewrite run_get_bind.
    assert (Hdiff : differs (file_to_command w0 !! raw_file r)
                      {| oid := next_oid w; file := raw_file r;
                         command := raw_command r |} = true).
    { unfold differs. destruct (file_to_command w0 !! raw_file r) as [c|] eqn:Hc;
        [|done].
      apply bool_decide_eq_true. cbn. apply Hheap in Hc. lia. }
    cbn [file]. rewrite Hdiff, !run_modify_bind.
    match goal with
    | |- result_of (mergeRecords _ ?part true ?w1) = _ =>
        destruct (mergeRecords_facts db_file part true w1)
          as ((b & Hres & Hb) & _)
    end.
    by rewrite Hres, Hb. }
  rewrite (run_bind_inr _ _ _ true Hchange).
  set (merged := mergeRecords db_file db_part false w0) in *.
  assert (Hnext : next_oid w0 = next_oid w + length (r :: raws)) by done.
  assert (Hold : forall f c, file_to_command w0 !! f = Some c -> oid c < next_oid w)
    by (intros f c Hf; by apply (Hheap f c)).
  clearbody merged. clearbody w0.
  cbn [result_of state_of events_of fst snd]. rewrite Hev.
  split; [done|]. split; [done|].
  intros f c Hf. rewrite run_emit_bind in Hf |- *. cbn in Hf |- *.
  rewrite Hoid, Hnext.
  destruct (Hstored f c Hf) as [Hstale|Hin].
  - apply Hold in Hstale. lia.
  - apply parseRecords_oid in Hin. lia.
Qed.

(** C1, where the code departs from it.  When a database holds at least one
    record and is read twice without a change on disk, the second update
    also returns true and dispatches the signal again: the stored record and
    the record just read are two objects, and [!==] tells them apart. *)
Theorem unchanged_database_signals_again
    (env : Env) (db_file : string) (w : CatkinWorkspace)
    (r : RawCommand) (raws : list RawCommand) :
  heap_ok w -> readFile env db_file = Some (r :: raws) ->
  let first := updateDatabase env db_file w in
  let second := updateDatabase env db_file (state_of first) in
  result_of second = inr true
  /\ events_of second = [build_commands_changed].
Proof.
  intros Hheap Hfile first second. subst first second.
  destruct (updateDatabase_fresh_records env db_file w r raws Hheap Hfile)
    as (_ & _ & Hheap1).
  destruct (updateDatabase_fresh_records env db_file _ r raws Hheap1 Hfile)
    as (Hres & Hev & _).
  by split.
Qed.

Lemma unchanged_database_signals_again_witness :
  heap_ok newWorkspace
  /\ readFile example_env example_database
     = Some [ {| raw_file := "/ws/src/a/a.cpp";
                 raw_command := command example_record |} ]
  /\ result_of (updateDatabase example_env example_database
                  (state_of (updateDatabase example_env example_database
                               newWorkspace))) = inr true
  /\ events_of (updateDatabase example_env example_database
                  (state_of (updateDatabase example_env example_database
                               newWorkspace))) = [build_commands_changed].
Proof.
  assert (Hheap : heap_ok newWorkspace).
  { intros f c Hf. cbn in Hf. by rewrite lookup_empty in Hf. }
  split; [exact Hheap|]. split; [reflexivity|].
  exact (unchanged_database_signals_again example_env example_database newWorkspace
           _ [] Hheap eq_refl).
Defined.

(** ** The traversal of the dependees *)

Section DependeesFacts.

Variable pkgs : list (string * CatkinPackage).
Variable async_filter : CatkinPackage -> bool.

Lemma iterateLoop_nil fuel checked visited :
  iterateLoop pkgs async_filter fuel checked [] visited = Some (false, visited).
Proof. by destruct fuel. Qed.

Lemma pending_mono n checked :
  pending pkgs ({[n]} ∪ checked) <= pending pkgs checked.
Proof.
  unfold pending. induction pkgs as [|[k p] rest IH]; cbn; [done|].
  destruct (decide (k ∈ {[n]} ∪ checked)) as [Hin|Hin];
    destruct (decide (k ∈ checked)) as [Hc|Hc]; try lia.
  exfalso. apply Hin. set_solver.
Qed.

(** Checking a package takes its dependees out of what is pending. *)
Lemma pending_checked n p checked :
  lookupPackage pkgs n = Some p -> n ∉ checked ->
  pending pkgs ({[n]} ∪ checked) + length (dependees p) <= pending pkgs checked.
Proof.
  intros Hp Hn. unfold pending.
  induction pkgs as [|[k q] rest IH]; cbn in *; [done|].
  destruct (decide (k = n)) as [->|Hk].
  - injection Hp as ->.
    rewrite decide_True by set_solver. rewrite decide_False by done.
    pose proof (pending_mono n checked) as Hm. unfold pending in Hm.
    clear IH.
    assert (Hrest : sum_list (map (fun kp : string * CatkinPackage =>
                      if decide (kp.1 ∈ {[n]} ∪ checked) then 0
                      else length (dependees kp.2)) rest)
                    <= sum_list (map (fun kp : string * CatkinPackage =>
                      if decide (kp.1 ∈ checked) then 0
                      else length (dependees kp.2)) rest)).
    { clear. induction rest as [|[k q] rest IH]; cbn; [done|].
      destruct (decide (k ∈ {[n]} ∪ checked)) as [Hin|Hin];
        destruct (decide (k ∈ checked)) as [Hc|Hc]; try lia.
      exfalso. apply Hin. set_solver. }
    lia.
  - specialize (IH Hp).
    destruct (decide (k ∈ {[n]} ∪ checked)) as [Hin|Hin];
      destruct (decide (k ∈ checked)) as [Hc|Hc]; try lia.
    exfalso. apply Hin. set_solver.
Qed.

(** The loop ends within the rounds that the queue and the pending
    dependees allow. *)
Lemma iterateLoop_total fuel : forall checked queue visited,
  length queue + pending pkgs checked <= fuel ->
  exists b v, iterateLoop pkgs async_filter fuel checked queue visited = Some (b, v).
Proof.
  induction fuel as [|fuel IH]; intros checked queue visited Hfuel.
  { destruct queue; [by eexists _, _|cbn in Hfuel; lia]. }
  destruct queue as [|n queue]; [by eexists _, _|].
  cbn [iterateLoop]. cbn in Hfuel.
  destruct (decide (n ∈ checked)) as [Hn|Hn]; [apply IH; lia|].
  destruct (lookupPackage pkgs n) as [p|] eqn:Hp.
  - destruct (async_filter p); [by eexists _, _|].
    apply IH. rewrite length_app.
    pose proof (pending_checked n p checked Hp Hn). lia.
  - apply IH. pose proof (pending_mono n checked). lia.
Qed.

(** What the loop hands to the callback: names not checked before, each
    once and each the key of a package; it stops on the first package the
    callback accepts. *)
Lemma iterateLoop_visits fuel : forall checked queue visited b v,
  iterateLoop pkgs async_filter fuel checked queue visited = Some (b, v) ->
  exists new,
    v = visited ++ new
    /\ NoDup new
    /\ (forall n, n ∈ new -> n ∉ checked)
    /\ if b then
         exists before n p,
           new = before ++ [n]
           /\ lookupPackage pkgs n = Some p /\ async_filter p = true
           /\ forall m, m ∈ before ->
                exists q, lookupPackage pkgs m = Some q /\ async_filter q = false
       else
         forall m, m ∈ new ->
           exists q, lookupPackage pkgs m = Some q /\ async_filter q = false.
Proof.
  assert (Hnil : forall (checked : gset string) (visited : list string),
    exists new : list string,
      visited = visited ++ new /\ NoDup new
      /\ (forall n, n ∈ new -> n ∉ checked)
      /\ forall m, m ∈ new ->
           exists q, lookupPackage pkgs m = Some q /\ async_filter q = false).
  { intros checked visited. exists []. rewrite app_nil_r.
    split; [done|]. split; [apply NoDup_nil_2|].
    split; intros ? Hin; by apply elem_of_nil in Hin. }
  induction fuel as [|fuel IH]; intros checked queue visited b v Hrun.
  { destruct queue; [|done]. injection Hrun as <- <-. apply Hnil. }
  destruct queue as [|n queue].
  { injection Hrun as <- <-. apply Hnil. }
  cbn [iterateLoop] in Hrun.
  destruct (decide (n ∈ checked)) as [Hn|Hn].
  { apply (IH _ _ _ _ _ Hrun). }
  destruct (lookupPackage pkgs n) as [p|] eqn:Hp.
  - destruct (async_filter p) eqn:Hf.
    + injection Hrun as <- <-. exists [n].
      split; [done|]. split; [apply NoDup_singleton|].
      split; [by intros m ->%list_elem_of_singleton|].
      exists [], n, p. split; [done|]. split; [done|]. split; [done|].
      intros m Hm. by apply elem_of_nil in Hm.
    + destruct (IH _ _ _ _ _ Hrun) as (new & -> & Hnd & Hfresh & Hb).
      exists (n :: new). rewrite <- app_assoc. split; [done|].
      assert (Hnew : n ∉ new).
      { intros Hin. apply Hfresh in Hin. apply Hin.
        apply elem_of_union. left. by apply elem_of_singleton. }
      split; [by apply NoDup_cons|].
      split.
      { intros m [->|Hm]%elem_of_cons; [done|].
        apply Hfresh in Hm. intros Hc. apply Hm.
        apply elem_of_union. by right. }
      destruct b.
      * destruct Hb as (before & last & q & -> & Hq & Hfq & Hbefore).
        exists (n :: before), last, q. split; [done|]. split; [done|].
        split; [done|].
        intros m [->|Hm]%elem_of_cons; [by exists p|by apply Hbefore].
      * intros m [->|Hm]%elem_of_cons; [by exists p|by apply Hb].
  - destruct (IH _ _ _ _ _ Hrun) as (new & -> & Hnd & Hfresh & Hb).
    exists new. split; [done|]. split; [done|]. split; [|done].
    intros m Hm. apply Hfresh in Hm. intros Hc. apply Hm.
    apply elem_of_union. by right.
Qed.

(** A name that is no key is skipped, and is marked as checked. *)
Lemma unknown_name_is_skipped fuel checked n queue visited :
  n ∉ checked -> lookupPackage pkgs n = None ->
  iterateLoop pkgs async_filter (S fuel) checked (n :: queue) visited
  = iterateLoop pkgs async_filter fuel ({[n]} ∪ checked) queue visited.
Proof. intros Hn Hp. cbn [iterateLoop]. by rewrite decide_False, Hp by done. Qed.

Variable direct : list string.

(** The loop hands over nothing but names a walk from [direct] reaches. *)
Lemma iterateLoop_reaches fuel : forall checked queue visited b v,
  (forall n, n ∈ queue -> reaches pkgs direct n) ->
  (forall n, n ∈ visited -> reaches pkgs direct n) ->
  iterateLoop pkgs async_filter fuel checked queue visited = Some (b, v) ->
  forall n, n ∈ v -> reaches pkgs direct n.
Proof.
  induction fuel as [|fuel IH]; intros checked queue visited b v Hq Hv Hrun.
  { destruct queue; [|done]. by injection Hrun as <- <-. }
  destruct queue as [|n queue]; [by injection Hrun as <- <-|].
  cbn [iterateLoop] in Hrun.
  assert (Hn : reaches pkgs direct n) by apply Hq, list_elem_of_here.
  assert (Hq' : forall m, m ∈ queue -> reaches pkgs direct m).
  { intros m Hm. by apply Hq, list_elem_of_further. }
  assert (Hv' : forall m, m ∈ visited ++ [n] -> reaches pkgs direct m).
  { intros m [Hm| ->%list_elem_of_singleton]%elem_of_app; [by apply Hv|done]. }
  destruct (decide (n ∈ checked)); [by apply (IH _ _ _ _ _ Hq' Hv Hrun)|].
  destruct (lookupPackage pkgs n) as [p|] eqn:Hp;
    [|by apply (IH _ _ _ _ _ Hq' Hv Hrun)].
  destruct (async_filter p); [by injection Hrun as <- <-|].
  refine (IH _ _ _ _ _ _ Hv' Hrun).
  intros m [Hm|Hm]%elem_of_app; [by apply Hq'|].
  by apply (reaches_step pkgs direct n p m).
Qed.

(** When no package is accepted, the loop hands over every key that a
    walk from [direct] reaches. *)
Lemma iterateLoop_complete fuel : forall checked queue visited v,
  (forall n, n ∈ direct -> n ∈ checked \/ n ∈ queue) ->
  (forall n p m, n ∈ checked -> lookupPackage pkgs n = Some p ->
                 m ∈ dependees p -> m ∈ checked \/ m ∈ queue) ->
  (forall n, n ∈ checked -> is_Some (lookupPackage pkgs n) -> n ∈ visited) ->
  iterateLoop pkgs async_filter fuel checked queue visited = Some (false, v) ->
  forall n, reaches pkgs direct n -> is_Some (lookupPackage pkgs n) -> n ∈ v.
Proof.
  assert (Hdone : forall (checked : gset string) (visited : list string),
    (forall n, n ∈ direct -> n ∈ checked \/ n ∈ @nil string) ->
    (forall n p m, n ∈ checked -> lookupPackage pkgs n = Some p ->
                   m ∈ dependees p -> m ∈ checked \/ m ∈ @nil string) ->
    (forall n, n ∈ checked -> is_Some (lookupPackage pkgs n) -> n ∈ visited) ->
    forall n, reaches pkgs direct n -> is_Some (lookupPackage pkgs n) -> n ∈ visited).
  { intros checked visited Hd Hc Hv n Hn Hsome. apply Hv; [|done].
    clear Hsome. induction Hn as [n Hn|n p m _ IH Hp Hm].
    - destruct (Hd n Hn) as [?|Hin]; [done|by apply elem_of_nil in Hin].
    - destruct (Hc n p m IH Hp Hm) as [?|Hin]; [done|by apply elem_of_nil in Hin]. }
  induction fuel as [|fuel IH]; intros checked queue visited v Hd Hc Hv Hrun.
  { destruct queue; [|done]. injection Hrun as <-. by apply (Hdone checked). }
  destruct queue as [|n queue].
  { injection Hrun as <-. by apply (Hdone checked). }
  cbn [iterateLoop] in Hrun.
  destruct (decide (n ∈ checked)) as [Hn|Hn].
  { refine (IH _ _ _ _ _ _ Hv Hrun).
    - intros m Hm. destruct (Hd m Hm) as [?|[->|?]%elem_of_cons]; auto.
    - intros m p k Hm Hp Hk.
      destruct (Hc m p k Hm Hp Hk) as [?|[->|?]%elem_of_cons]; auto. }
  assert (Hin : forall m, m ∈ checked \/ m ∈ n :: queue ->
                          forall extra, m ∈ {[n]} ∪ checked \/ m ∈ queue ++ extra).
  { intros m [Hm|[->|Hm]%elem_of_cons] extra.
    - left. apply elem_of_union. by right.
    - left. apply elem_of_union. left. by apply elem_of_singleton.
    - right. apply elem_of_app. by left. }
  destruct (lookupPackage pkgs n) as [p|] eqn:Hp.
  - destruct (async_filter p); [done|].
    refine (IH _ _ _ _ _ _ _ Hrun).
    + intros m Hm. by apply Hin, Hd.
    + intros m q k [->%elem_of_singleton|Hm]%elem_of_union Hq Hk.
      * rewrite Hp in Hq. injection Hq as <-. right. apply elem_of_app. by right.
      * by apply Hin, (Hc m q k).
    + intros m [->%elem_of_singleton|Hm]%elem_of_union Hsome.
      * apply elem_of_app. right. apply list_elem_of_here.
      * apply elem_of_app. left. by apply Hv.
  - refine (IH _ _ _ _ _ _ _ Hrun).
    + intros m Hm. destruct (Hin m (Hd m Hm) []) as [?|Hq]; [by left|].
      right. by rewrite app_nil_r in Hq.
    + intros m q k [->%elem_of_singleton|Hm]%elem_of_union Hq Hk.
      * by rewrite Hp in Hq.
      * destruct (Hin k (Hc m q k Hm Hq Hk) []) as [?|Hq']; [by left|].
        right. by rewrite app_nil_r in Hq'.
    + intros m [->%elem_of_singleton|Hm]%elem_of_union Hsome.
      * rewrite Hp in Hsome. by destruct Hsome.
      * by apply Hv.
Qed.

(** The queue is first in, first out: the loop hands over the keys in the
    order in which they first enter the queue, which is fed with the names
    it starts with and then with the dependees of every package handed over
    and not accepted. *)
Lemma iterateLoop_fifo fuel : forall checked queue visited b v,
  iterateLoop pkgs async_filter fuel checked queue visited = Some (b, v) ->
  exists new rest,
    v = visited ++ new
    /\ (b = true -> new ≠ [])
    /\ first_keys pkgs checked
         (queue ++ flat_map (queued_for pkgs) (if b then removelast new else new))
       = new ++ rest
    /\ (b = false -> rest = []).
Proof.
  induction fuel as [|fuel IH]; intros checked queue visited b v Hrun.
  { destruct queue; [|done]. injection Hrun as <- <-.
    exists [], []. by rewrite app_nil_r. }
  destruct queue as [|n queue].
  { injection Hrun as <- <-. exists [], []. by rewrite app_nil_r. }
  cbn [iterateLoop] in Hrun. cbn [app first_keys].
  destruct (decide (n ∈ checked)) as [Hn|Hn]; [by apply IH|].
  destruct (lookupPackage pkgs n) as [p|] eqn:Hp; [|by apply IH].
  destruct (async_filter p).
  - injection Hrun as <- <-. exists [n], (first_keys pkgs ({[n]} ∪ checked) queue).
    split; [done|]. split; [done|]. cbn [removelast flat_map].
    by rewrite app_nil_r.
  - apply IH in Hrun as (new & rest & -> & Hne & Hfifo & Hrest).
    exists (n :: new), rest. split; [by rewrite <- app_assoc|].
    split; [done|]. split; [|done].
    assert (Hfed : flat_map (queued_for pkgs)
                     (if b then removelast (n :: new) else n :: new)
                   = dependees p
                     ++ flat_map (queued_for pkgs) (if b then removelast new else new)).
    { destruct b.
      - destruct new as [|m new]; [by destruct Hne|].
        cbn [removelast flat_map]. unfold queued_for at 1. by rewrite Hp.
      - cbn [flat_map]. unfold queued_for at 1. by rewrite Hp. }
    rewrite Hfed. rewrite <- app_assoc in Hfifo. by rewrite Hfifo.
Qed.

Lemma near_mono k k' n : k <= k' -> near pkgs direct k n -> near pkgs direct k' n.
Proof. intros Hk (j & Hj & Hs). exists j. split; [lia|done]. Qed.

Lemma near_next k n p m :
  near pkgs direct k n -> lookupPackage pkgs n = Some p -> m ∈ dependees p ->
  near pkgs direct (S k) m.
Proof.
  intros (j & Hj & Hs) Hp Hm. exists (S j). split; [lia|].
  by apply (steps_next pkgs direct j n p m).
Qed.

Lemma by_distance_snoc l y :
  by_distance pkgs direct l ->
  (forall x k, x ∈ l -> near pkgs direct k y -> near pkgs direct k x) ->
  by_distance pkgs direct (l ++ [y]).
Proof.
  intros Hl Hy before x mid y' after Heq.
  destruct after as [|z after _] using rev_ind.
  - replace (before ++ x :: mid ++ [y']) with ((before ++ x :: mid) ++ [y']) in Heq
      by by rewrite <- app_assoc.
    apply app_inj_tail in Heq as [-> ->].
    intros k. apply Hy. apply elem_of_app. right. apply list_elem_of_here.
  - replace (before ++ x :: mid ++ y' :: after ++ [z])
      with ((before ++ x :: mid ++ y' :: after) ++ [z]) in Heq
      by (rewrite <- app_assoc; cbn; by rewrite <- app_assoc).
    apply app_inj_tail in Heq as [-> _]. by apply (Hl before x mid y' after).
Qed.

(** The walk is breadth-first.  While the loop works on the names [A] that
    are at most [k] steps away, the names [B] it has queued behind them are
    at most one step farther; every name fewer than [k] steps away is
    checked, and so is every name [k] steps away that is not waiting in
    [A]. *)
Lemma iterateLoop_levels fuel : forall k A B checked visited b v,
  (forall n, n ∈ A -> near pkgs direct k n) ->
  (forall n, n ∈ B -> near pkgs direct (S k) n) ->
  (forall j n, j < k -> steps_to pkgs direct j n -> n ∈ checked) ->
  (forall n, steps_to pkgs direct k n -> n ∈ checked \/ n ∈ A) ->
  (forall n p m, n ∈ checked -> lookupPackage pkgs n = Some p ->
                 m ∈ dependees p -> m ∈ checked \/ m ∈ A ++ B) ->
  (forall x, x ∈ visited -> near pkgs direct k x) ->
  by_distance pkgs direct visited ->
  iterateLoop pkgs async_filter fuel checked (A ++ B) visited = Some (b, v) ->
  by_distance pkgs direct v.
Proof.
  induction fuel as [|fuel IH]; intros k A B checked visited b v
    HA HB Hbelow Hlevel Hfed Hvisited Hordered Hrun.
  { destruct (A ++ B); [|done]. by injection Hrun as <- <-. }
  assert (Hstep : forall k x A B,
    (forall n, n ∈ x :: A -> near pkgs direct k n) ->
    (forall n, n ∈ B -> near pkgs direct (S k) n) ->
    (forall j n, j < k -> steps_to pkgs direct j n -> n ∈ checked) ->
    (forall n, steps_to pkgs direct k n -> n ∈ checked \/ n ∈ x :: A) ->
    (forall n p m, n ∈ checked -> lookupPackage pkgs n = Some p ->
                   m ∈ dependees p -> m ∈ checked \/ m ∈ (x :: A) ++ B) ->
    (forall y, y ∈ visited -> near pkgs direct k y) ->
    iterateLoop pkgs async_filter (S fuel) checked (x :: A ++ B) visited
      = Some (b, v) ->
    by_distance pkgs direct v).
  { clear k A B HA HB Hbelow Hlevel Hfed Hvisited Hrun.
    intros k x A B HA HB Hbelow Hlevel Hfed Hvisited Hrun.
    cbn [iterateLoop] in Hrun.
    assert (HA' : forall n, n ∈ A -> near pkgs direct k n).
    { intros n Hn. by apply HA, list_elem_of_further. }
    destruct (decide (x ∈ checked)) as [Hx|Hx].
    { apply (IH k A B checked visited b v); try done.
      - intros n Hn. destruct (Hlevel n Hn) as [?|[->|?]%elem_of_cons]; auto.
      - intros n p m Hn Hp Hm.
        destruct (Hfed n p m Hn Hp Hm) as [?|[->|?]%elem_of_cons]; auto. }
    assert (Hlevel' : forall n, steps_to pkgs direct k n ->
                        n ∈ {[x]} ∪ checked \/ n ∈ A).
    { intros n Hn. destruct (Hlevel n Hn) as [?|[->|?]%elem_of_cons];
        [left|left|right]; set_solver. }
    assert (Hbelow' : forall j n, j < k -> steps_to pkgs direct j n ->
                        n ∈ {[x]} ∪ checked).
    { intros j n Hj Hn. apply elem_of_union. right. by apply (Hbelow j). }
    destruct (lookupPackage pkgs x) as [p|] eqn:Hp.
    2:{ apply (IH k A B ({[x]} ∪ checked) visited b v); try done.
        intros n q m [->%elem_of_singleton|Hn]%elem_of_union Hq Hm; [congruence|].
        destruct (Hfed n q m Hn Hq Hm) as [?|[->|?]%elem_of_cons];
          [left|left|right]; set_solver. }
    assert (Hxk : near pkgs direct k x) by apply HA, list_elem_of_here.
    assert (Hfar : forall j, near pkgs direct j x -> k <= j).
    { intros j (i & Hi & Hs). destruct (decide (i < k)) as [Hlt|]; [|lia].
      exfalso. by apply Hx, (Hbelow i). }
    assert (Hordered' : by_distance pkgs direct (visited ++ [x])).
    { apply by_distance_snoc; [done|]. intros y j Hy Hj.
      apply (near_mono k); [by apply Hfar|by apply Hvisited]. }
    destruct (async_filter p); [by injection Hrun as <- <-|].
    rewrite <- app_assoc in Hrun.
    apply (IH k A (B ++ dependees p) ({[x]} ∪ checked) (visited ++ [x]) b v);
      try done.
    - intros n [Hn|Hn]%elem_of_app; [by apply HB|by apply (near_next k x p)].
    - intros n q m [->%elem_of_singleton|Hn]%elem_of_union Hq Hm.
      + rewrite Hp in Hq. injection Hq as <-. right.
        apply elem_of_app. right. apply elem_of_app. by right.
      + destruct (Hfed n q m Hn Hq Hm) as [?|[->|?]%elem_of_cons].
        * left. set_solver.
        * left. set_solver.
        * right. rewrite app_assoc. apply elem_of_app. by left.
    - intros y [Hy| ->%list_elem_of_singleton]%elem_of_app; [by apply Hvisited|done]. }
  destruct A as [|x A].
  - destruct B as [|x B]; [by injection Hrun as <- <-|].
    cbn [app] in Hrun. rewrite <- (app_nil_r B) in Hrun.
    apply (Hstep (S k) x B []).
    + done.
    + by intros n ?%elem_of_nil.
    + intros j n Hj Hn. destruct (decide (j < k)) as [Hlt|Hge].
      * by apply (Hbelow j).
      * assert (j = k) as -> by lia.
        destruct (Hlevel n Hn) as [?|?%elem_of_nil]; done.
    + intros m Hm. inversion Hm as [|k' n p m' Hn Hp Hin]; subst.
      destruct (Hlevel n Hn) as [Hc|?%elem_of_nil]; [|done].
      destruct (Hfed n p m Hc Hp Hin) as [?|Hq]; [by left|by right].
    + intros n p m Hn Hp Hm. rewrite app_nil_r.
      destruct (Hfed n p m Hn Hp Hm) as [?|?]; [by left|by right].
    + intros y Hy. apply (near_mono k); [lia|by apply Hvisited].
    + done.
  - by apply (Hstep k x A B).
Qed.

End DependeesFacts.

(** C6.  [iterateDependentPackages] returns.  It hands to the callback
    names that a walk along [dependees] reaches from the direct dependees of
    the start package, each at most once and each the key of a package, so a
    name that is no key is passed over.  It returns true with the first
    package the callback accepts, which is the last one handed over; it
    returns false when no package is accepted, and then it has handed over
    every key the walk reaches.  The walk is breadth-first: no name is
    handed over before a name that is fewer steps away from the direct
    dependees.  Within that, the queue is first in, first out: the names
    are handed over in the order in which they first enter the queue, which
    is fed with the direct dependees and then with the dependees of every
    package handed over and not accepted.  For [A <- B <- C] and [A <- D]
    the walk from [A] hands over [B], [D] and [C] in this order. *)
Theorem dependees_are_walked_breadth_first :
  (forall (pkgs : list (string * CatkinPackage))
          (async_filter : CatkinPackage -> bool) (catkin_package : CatkinPackage),
     exists b visited,
       iterateDependentPackages pkgs async_filter catkin_package = Some (b, visited)
       /\ NoDup visited
       /\ (forall n, n ∈ visited ->
             reaches pkgs (dependees catkin_package) n
             /\ is_Some (lookupPackage pkgs n))
       /\ (if b then
            exists before n p,
              visited = before ++ [n]
              /\ lookupPackage pkgs n = Some p /\ async_filter p = true
              /\ forall m, m ∈ before ->
                   exists q, lookupPackage pkgs m = Some q /\ async_filter q = false
          else
            (forall m, m ∈ visited ->
               exists q, lookupPackage pkgs m = Some q /\ async_filter q = false)
            /\ forall n, reaches pkgs (dependees catkin_package) n ->
                         is_Some (lookupPackage pkgs n) -> n ∈ visited)
       /\ by_distance pkgs (dependees catkin_package) visited
       /\ exists rest,
            first_keys pkgs ∅
              (dependees catkin_package
               ++ flat_map (queued_for pkgs)
                    (if b then removelast visited else visited))
            = visited ++ rest
            /\ (b = false -> rest = []))
  /\ iterateDependentPackages example_packages (fun _ => false) package_A
     = Some (false, ["B"; "D"; "C"]).
Proof.
  split; [|reflexivity].
  intros pkgs async_filter catkin_package. unfold iterateDependentPackages.
  set (direct := dependees catkin_package).
  destruct (iterateLoop_total pkgs async_filter (length direct + pending pkgs ∅)
              ∅ direct [] (le_n _)) as (b & v & Hrun).
  exists b, v. split; [done|].
  destruct (iterateLoop_visits pkgs async_filter _ _ _ _ _ _ Hrun)
    as (new & Hv & Hnd & _ & Hb).
  cbn in Hv. subst new. split; [done|].
  assert (Hkeys : forall n, n ∈ v -> is_Some (lookupPackage pkgs n)).
  { intros n Hn. destruct b.
    - destruct Hb as (before & last & p & -> & Hp & _ & Hbefore).
      apply elem_of_app in Hn as [Hn| ->%list_elem_of_singleton]; [|by eexists].
      destruct (Hbefore n Hn) as (q & Hq & _). by eexists.
    - destruct (Hb n Hn) as (q & Hq & _). by eexists. }
  split.
  { intros n Hn. split; [|by apply Hkeys].
    refine (iterateLoop_reaches pkgs async_filter direct _ _ _ _ _ _ _ _ Hrun n Hn).
    - intros m Hm. by apply reaches_direct.
    - by intros ? ?%elem_of_nil. }
  split.
  { destruct b; [done|]. split; [done|].
    refine (iterateLoop_complete pkgs async_filter direct _ _ _ _ _ _ _ _ Hrun).
    - intros n Hn. by right.
    - by intros n p m ?%not_elem_of_empty.
    - by intros n ?%not_elem_of_empty. }
  split.
  { rewrite <- (app_nil_r direct) in Hrun.
    refine (iterateLoop_levels pkgs async_filter direct _ 0 direct [] ∅ [] b v
              _ _ _ _ _ _ _ Hrun).
    - intros n Hn. exists 0. split; [done|]. by apply steps_direct.
    - by intros n ?%elem_of_nil.
    - intros j n Hj. lia.
    - intros n Hn. right. by inversion Hn.
    - by intros n p m ?%not_elem_of_empty.
    - by intros x ?%elem_of_nil.
    - intros before x mid y after Heq. by destruct before. }
  destruct (iterateLoop_fifo pkgs async_filter _ _ _ _ _ _ Hrun)
    as (new & rest & Hv & _ & Hfifo & Hrest).
  cbn in Hv. subst new. by exists rest.
Qed.

(** * Further properties of the code *)

(** ** The store: what an update from an existing file leaves *)

(** With records fresh from the heap, the merge loop stores every record. *)
Lemma mergeRecords_fresh db_file raws : forall n change w,
  (forall f c, file_to_command w !! f = Some c -> oid c < n) ->
  mergeRecords db_file (parseRecords n raws) change w =
  (inr (change || negb (bool_decide (raws = []))),
   foldl (storeRecord db_file) w (parseRecords n raws), []).
Proof.
  induction raws as [|r rest IH]; intros n change w Hold.
  { cbn. by rewrite orb_false_r. }
  cbn [parseRecords mergeRecords foldl]. rewrite run_get_bind. cbn [file].
  assert (Hdiff : differs (file_to_command w !! raw_file r)
                    {| oid := n; file := raw_file r; command := raw_command r |}
                  = true).
  { unfold differs. destruct (file_to_command w !! raw_file r) as [c|] eqn:Hc; [|done].
    apply bool_decide_eq_true. cbn. apply Hold in Hc. lia. }
  rewrite Hdiff, !run_modify_bind.
  rewrite (IH (S n) true).
  - rewrite orb_true_r. done.
  - intros f c. cbn. destruct (decide (raw_file r = f)) as [<-|Hne].
    + rewrite lookup_insert_eq. intros [= <-]. cbn. lia.
    + rewrite lookup_insert_ne by done. intros Hc. apply Hold in Hc. lia.
Qed.

Lemma storeRecords_lookup db_file raws : forall n w f,
  let w' := foldl (storeRecord db_file) w (parseRecords n raws) in
  file_to_compile_commands w' !! f
  = (if last_command raws f is Some _ then Some db_file
     else file_to_compile_commands w !! f)
  /\ command <$> (file_to_command w' !! f)
     = (match last_command raws f with
        | Some c => Some c
        | None => command <$> (file_to_command w !! f)
        end)
  /\ (forall c, file_to_command w' !! f = Some c ->
                file_to_command w !! f = Some c
                \/ (file c = f /\ n <= oid c < n + length raws)).
Proof.
  induction raws as [|r rest IH]; intros n w f; cbn zeta.
  { cbn. split; [done|]. split; [done|]. by left. }
  cbn [parseRecords foldl last_command].
  destruct (IH (S n) (storeRecord db_file w
              {| oid := n; file := raw_file r; command := raw_command r |}) f)
    as (Horigin & Hcmd & Hoid).
  rewrite Horigin, Hcmd. clear Horigin Hcmd. cbn [storeRecord].
  split; [|split].
  - destruct (last_command rest f); [done|]. cbn.
    destruct (decide (raw_file r = f)) as [<-|Hne].
    + by rewrite lookup_insert_eq.
    + by rewrite lookup_insert_ne.
  - destruct (last_command rest f); [done|]. cbn.
    destruct (decide (raw_file r = f)) as [<-|Hne].
    + by rewrite lookup_insert_eq.
    + by rewrite lookup_insert_ne.
  - intros c Hc. destruct (Hoid c Hc) as [Hold|[Hf Hrange]].
    + cbn in Hold. destruct (decide (raw_file r = f)) as [<-|Hne].
      * rewrite lookup_insert_eq in Hold. injection Hold as <-.
        right. cbn. split; [done|lia].
      * rewrite lookup_insert_ne in Hold by done. by left.
    + right. split; [done|]. cbn. lia.
Qed.

(** An update from an existing file, in a state whose records the heap
    has handed out. *)
Lemma updateDatabase_existing_run env db_file w raws :
  heap_ok w -> readFile env db_file = Some raws ->
  updateDatabase env db_file w =
  (inr (negb (bool_decide (raws = []))),
   foldl (storeRecord db_file)
     (set_compile_commands <[db_file := parseRecords (next_oid w) raws]>
        (set_next_oid (fun n => n + length raws) w))
     (parseRecords (next_oid w) raws),
   if bool_decide (raws = []) then [] else [build_commands_changed]).
Proof.
  intros Hheap Hfile. unfold updateDatabase. rewrite Hfile.
  rewrite run_get_bind, !run_modify_bind.
  rewrite (run_bind_step _ _ _ _ _
             (mergeRecords_fresh db_file raws (next_oid w) false
                (set_compile_commands <[db_file := parseRecords (next_oid w) raws]>
                   (set_next_oid (fun n => n + length raws) w))
                Hheap)).
  cbn [orb]. destruct (bool_decide (raws = [])); cbn [negb].
  - by rewrite run_ret_bind.
  - by rewrite run_emit_bind.
Qed.

Lemma storeRecords_frame db_file (part : list CompileCommand) : forall w,
  let w' := foldl (storeRecord db_file) w part in
  compile_commands w' = compile_commands w /\ next_oid w' = next_oid w.
Proof.
  induction part as [|cmd rest IH]; intros w; [done|]. cbn [foldl].
  destruct (IH (storeRecord db_file w cmd)) as [-> ->]. done.
Qed.

Lemma updateDatabase_existing_lookup env db_file w raws :
  heap_ok w -> readFile env db_file = Some raws ->
  let w' := state_of (updateDatabase env db_file w) in
  (forall f,
     file_to_compile_commands w' !! f
     = (if last_command raws f is Some _ then Some db_file
        else file_to_compile_commands w !! f)
     /\ command <$> (file_to_command w' !! f)
        = (match last_command raws f with
           | Some c => Some c
           | None => command <$> (file_to_command w !! f)
           end))
  /\ compile_commands w' !! db_file = Some (parseRecords (next_oid w) raws).
Proof.
  intros Hheap Hfile w'. subst w'.
  rewrite (updateDatabase_existing_run env db_file w raws Hheap Hfile).
  cbn [state_of fst snd]. split.
  - intros f.
    destruct (storeRecords_lookup db_file raws (next_oid w)
                (set_compile_commands <[db_file := parseRecords (next_oid w) raws]>
                   (set_next_oid (fun n => n + length raws) w)) f)
      as (Ho & Hc & _).
    by rewrite Ho, Hc.
  - destruct (storeRecords_frame db_file (parseRecords (next_oid w) raws)
                (set_compile_commands <[db_file := parseRecords (next_oid w) raws]>
                   (set_next_oid (fun n => n + length raws) w))) as [-> _].
    cbn. by rewrite lookup_insert_eq.
Qed.

Lemma updateDatabase_vanished_state env db_file w :
  readFile env db_file = None ->
  state_of (updateDatabase env db_file w) = forgetDatabase db_file w.
Proof.
  intros Hgone. unfold updateDatabase.
  by rewrite Hgone, run_modify_bind, run_emit_bind.
Qed.

(** X1.  After an update from an existing file, every source file that the
    database lists has this database as its origin and the command of its
    last record there; every other source file keeps what it had, and the
    raw records of the database are those just read. *)
Theorem update_stores_last_record
    (env : Env) (db_file : string) (w : CatkinWorkspace) (raws : list RawCommand) :
  heap_ok w -> readFile env db_file = Some raws ->
  let w' := state_of (updateDatabase env db_file w) in
  (forall f,
     file_to_compile_commands w' !! f
     = (if last_command raws f is Some _ then Some db_file
        else file_to_compile_commands w !! f)
     /\ command <$> (file_to_command w' !! f)
        = (match last_command raws f with
           | Some c => Some c
           | None => command <$> (file_to_command w !! f)
           end))
  /\ compile_commands w' !! db_file = Some (parseRecords (next_oid w) raws).
Proof. apply updateDatabase_existing_lookup. Qed.

Lemma update_stores_last_record_witness :
  heap_ok newWorkspace
  /\ readFile example_env example_database
     = Some [ {| raw_file := "/ws/src/a/a.cpp";
                 raw_command := command example_record |} ]
  /\ file_to_compile_commands
       (state_of (updateDatabase example_env example_database newWorkspace))
     !! "/ws/src/a/a.cpp" = Some example_database.
Proof.
  assert (Hheap : heap_ok newWorkspace).
  { intros f c Hf. cbn in Hf. by rewrite lookup_empty in Hf. }
  split; [exact Hheap|]. split; [reflexivity|].
  destruct (update_stores_last_record example_env example_database newWorkspace
              _ Hheap eq_refl) as [Hrec _].
  destruct (Hrec "/ws/src/a/a.cpp") as [Horigin _]. exact Horigin.
Defined.

(** ** The store: its invariant *)

Lemma forgetDatabase_next_oid db_file w :
  next_oid (forgetDatabase db_file w) = next_oid w.
Proof.
  unfold forgetDatabase.
  generalize (map_to_list (file_to_compile_commands w)). intros l.
  revert w. induction l as [|entry l IH]; intros w; [done|].
  cbn [foldl]. rewrite IH. unfold forgetEntry. by destruct (decide _).
Qed.

Lemma updateDatabase_keeps_heap env db_file w :
  heap_ok w -> heap_ok (state_of (updateDatabase env db_file w)).
Proof.
  intros Hheap.
  destruct (readFile env db_file) as [raws|] eqn:Hfile.
  - rewrite (updateDatabase_existing_run env db_file w raws Hheap Hfile).
    cbn [state_of fst snd].
    set (w0 := set_compile_commands _ (set_next_oid _ w)).
    destruct (storeRecords_frame db_file (parseRecords (next_oid w) raws) w0)
      as [_ Hnext].
    intros f c Hc. rewrite Hnext. cbn.
    destruct (storeRecords_lookup db_file raws (next_oid w) w0 f)
      as (_ & _ & Hoid).
    destruct (Hoid c Hc) as [Hold|[_ Hrange]]; [|lia].
    apply (Hheap f c) in Hold. lia.
  - unfold updateDatabase. rewrite Hfile, run_modify_bind, run_emit_bind.
    change (heap_ok (forgetDatabase db_file w)).
    destruct (forgetDatabase_lookup db_file w) as [_ Hc].
    intros f c Hf. rewrite forgetDatabase_next_oid. rewrite Hc in Hf.
    destruct (decide _); [done|]. by apply (Hheap f c).
Qed.

Lemma updateDatabase_keeps_store env db_file w :
  store_inv w -> store_inv (state_of (updateDatabase env db_file w)).
Proof.
  intros [Hheap Hstore]. split; [by apply updateDatabase_keeps_heap|].
  destruct (readFile env db_file) as [raws|] eqn:Hfile.
  - rewrite (updateDatabase_existing_run env db_file w raws Hheap Hfile).
    cbn [state_of fst snd].
    set (w0 := set_compile_commands _ (set_next_oid _ w)).
    intros f.
    destruct (storeRecords_lookup db_file raws (next_oid w) w0 f)
      as (Ho & Hc & _).
    rewrite <- (fmap_is_Some command), Hc, Ho.
    destruct (last_command raws f); [by split; eexists|].
    rewrite fmap_is_Some. apply Hstore.
  - unfold updateDatabase. rewrite Hfile, run_modify_bind, run_emit_bind.
    change (store_ok (forgetDatabase db_file w)).
    destruct (forgetDatabase_lookup db_file w) as [Ho Hc].
    intros f. rewrite Ho, Hc. destruct (decide _); [|apply Hstore].
    split; intros [? ?]; done.
Qed.

Lemma updateDatabase_maintains_store env db_file :
  maintains store_inv (fun _ => True) (updateDatabase env db_file).
Proof.
  intros w Hw. split; [by apply updateDatabase_keeps_store|].
  apply Forall_forall. done.
Qed.

Lemma startWatchingAll_maintains_store env entries :
  maintains store_inv (fun _ => True) (startWatchingAll env entries).
Proof.
  induction entries as [|path rest IH]; cbn [startWatchingAll]; [apply maintains_ret|].
  apply maintains_bind; [|by intros _].
  unfold startWatchingCompileCommandsFile, stopWatching.
  apply maintains_bind; [apply updateDatabase_maintains_store|intros _].
  apply maintains_bind; [by apply maintains_modify|intros _].
  by apply maintains_modify.
Qed.

Lemma scan_maintains_store env inp :
  maintains store_inv (fun _ => True) (loadAndWatchCompileCommands env inp).
Proof.
  unfold loadAndWatchCompileCommands.
  apply maintains_bind; [apply maintains_lift|].
  intros [dir|]; [|by apply maintains_emit].
  apply maintains_bind.
  { unfold watchDatabases. destruct (build_dir_exists inp); [|apply maintains_ret].
    apply maintains_bind; [apply maintains_get|intros w].
    apply maintains_bind.
    { destruct (decide _); [|apply maintains_ret].
      apply maintains_bind; [by apply maintains_modify|intros _].
      by apply maintains_emit. }
    intros _. apply maintains_bind; [apply startWatchingAll_maintains_store|].
    intros _. apply maintains_ret. }
  intros db_found. apply maintains_bind; [apply maintains_get|intros w].
  destruct (_ && _); [|apply maintains_ret].
  unfold askAboutMissingDatabase.
  assert (Hask : maintains store_inv (fun _ => True) (askTriggerBuild inp)).
  { unfold askTriggerBuild.
    apply maintains_bind; [by apply maintains_emit|intros _].
    destruct (missing_answer inp) as [[]|];
      [by apply maintains_modify|apply maintains_ret
      |by apply maintains_emit|apply maintains_ret]. }
  destruct (negb _); [|done].
  apply maintains_bind; [by apply maintains_emit|intros _].
  destruct (export_answer inp) as [[]|]; [by apply maintains_modify| |done|done].
  apply maintains_bind; [by apply maintains_emit|by intros _].
Qed.

Lemma loadPackages_maintains_store found :
  maintains store_inv (fun _ => True) (loadPackages found).
Proof.
  induction found as [|loaded rest IH]; cbn [loadPackages]; [apply maintains_ret|].
  apply maintains_bind; [|by intros _].
  destruct loaded; [by apply maintains_modify|apply maintains_ret].
Qed.

Lemma reload_keeps_store env inp w :
  store_inv (state_of (reload env inp w)).
Proof.
  unfold reload. rewrite run_modify_bind.
  assert (Hclear : store_inv (clearCaches w)).
  { split.
    - intros f c Hf. cbn in Hf. by rewrite lookup_empty in Hf.
    - intros f. cbn. rewrite !lookup_empty. split; intros [? ?]; done. }
  eapply (maintains_bind store_inv (fun _ => True)); [by apply maintains_emit| |done].
  intros _. apply maintains_bind.
  { apply maintains_try_catch.
    - apply maintains_bind; [apply scan_maintains_store|intros _; apply maintains_ret].
    - intros e. apply maintains_bind; [by apply maintains_emit|].
      intros _. apply maintains_ret. }
  intros [|]; [|apply maintains_ret].
  apply maintains_bind; [apply loadPackages_maintains_store|intros _].
  apply maintains_bind; [by apply maintains_modify|intros _].
  apply maintains_bind; [by apply maintains_modify|intros _].
  by apply maintains_emit.
Qed.

(** A query writes no field but the list of defaults and the browse list. *)
Lemma query_keeps_maps env commands w :
  let w' := state_of (getSourceFileConfiguration env commands w) in
  file_to_command w' = file_to_command w
  /\ file_to_compile_commands w' = file_to_compile_commands w
  /\ compile_commands w' = compile_commands w
  /\ next_oid w' = next_oid w
  /\ packages w' = packages w
  /\ watchers w' = watchers w.
Proof.
  cbn zeta. rewrite getSourceFileConfiguration_run. cbn zeta.
  assert (Hpre : maintains
            (fun w' => file_to_command w' = file_to_command w
                       /\ file_to_compile_commands w' = file_to_compile_commands w
                       /\ compile_commands w' = compile_commands w
                       /\ next_oid w' = next_oid w
                       /\ packages w' = packages w
                       /\ watchers w' = watchers w)
            (fun _ => True)
            (resolveWhenEmpty env (hd "" (tokens commands)) (tl (tokens commands)))).
  { unfold resolveWhenEmpty. apply maintains_bind; [apply maintains_get|]. intros w'.
    destruct (decide _); [|apply maintains_ret].
    by apply parseCompilerDefaults_maintains. }
  destruct (Hpre w) as [Hkeep _]; [done|].
  set (pre := resolveWhenEmpty _ _ _ _) in *. clearbody pre.
  destruct (result_of pre) as [e|[]]; [done|].
  destruct (scanArgs_spec env _ (tl (tokens commands)) scan_start (state_of pre)
              (le_n _)) as (_ & added & Hst & _).
  set (o := scanArgs _ _ _ _) in *. clearbody o.
  assert (Hkeep' : file_to_command (state_of o) = file_to_command w
                   /\ file_to_compile_commands (state_of o) = file_to_compile_commands w
                   /\ compile_commands (state_of o) = compile_commands w
                   /\ next_oid (state_of o) = next_oid w
                   /\ packages (state_of o) = packages w
                   /\ watchers (state_of o) = watchers w) by by rewrite Hst.
  by destruct (result_of o).
Qed.

Lemma call_keeps_store c w : store_inv w -> store_inv (run_call c w).1.
Proof.
  intros Hw. destruct c as [env inp|env inp|env db_file|env commands]; cbn.
  - apply reload_keeps_store.
  - by apply scan_maintains_store.
  - by apply updateDatabase_keeps_store.
  - destruct (query_keeps_maps env commands w) as (Hc & Ho & _ & Hn & _).
    destruct Hw as [Hheap Hstore]. split.
    + intros f c. rewrite Hc, Hn. apply Hheap.
    + intros f. rewrite Hc, Ho. apply Hstore.
Qed.

Lemma reachable_store_inv w : reachable w -> store_inv w.
Proof.
  intros [calls ->].
  assert (Hnew : store_inv newWorkspace).
  { split.
    - intros f c Hf. cbn in Hf. by rewrite lookup_empty in Hf.
    - intros f. cbn. rewrite !lookup_empty. split; intros [? ?]; done. }
  revert Hnew. generalize newWorkspace.
  induction calls as [|c rest IH]; intros w Hw; [done|].
  cbn [run_calls]. pose proof (call_keeps_store c w Hw) as Hw'.
  destruct (run_call c w) as [w' ev]. specialize (IH w' Hw').
  by destruct (run_calls rest w').
Qed.

(** X2.  In every state the workspace can reach, the two maps of the projection
    have the same keys: a source file has a record exactly when it has an
    origin. *)
Theorem projection_keys_agree (calls : list Call) (f : string) :
  let w := (run_calls calls newWorkspace).1 in
  is_Some (file_to_command w !! f) <-> is_Some (file_to_compile_commands w !! f).
Proof.
  intros w. assert (Hw : reachable w) by by exists calls.
  apply reachable_store_inv in Hw. by apply Hw.
Qed.

(** X3.  In every state the workspace can reach, an update from an existing
    file reports a change, and dispatches the signal, exactly when the
    database holds at least one record: whether the records changed on disk
    plays no part. *)
Theorem update_reports_change_iff_nonempty
    (calls : list Call) (env : Env) (db_file : string) (raws : list RawCommand) :
  readFile env db_file = Some raws ->
  let o := updateDatabase env db_file (run_calls calls newWorkspace).1 in
  result_of o = inr (negb (bool_decide (raws = [])))
  /\ events_of o = if bool_decide (raws = []) then [] else [build_commands_changed].
Proof.
  intros Hfile o. subst o.
  assert (Hw : reachable (run_calls calls newWorkspace).1) by by exists calls.
  apply reachable_store_inv in Hw as [Hheap _].
  by rewrite (updateDatabase_existing_run env db_file _ raws Hheap Hfile).
Qed.

Lemma update_reports_change_iff_nonempty_witness :
  readFile example_env example_database
  = Some [ {| raw_file := "/ws/src/a/a.cpp";
              raw_command := command example_record |} ]
  /\ result_of (updateDatabase example_env example_database
                  (run_calls [CallUpdateDatabase example_env example_database]
                     newWorkspace).1) = inr true.
Proof.
  split; [reflexivity|].
  destruct (update_reports_change_iff_nonempty
              [CallUpdateDatabase example_env example_database]
              example_env example_database _ eq_refl) as [Hres _].
  exact Hres.
Defined.

(** X4.  When two databases list the same source file, the one updated last
    owns the record; when that database vanishes, the record is dropped,
    and nothing brings back the record of the database updated first. *)
Theorem removing_the_winner_drops_the_record
    (env env' : Env) (db1 db2 f : string) (w : CatkinWorkspace)
    (raws1 raws2 : list RawCommand) (c1 c2 : string) :
  heap_ok w ->
  readFile env db1 = Some raws1 -> last_command raws1 f = Some c1 ->
  readFile env db2 = Some raws2 -> last_command raws2 f = Some c2 ->
  readFile env' db2 = None ->
  let w2 := state_of (updateDatabase env db2 (state_of (updateDatabase env db1 w))) in
  let w3 := state_of (updateDatabase env' db2 w2) in
  file_to_compile_commands w2 !! f = Some db2
  /\ command <$> (file_to_command w2 !! f) = Some c2
  /\ file_to_compile_commands w3 !! f = None
  /\ file_to_command w3 !! f = None.
Proof.
  intros Hheap Hfile1 Hlast1 Hfile2 Hlast2 Hgone w2 w3.
  pose proof (updateDatabase_keeps_heap env db1 w Hheap) as Hheap1.
  destruct (updateDatabase_existing_lookup env db2 _ raws2 Hheap1 Hfile2) as [Hrec _].
  destruct (Hrec f) as [Horigin Hcmd]. rewrite Hlast2 in Horigin, Hcmd.
  split; [exact Horigin|]. split; [exact Hcmd|].
  subst w3. rewrite (updateDatabase_vanished_state env' db2 w2 Hgone).
  destruct (forgetDatabase_lookup db2 w2) as [Ho Hc].
  rewrite (Ho f), (Hc f). by rewrite !decide_True by exact Horigin.
Qed.

Lemma removing_the_winner_drops_the_record_witness :
  heap_ok newWorkspace
  /\ readFile database_b_removed_env database_a
     = readFile two_databases_env database_a
  /\ file_to_command
       (state_of
          (updateDatabase database_b_removed_env database_b
             (state_of (updateDatabase two_databases_env database_b
                          (state_of (updateDatabase two_databases_env database_a
                                       newWorkspace))))))
     !! shared_source = None.
Proof.
  assert (Hheap : heap_ok newWorkspace).
  { intros f c Hf. cbn in Hf. by rewrite lookup_empty in Hf. }
  split; [exact Hheap|]. split; [reflexivity|].
  exact (proj2 (proj2 (proj2
    (removing_the_winner_drops_the_record two_databases_env database_b_removed_env
       database_a database_b shared_source newWorkspace
       _ _ _ _ Hheap eq_refl eq_refl eq_refl eq_refl eq_refl)))).
Defined.

(** ** The package registry *)

Lemma lookup_storePackage key p pkgs k :
  lookupPackage (storePackage key p pkgs) k
  = if decide (key = k) then Some p else lookupPackage pkgs k.
Proof.
  induction pkgs as [|[k' q] rest IH]; cbn.
  - by destruct (decide (key = k)).
  - destruct (decide (k' = key)) as [->|Hne]; cbn.
    + by destruct (decide (key = k)).
    + destruct (decide (k' = k)) as [->|Hne'].
      * by rewrite decide_False by done.
      * done.
Qed.

Lemma keys_storePackage key p pkgs :
  map fst (storePackage key p pkgs)
  = if decide (key ∈ map fst pkgs) then map fst pkgs else map fst pkgs ++ [key].
Proof.
  induction pkgs as [|[k' q] rest IH]; cbn.
  - rewrite decide_False; [done|]. by intros ?%elem_of_nil.
  - destruct (decide (k' = key)) as [->|Hne]; cbn.
    + by rewrite decide_True by apply list_elem_of_here.
    + rewrite IH. destruct (decide (key ∈ map fst rest)) as [Hin|Hin].
      * by rewrite decide_True by by apply list_elem_of_further.
      * rewrite decide_False; [done|].
        intros [?|?]%elem_of_cons; done.
Qed.

Lemma elem_of_storePackage key p pkgs k q :
  (k, q) ∈ storePackage key p pkgs -> (k, q) = (key, p) \/ (k, q) ∈ pkgs.
Proof.
  induction pkgs as [|[k' q'] rest IH]; cbn.
  - intros ->%list_elem_of_singleton. by left.
  - destruct (decide (k' = key)) as [->|Hne].
    + intros [->|Hin]%elem_of_cons; [by left|].
      right. by apply list_elem_of_further.
    + intros [->|Hin]%elem_of_cons; [right; apply list_elem_of_here|].
      destruct (IH Hin) as [?|?]; [by left|].
      right. by apply list_elem_of_further.
Qed.

Lemma storePackage_keyed p pkgs :
  keyed_by_name pkgs -> keyed_by_name (storePackage (name p) p pkgs).
Proof.
  intros [Hname Hnd]. split.
  - intros k q [[= -> ->]|Hin]%elem_of_storePackage; [done|by apply Hname].
  - rewrite keys_storePackage. destruct (decide _) as [Hin|Hin]; [done|].
    apply NoDup_app. split; [done|]. split; [|apply NoDup_singleton].
    intros k Hk ->%list_elem_of_singleton. done.
Qed.

Lemma loadPackages_run found : forall w,
  exists pkgs,
    loadPackages found w = (inr tt, set_packages (fun _ => pkgs) w, [])
    /\ (forall n, lookupPackage pkgs n
                  = match last_loaded found n with
                    | Some p => Some p
                    | None => lookupPackage (packages w) n
                    end)
    /\ (keyed_by_name (packages w) -> keyed_by_name pkgs).
Proof.
  induction found as [|loaded rest IH]; intros w.
  { exists (packages w). split; [by destruct w|]. by split. }
  cbn [loadPackages last_loaded]. destruct loaded as [p|]; cbn [loadPackage].
  - rewrite run_modify_bind.
    destruct (IH (set_packages (storePackage (name p) p) w))
      as (pkgs & Hrun & Hlook & Hkeys).
    exists pkgs. split; [by rewrite Hrun|]. split.
    + intros n. rewrite Hlook. destruct (last_loaded rest n); [done|].
      cbn. rewrite lookup_storePackage. by destruct (decide (name p = n)).
    + intros Hk. apply Hkeys. cbn. by apply storePackage_keyed.
  - rewrite run_ret_bind. destruct (IH w) as (pkgs & Hrun & Hlook & Hkeys).
    exists pkgs. split; [done|]. split; [|done].
    intros n. rewrite Hlook. by destruct (last_loaded rest n).
Qed.

(** X5.  Loading the packages of a rescan never raises and emits nothing; a
    name then resolves to the last package loaded under it, or to what it
    resolved to before when no descriptor had that name; a descriptor that
    fails to parse changes nothing. *)
Theorem last_loaded_package_wins
    (found : list (option CatkinPackage)) (w : CatkinWorkspace) (n : string) :
  let o := loadPackages found w in
  result_of o = inr tt
  /\ events_of o = []
  /\ getPackage (state_of o) n
     = match last_loaded found n with
       | Some p => Some p
       | None => getPackage w n
       end.
Proof.
  destruct (loadPackages_run found w) as (pkgs & Hrun & Hlook & _).
  cbn zeta. rewrite Hrun. split; [done|]. split; [done|]. apply Hlook.
Qed.

(** ** The dependency graph *)

Lemma withDependees_nil p : withDependees [] p = p.
Proof. destruct p. unfold withDependees. cbn. by rewrite app_nil_r. Qed.

Lemma withDependees_app a b p :
  withDependees b (withDependees a p) = withDependees (a ++ b) p.
Proof. unfold withDependees. cbn. by rewrite app_assoc. Qed.

Lemma lookup_pushDependee key dependee pkgs k :
  lookupPackage (pushDependee key dependee pkgs) k
  = if decide (key = k) then withDependees [dependee] <$> lookupPackage pkgs k
    else lookupPackage pkgs k.
Proof.
  induction pkgs as [|[k' q] rest IH]; cbn.
  - by destruct (decide (key = k)).
  - destruct (decide (k' = key)) as [->|Hne]; cbn.
    + by destruct (decide (key = k)).
    + rewrite IH. destruct (decide (k' = k)) as [->|Hne']; [|done].
      by rewrite decide_False by done.
Qed.

Lemma lookup_linkDependencies q k : forall pkgs,
  lookupPackage (linkDependencies pkgs q) k
  = withDependees (map (fun _ => name q) (filter (fun d => d = k) (dependencies q)))
    <$> lookupPackage pkgs k.
Proof.
  unfold linkDependencies. induction (dependencies q) as [|d deps IH]; intros pkgs.
  { cbn. destruct (lookupPackage pkgs k) as [p|]; [|done].
    cbn. by rewrite withDependees_nil. }
  cbn [foldl]. rewrite IH, lookup_pushDependee, filter_cons.
  destruct (decide (d = k)) as [->|Hne].
  - destruct (lookupPackage pkgs k) as [p|]; [|done].
    cbn. by rewrite withDependees_app.
  - done.
Qed.

Lemma lookup_linkAll (qs : list CatkinPackage) k : forall pkgs,
  lookupPackage (foldl linkDependencies pkgs qs) k
  = withDependees (dependents_of qs k) <$> lookupPackage pkgs k.
Proof.
  unfold dependents_of. induction qs as [|q qs IH]; intros pkgs.
  { cbn. destruct (lookupPackage pkgs k) as [p|]; [|done].
    cbn. by rewrite withDependees_nil. }
  cbn [foldl map concat]. rewrite IH, lookup_linkDependencies.
  destruct (lookupPackage pkgs k) as [p|]; [|done].
  cbn. by rewrite withDependees_app.
Qed.

Lemma elem_of_dependents_of qs k m :
  m ∈ dependents_of qs k <->
  exists q, q ∈ qs /\ name q = m /\ k ∈ dependencies q.
Proof.
  unfold dependents_of. induction qs as [|q qs IH]; cbn.
  { split; [by intros ?%elem_of_nil|]. intros (q & ?%elem_of_nil & _). done. }
  rewrite elem_of_app, IH. split.
  - intros [Hin|(q' & Hq' & Hn & Hk)].
    + apply list_elem_of_fmap in Hin as (d & -> & Hd).
      apply list_elem_of_filter in Hd as [-> Hd].
      exists q. split; [apply list_elem_of_here|done].
    + exists q'. split; [by apply list_elem_of_further|done].
  - intros (q' & [->|Hq']%elem_of_cons & Hn & Hk).
    + left. apply list_elem_of_fmap. exists k. split; [done|].
      by apply list_elem_of_filter.
    + right. by exists q'.
Qed.

(** X6.  [buildDependencyGraph] leaves every key with its package, whose name
    and dependencies stay; it appends to the dependees of the package
    stored under a key the name of every package that lists the key as a
    dependency, in the order of the map, so that afterwards a name is among
    the dependees exactly when it was there before or is the name of such a
    package.  A dependency that is no key is passed over. *)
Theorem graph_links_declared_dependencies (w : CatkinWorkspace) (k : string) :
  let o := buildDependencyGraph w in
  let descriptors := map snd (packages w) in
  result_of o = inr tt
  /\ getPackage (state_of o) k
     = withDependees (dependents_of descriptors k) <$> getPackage w k
  /\ forall p m,
       getPackage (state_of o) k = Some p ->
       (m ∈ dependees p <->
        (exists p0, getPackage w k = Some p0 /\ m ∈ dependees p0)
        \/ exists q, q ∈ descriptors /\ name q = m /\ k ∈ dependencies q).
Proof.
  cbn zeta. split; [done|].
  assert (Hlook : getPackage (state_of (buildDependencyGraph w)) k
                  = withDependees (dependents_of (map snd (packages w)) k)
                    <$> getPackage w k).
  { unfold getPackage. cbn. apply lookup_linkAll. }
  split; [exact Hlook|].
  intros p m. rewrite Hlook.
  destruct (getPackage w k) as [p0|]; [|done].
  cbn. intros [= <-]. cbn. rewrite elem_of_app, elem_of_dependents_of.
  split.
  - intros [?|?]; [left; by exists p0|by right].
  - intros [(p1 & [= <-] & ?)|?]; [by left|by right].
Qed.

Lemma pushDependee_descriptors key dependee pkgs :
  map (fun kp : string * CatkinPackage => (kp.1, name kp.2, dependencies kp.2))
      (pushDependee key dependee pkgs)
  = map (fun kp : string * CatkinPackage => (kp.1, name kp.2, dependencies kp.2)) pkgs.
Proof.
  induction pkgs as [|[k q] rest IH]; cbn; [done|].
  destruct (decide (k = key)); cbn; [done|]. by rewrite IH.
Qed.

Lemma linkAll_descriptors (qs : list CatkinPackage) : forall pkgs,
  map (fun kp : string * CatkinPackage => (kp.1, name kp.2, dependencies kp.2))
      (foldl linkDependencies pkgs qs)
  = map (fun kp : string * CatkinPackage => (kp.1, name kp.2, dependencies kp.2)) pkgs.
Proof.
  induction qs as [|q qs IH]; intros pkgs; [done|].
  cbn [foldl]. rewrite IH. unfold linkDependencies.
  generalize (dependencies q). intros deps. revert pkgs.
  induction deps as [|d deps IHd]; intros pkgs; [done|].
  cbn [foldl]. by rewrite IHd, pushDependee_descriptors.
Qed.

Lemma dependents_of_descriptors (qs qs' : list CatkinPackage) k :
  map (fun q => (name q, dependencies q)) qs
  = map (fun q => (name q, dependencies q)) qs' ->
  dependents_of qs k = dependents_of qs' k.
Proof.
  unfold dependents_of. revert qs'.
  induction qs as [|q qs IH]; intros [|q' qs'] Heq; try done.
  cbn in Heq. injection Heq as Hn Hd Hrest.
  cbn. by rewrite Hn, Hd, (IH qs' Hrest).
Qed.

(** X7.  Building the graph is not idempotent: a second run pushes every
    name once more, so each dependee it added is then listed twice. *)
Theorem building_the_graph_twice_doubles_the_edges (w : CatkinWorkspace) (k : string) :
  let once := state_of (buildDependencyGraph w) in
  let twice := state_of (buildDependencyGraph once) in
  let added := dependents_of (map snd (packages w)) k in
  getPackage twice k = withDependees (added ++ added) <$> getPackage w k.
Proof.
  cbn zeta. unfold getPackage. cbn. rewrite !lookup_linkAll.
  rewrite (dependents_of_descriptors
             (map snd (foldl linkDependencies (packages w) (map snd (packages w))))
             (map snd (packages w)) k).
  - destruct (lookupPackage (packages w) k) as [p|]; [|done].
    cbn. by rewrite withDependees_app.
  - pose proof (linkAll_descriptors (map snd (packages w)) (packages w)) as Hd.
    apply (f_equal (map (fun t : string * string * list string => (t.1.2, t.2)))) in Hd.
    rewrite !map_map in Hd. rewrite !map_map. exact Hd.
Qed.

(** ** The scan and the reload: what they leave alone and when they raise *)

Section ScanFrames.

Context {B : Type}.
Variable field : CatkinWorkspace -> B.
Hypothesis field_store : beside_the_store field.
Hypothesis field_watchers : forall g w, field (set_watchers g w) = field w.
Hypothesis field_build_dir : forall g w, field (set_build_dir g w) = field w.
Hypothesis field_ignore : forall g w, field (set_ignore_missing_db g w) = field w.
Variable env : Env.

Lemma forgetDatabase_field db_file w : field (forgetDatabase db_file w) = field w.
Proof.
  destruct field_store as (Hc & Ho & _).
  unfold forgetDatabase.
  generalize (map_to_list (file_to_compile_commands w)). intros l.
  revert w. induction l as [|entry l IH]; intros w; [done|].
  cbn [foldl]. rewrite IH. unfold forgetEntry.
  destruct (decide _); [|done]. by rewrite Ho, Hc.
Qed.

Lemma mergeRecords_field db_file db_part : forall change w,
  field (state_of (mergeRecords db_file db_part change w)) = field w
  /\ exists b, result_of (mergeRecords db_file db_part change w) = inr b.
Proof.
  destruct field_store as (Hc & Ho & _).
  induction db_part as [|cmd rest IH]; intros change w; [by split; [|eexists]|].
  cbn [mergeRecords]. rewrite run_get_bind.
  destruct (differs _ _); [|apply IH].
  rewrite !run_modify_bind.
  destruct (IH true (set_file_to_compile_commands <[file cmd:=db_file]>
                       (set_file_to_command <[file cmd:=cmd]> w))) as [-> Hres].
  by rewrite Ho, Hc.
Qed.

Lemma updateDatabase_field db_file w :
  field (state_of (updateDatabase env db_file w)) = field w
  /\ exists b, result_of (updateDatabase env db_file w) = inr b.
Proof.
  destruct field_store as (_ & _ & Hcc & Hn).
  unfold updateDatabase. destruct (readFile env db_file) as [raws|].
  - rewrite run_get_bind, !run_modify_bind.
    set (w0 := set_compile_commands _ (set_next_oid _ w)).
    destruct (mergeRecords_field db_file (parseRecords (next_oid w) raws) false w0)
      as [Hf [b Hb]].
    rewrite (run_bind_inr _ _ _ b Hb). cbn [result_of state_of fst snd].
    assert (Hw0 : field w0 = field w) by (subst w0; by rewrite Hcc, Hn).
    destruct b; cbn; (split; [by rewrite <- Hw0, <- Hf|by eexists]).
  - rewrite run_modify_bind, run_emit_bind. cbn.
    split; [apply forgetDatabase_field|by eexists].
Qed.

Lemma startWatchingAll_field entries : forall w,
  field (state_of (startWatchingAll env entries w)) = field w
  /\ result_of (startWatchingAll env entries w) = inr tt.
Proof.
  pose proof field_watchers as Hw.
  induction entries as [|path rest IH]; intros w; [done|].
  cbn [startWatchingAll]. unfold startWatchingCompileCommandsFile, stopWatching.
  rewrite !run_bind_assoc.
  destruct (updateDatabase_field path w) as [Hf [b Hb]].
  rewrite (run_bind_inr _ _ _ b Hb).
  cbn [result_of state_of fst snd]. rewrite !run_bind_assoc, !run_modify_bind.
  destruct (IH (set_watchers (fun ws => {[path]} ∪ ws)
                  (set_watchers (fun ws => ws ∖ {[path]})
                     (state_of (updateDatabase env path w))))) as [-> ->].
  by rewrite !Hw, Hf.
Qed.

Lemma watchDatabases_field inp dir w :
  field (state_of (watchDatabases env inp dir w)) = field w
  /\ exists b, result_of (watchDatabases env inp dir w) = inr b.
Proof.
  pose proof field_build_dir as Hb.
  unfold watchDatabases. destruct (build_dir_exists inp); [|by split; [|eexists]].
  rewrite run_get_bind.
  destruct (decide _).
  - rewrite run_bind_assoc, run_modify_bind, run_emit_bind.
    cbn [result_of state_of fst snd].
    destruct (startWatchingAll_field (glob_entries inp)
                (set_build_dir (fun _ => Some dir) w)) as [Hf Hr].
    rewrite (run_bind_inr _ _ _ tt Hr). cbn. rewrite Hf, Hb. by split; [|eexists].
  - rewrite run_ret_bind.
    destruct (startWatchingAll_field (glob_entries inp) w) as [Hf Hr].
    rewrite (run_bind_inr _ _ _ tt Hr). cbn. rewrite Hf. by split; [|eexists].
Qed.

Lemma askAboutMissingDatabase_field inp w :
  field (state_of (askAboutMissingDatabase inp w)) = field w
  /\ result_of (askAboutMissingDatabase inp w) = inr tt.
Proof.
  pose proof field_ignore as Hi.
  assert (Hask : forall w, field (state_of (askTriggerBuild inp w)) = field w
                           /\ result_of (askTriggerBuild inp w) = inr tt).
  { intros w'. unfold askTriggerBuild. rewrite run_emit_bind.
    destruct (missing_answer inp) as [[]|]; cbn; by rewrite ?Hi. }
  unfold askAboutMissingDatabase. destruct (negb _); [|apply Hask].
  rewrite run_emit_bind.
  destruct (export_answer inp) as [[]|]; cbn [result_of state_of fst snd].
  - cbn. by rewrite Hi.
  - rewrite run_emit_bind. cbn [result_of state_of fst snd]. apply Hask.
  - apply Hask.
  - apply Hask.
Qed.

(** The scan raises exactly when the build directory cannot be resolved,
    and with the error of that resolution. *)
Lemma scan_field inp w :
  field (state_of (loadAndWatchCompileCommands env inp w)) = field w
  /\ result_of (loadAndWatchCompileCommands env inp w)
     = match getBuildDir inp with
       | inl e => inl e
       | inr _ => inr tt
       end.
Proof.
  unfold loadAndWatchCompileCommands. rewrite run_lift_bind.
  destruct (getBuildDir inp) as [e|[dir|]]; [done| |done].
  destruct (watchDatabases_field inp dir w) as [Hf [b Hb]].
  rewrite (run_bind_inr _ _ _ b Hb). cbn [result_of state_of fst snd].
  rewrite run_get_bind.
  destruct (_ && _); [|done].
  destruct (askAboutMissingDatabase_field inp
              (state_of (watchDatabases env inp dir w))) as [Hf' Hr].
  by rewrite Hf', Hr.
Qed.

End ScanFrames.

Lemma try_catch_scan (m : M unit) w :
  try_catch (m ;; ret true) (fun _ => emit ShowErrorMessage ;; ret false) w =
  match result_of (m w) with
  | inl _ => (inr false, state_of (m w), events_of (m w) ++ [ShowErrorMessage])
  | inr _ => (inr true, state_of (m w), events_of (m w))
  end.
Proof.
  unfold try_catch, bind. cbn zeta.
  destruct (result_of (m w)) as [e|[]]; cbn; [done|]. by rewrite app_nil_r.
Qed.

(** The steps of [reload] after the caches are cleared. *)
Lemma reload_run env inp w :
  let s := loadAndWatchCompileCommands env (scan_input inp) (clearCaches w) in
  reload env inp w =
  match result_of s with
  | inl _ =>
      (inr tt, state_of s, build_commands_changed :: events_of s ++ [ShowErrorMessage])
  | inr _ =>
      (inr tt,
       set_is_initialized (fun _ => true)
         (state_of (buildDependencyGraph
                      (state_of (loadPackages (found_packages inp) (state_of s))))),
       build_commands_changed :: events_of s ++ [onWorkspaceInitialized])
  end.
Proof.
  intros s. unfold reload. rewrite run_modify_bind, run_emit_bind.
  pose proof (try_catch_scan (loadAndWatchCompileCommands env (scan_input inp))
                (clearCaches w)) as Htry.
  fold s in Htry.
  destruct (result_of s) as [e|[]].
  - rewrite (run_bind_inr _ _ _ false) by by rewrite Htry.
    rewrite Htry. cbn. by rewrite app_nil_r.
  - destruct (loadPackages_run (found_packages inp) (state_of s))
      as (pkgs & Hload & _).
    rewrite (run_bind_inr _ _ _ true) by by rewrite Htry.
    rewrite Htry. cbn [result_of state_of events_of fst snd].
    rewrite (run_bind_step _ _ _ _ _ Hload), Hload.
    cbn. done.
Qed.


(** ** The run of a triple *)

Lemma state_of_run {A} (r : Exn + A) w ev : state_of (r, w, ev) = w.
Proof. done. Qed.

Lemma result_of_run {A} (r : Exn + A) w ev : result_of (r, w, ev) = r.
Proof. done. Qed.

Lemma events_of_run {A} (r : Exn + A) w ev : events_of (r, w, ev) = ev.
Proof. done. Qed.

(** ** Strings: prefixes and tokens *)

Lemma startsWith_prefix s p :
  JsString.startsWith s p = true <-> exists r, s = p +:+ r.
Proof.
  revert s. induction p as [|a p IH]; intros s.
  { split; [intros _; by exists s|by destruct s]. }
  destruct s as [|b s]; cbn.
  { split; [done|]. intros [r Hr]. cbn in Hr. discriminate Hr. }
  destruct (Ascii.eqb a b) eqn:Hab.
  - apply Ascii.eqb_eq in Hab as ->. rewrite IH. split.
    + intros [r ->]. by exists r.
    + intros [r Hr]. cbn in Hr. injection Hr as ->. by exists r.
  - split; [done|]. intros [r Hr]. cbn in Hr. injection Hr as -> _.
    by rewrite Ascii.eqb_refl in Hab.
Qed.

Lemma split_from_nonempty sep s : forall skip, JsString.split_from sep skip s ≠ [].
Proof.
  induction s as [|a s IH]; intros skip; cbn [JsString.split_from]; [done|].
  destruct skip; [|apply IH].
  destruct (JsString.startsWith _ _); [done|].
  by destruct (JsString.split_from sep 0 s).
Qed.

Lemma split_from_skip sep (x : string) : forall r,
  JsString.split_from sep (String.length x) (x +:+ r) = JsString.split_from sep 0 r.
Proof. induction x as [|a x IH]; intros r; cbn; [done|apply IH]. Qed.

Lemma join_cons sep t l : l ≠ [] -> join sep (t :: l) = t +:+ sep +:+ join sep l.
Proof. by destruct l. Qed.

Lemma join_push sep a t ts :
  join sep (String a t :: ts) = String a (join sep (t :: ts)).
Proof. by destruct ts. Qed.

Lemma string_app_length (x y : string) :
  String.length (x +:+ y) = String.length x + String.length y.
Proof.
  induction x as [|a x IH]; [reflexivity|].
  change (S (String.length (x +:+ y)) = S (String.length x + String.length y)).
  by rewrite IH.
Qed.

(** Splitting a string and joining the pieces with the separator gives
    the string back. *)
Lemma join_split c sep' n : forall s,
  String.length s <= n ->
  join (String c sep') (JsString.split_from (String c sep') 0 s) = s.
Proof.
  induction n as [|n IH]; intros s Hlen.
  { by destruct s; [|cbn in Hlen; lia]. }
  destruct s as [|a s]; [done|].
  cbn [JsString.split_from].
  destruct (JsString.startsWith (String a s) (String c sep')) eqn:Hstart.
  - apply startsWith_prefix in Hstart as [r Hr]. cbn in Hr. injection Hr as -> ->.
    replace (String.length (String c sep') - 1) with (String.length sep')
      by (cbn [String.length]; lia).
    rewrite split_from_skip.
    rewrite join_cons by apply split_from_nonempty.
    rewrite IH; [done|]. cbn in Hlen. rewrite string_app_length in Hlen. lia.
  - pose proof (split_from_nonempty (String c sep') s 0) as Hne.
    specialize (IH s ltac:(cbn in Hlen; lia)).
    destruct (JsString.split_from (String c sep') 0 s) as [|t ts]; [done|].
    by rewrite join_push, IH.
Qed.

Lemma startsWith_empty s : JsString.startsWith s "" = true.
Proof. by destruct s. Qed.

Lemma split_no_separator c : forall s tok,
  tok ∈ JsString.split s (String c "") ->
  JsString.includes tok (String c "") = false.
Proof.
  unfold JsString.split. induction s as [|a s IH]; intros tok.
  { cbn. by intros ->%list_elem_of_singleton. }
  cbn [JsString.split_from JsString.startsWith]. rewrite startsWith_empty.
  destruct (Ascii.eqb c a) eqn:Hca.
  - cbn. intros [->|Hin]%elem_of_cons; [done|by apply IH].
  - pose proof (split_from_nonempty (String c "") s 0) as Hne.
    destruct (JsString.split_from (String c "") 0 s) as [|t ts]; [done|].
    intros [->|Hin]%elem_of_cons.
    + cbn. rewrite Hca. cbn. apply IH, list_elem_of_here.
    + by apply IH, list_elem_of_further.
Qed.

Lemma string_app_nil_r (s : string) : s +:+ "" = s.
Proof.
  induction s as [|a s IH]; [reflexivity|].
  change (String a (s +:+ "") = String a s). by rewrite IH.
Qed.

(** X11.  The tokens of a command lose nothing and hold no space: joined by
    single spaces they give the command back, and the compiler path that a
    query returns is the command up to its first space. *)
Theorem tokens_rebuild_the_command (env : Env) (commands : CompileCommand)
    (w : CatkinWorkspace) :
  join " " (tokens commands) = command commands
  /\ (forall tok, tok ∈ tokens commands -> JsString.includes tok " " = false)
  /\ forall cfg,
       result_of (getSourceFileConfiguration env commands w) = inr cfg ->
       compilerPath cfg = hd "" (tokens commands)
       /\ JsString.includes (compilerPath cfg) " " = false
       /\ exists rest,
            command commands = compilerPath cfg +:+ rest
            /\ (rest = "" \/ JsString.startsWith rest " " = true).
Proof.
  assert (Hjoin : join " " (tokens commands) = command commands).
  { unfold tokens, JsString.split. by apply (join_split _ _ (String.length (command commands))). }
  assert (Htok : forall tok, tok ∈ tokens commands -> JsString.includes tok " " = false).
  { intros tok. apply split_no_separator. }
  split; [done|]. split; [done|].
  intros cfg. rewrite getSourceFileConfiguration_run. cbn zeta.
  destruct (result_of (resolveWhenEmpty _ _ _ _)) as [e|[]]; [done|].
  destruct (result_of (scanArgs _ _ _ _)) as [e|s]; [done|].
  intros [= <-]. cbn [compilerPath]. split; [done|].
  pose proof (split_from_nonempty " " (command commands) 0) as Hne.
  fold (JsString.split (command commands) " ") in Hne. fold (tokens commands) in Hne.
  destruct (tokens commands) as [|t ts] eqn:Ht; [done|]. cbn [hd].
  split; [apply Htok, list_elem_of_here|].
  rewrite <- Hjoin. destruct ts as [|t' ts].
  - exists "". cbn [join]. split; [by rewrite string_app_nil_r|by left].
  - exists (" " +:+ join " " (t' :: ts)). split; [done|].
    right. apply startsWith_prefix. by eexists.
Qed.
(** ** The scan: the configuration as a function of the tokens *)

Lemma includes_unit_cons c a s :
  JsString.includes (String a s) (unit_string c)
  = Ascii.eqb c a || JsString.includes s (unit_string c).
Proof.
  unfold unit_string. cbn [JsString.includes JsString.startsWith].
  rewrite startsWith_empty. by destruct (Ascii.eqb c a).
Qed.

Lemma includes_unit_nil c : JsString.includes "" (unit_string c) = false.
Proof. reflexivity. Qed.

Lemma slice_keeps_out c n : forall s,
  JsString.includes s (unit_string c) = false ->
  JsString.includes (JsString.slice n s) (unit_string c) = false.
Proof.
  induction n as [|n IH]; intros s Hs; [by destruct s|].
  destruct s as [|a s]; [done|]. cbn [JsString.slice]. apply IH.
  rewrite includes_unit_cons in Hs. by apply orb_false_iff in Hs as [_ Hs].
Qed.

Lemma stripBackslashes_keeps_out c s :
  JsString.includes s (unit_string c) = false ->
  JsString.includes (JsString.stripBackslashes s) (unit_string c) = false.
Proof.
  induction s as [|a s IH]; [done|].
  rewrite includes_unit_cons. intros [Ha Hs]%orb_false_iff.
  cbn [JsString.stripBackslashes]. destruct (Ascii.eqb a JsString.backslash); [by apply IH|].
  rewrite includes_unit_cons, Ha. by apply IH.
Qed.

Lemma stripBackslashes_clean s :
  JsString.includes (JsString.stripBackslashes s) (unit_string JsString.backslash) = false.
Proof.
  induction s as [|a s IH]; [done|].
  cbn [JsString.stripBackslashes].
  destruct (Ascii.eqb a JsString.backslash) eqn:Ha; [done|].
  rewrite includes_unit_cons, IH, Ascii.eqb_sym, Ha. done.
Qed.

Lemma define_options_spec n : forall opts tok, length opts <= n ->
  tok ∈ define_options opts -> tok ∈ opts /\ JsString.startsWith tok "-D" = true.
Proof.
  induction n as [|n IH]; intros opts tok Hlen.
  { destruct opts; [by intros ?%elem_of_nil|cbn in Hlen; lia]. }
  destruct opts as [|opt rest]; [by intros ?%elem_of_nil|].
  cbn in Hlen. cbn [define_options].
  assert (Hrest : tok ∈ define_options rest ->
                  tok ∈ opt :: rest /\ JsString.startsWith tok "-D" = true).
  { intros [H1 H2]%IH; [|lia]. split; [by apply list_elem_of_further|done]. }
  destruct (JsString.startsWith opt "-I"); [done|].
  destruct (decide (opt = "-isystem")) as [->|_].
  { destruct rest as [|path rest]; [by intros ?%elem_of_nil|].
    intros [H1 H2]%IH; [|cbn in Hlen; lia].
    split; [by do 2 apply list_elem_of_further|done]. }
  destruct (JsString.startsWith opt "-isystem="); [done|].
  destruct (JsString.startsWith opt "-D") eqn:HD; [|done].
  intros [->|Hin]%elem_of_cons; [|by apply Hrest].
  split; [apply list_elem_of_here|done].
Qed.

Lemma named_paths_spec n : forall opts p, length opts <= n ->
  Some p ∈ named_paths opts ->
  exists tok, tok ∈ opts /\ exists k, p = JsString.slice k tok.
Proof.
  induction n as [|n IH]; intros opts p Hlen.
  { destruct opts; [by intros ?%elem_of_nil|cbn in Hlen; lia]. }
  destruct opts as [|opt rest]; [by intros ?%elem_of_nil|].
  cbn in Hlen. cbn [named_paths].
  assert (Hrest : Some p ∈ named_paths rest ->
                  exists tok, tok ∈ opt :: rest /\ exists k, p = JsString.slice k tok).
  { intros (tok & H1 & H2)%IH; [|lia]. exists tok.
    split; [by apply list_elem_of_further|done]. }
  assert (Hhere : forall k, Some p ∈ Some (JsString.slice k opt) :: named_paths rest ->
                  exists tok, tok ∈ opt :: rest /\ exists k, p = JsString.slice k tok).
  { intros k [[= ->]|Hin]%elem_of_cons; [|by apply Hrest].
    exists opt. split; [apply list_elem_of_here|by exists k]. }
  destruct (JsString.startsWith opt "-I"); [by apply Hhere|].
  destruct (decide (opt = "-isystem")) as [->|_].
  { destruct rest as [|path rest]; [by intros [[=]|?%elem_of_nil]%elem_of_cons|].
    intros [[= ->]|Hin]%elem_of_cons.
    - exists path. split; [apply list_elem_of_further, list_elem_of_here|by exists 0].
    - apply IH in Hin as (tok & H1 & H2); [|cbn in Hlen; lia].
      exists tok. split; [by do 2 apply list_elem_of_further|done]. }
  destruct (JsString.startsWith opt "-isystem="); [by apply Hhere|done].
Qed.

Section ScanAsFunction.

Variable env : Env.

(** What one [addIncludePath] does to the browse list. *)
Lemma addIncludePath_browse path s w s' :
  let o := addIncludePath env path s w in
  result_of o = inr s' ->
  events_of o = []
  /\ includePaths s' = includePaths s ++ [path]
  /\ scanned_defines s' = scanned_defines s
  /\ exists added,
       state_of o = set_system_include_browse_paths (fun paths => paths ++ added) w
       /\ (forall q, q ∈ added <->
             q = path /\ isWorkspacePath env path = inr false
             /\ path ∉ system_include_browse_paths w)
       /\ NoDup added
       /\ new_system_path_found s'
          = new_system_path_found s || negb (bool_decide (added = [])).
Proof.
  cbn zeta. rewrite addIncludePath_run.
  assert (Hkept : forall found, found = false ->
    (isWorkspacePath env path = inr true \/ path ∈ system_include_browse_paths w) ->
    let o : (Exn + Scan) * CatkinWorkspace * list Event :=
      (inr (pushPath path found s), w, []) in
    result_of o = inr s' ->
    events_of o = [] /\ includePaths s' = includePaths s ++ [path]
    /\ scanned_defines s' = scanned_defines s
    /\ exists added,
         state_of o = set_system_include_browse_paths (fun paths => paths ++ added) w
         /\ (forall q, q ∈ added <->
               q = path /\ isWorkspacePath env path = inr false
               /\ path ∉ system_include_browse_paths w)
         /\ NoDup added
         /\ new_system_path_found s'
            = new_system_path_found s || negb (bool_decide (added = []))).
  { intros found -> Hwhy o [= <-]. split; [done|]. split; [done|]. split; [done|].
    exists []. rewrite set_browse_app_nil. split; [done|]. split; [|split].
    - intros q. split; [by intros ?%elem_of_nil|].
      intros (_ & Hq & Hn). destruct Hwhy as [Hw|Hw]; [congruence|done].
    - constructor.
    - cbn. by rewrite orb_false_r. }
  destruct (isWorkspacePath env path) as [e|[]] eqn:Hws; [done| |].
  { apply Hkept; [done|by left]. }
  destruct (bool_decide (path ∉ system_include_browse_paths w)) eqn:Hnew.
  - apply bool_decide_eq_true in Hnew.
    intros [= <-]. split; [done|]. split; [done|]. split; [done|].
    exists [path]. split; [done|]. split; [|split].
    + intros q. rewrite list_elem_of_singleton. naive_solver.
    + apply NoDup_singleton.
    + cbn. by rewrite orb_true_r.
  - apply bool_decide_eq_false in Hnew. apply Hkept; [done|].
    right. by destruct (decide (path ∈ system_include_browse_paths w)).
Qed.

Lemma scan_outcome_done s w : scan_outcome env [] [] s w (inr s, w, []).
Proof.
  intros s' [= <-]. rewrite !app_nil_r. split; [done|]. split; [done|]. split; [done|].
  exists []. rewrite set_browse_app_nil. split; [done|]. split; [|split].
  - intros q. split; [by intros ?%elem_of_nil|]. by intros [?%elem_of_nil _].
  - constructor.
  - cbn. by rewrite orb_false_r.
Qed.

Lemma scan_outcome_push path named named_defines s w (k : Scan -> M Scan) :
  (forall s1 w1, scan_outcome env named named_defines s1 w1 (k s1 w1)) ->
  scan_outcome env (path :: named) named_defines s w
    (bind (addIncludePath env path s) k w).
Proof.
  intros Hk s' Hres.
  destruct (result_of (addIncludePath env path s w)) as [e|s1] eqn:Hadd.
  { by rewrite (run_bind_inl _ _ _ _ Hadd) in Hres. }
  destruct (addIncludePath_browse path s w s1 Hadd)
    as (Hev1 & Hinc1 & Hdef1 & added1 & Hst1 & Hin1 & Hnd1 & Hflag1).
  rewrite (run_bind_inr _ _ _ _ Hadd) in Hres |- *.
  rewrite Hev1, Hst1 in Hres |- *. cbn [app] in Hres |- *.
  rewrite result_of_run in Hres.
  destruct (Hk _ _ s' Hres) as (Hev2 & Hinc2 & Hdef2 & added2 & Hst2 & Hin2 & Hnd2 & Hflag2).
  rewrite events_of_run, state_of_run.
  split; [done|]. split; [by rewrite Hinc2, Hinc1, <- app_assoc|].
  split; [by rewrite Hdef2, Hdef1|].
  exists (added1 ++ added2). split; [|split; [|split]].
  - rewrite Hst2. destruct w. unfold set_system_include_browse_paths.
    cbn [system_include_browse_paths]. by rewrite <- app_assoc.
  - intros q. rewrite elem_of_app, Hin1, Hin2, elem_of_cons.
    change (system_include_browse_paths (set_system_include_browse_paths ?g ?v))
      with (g (system_include_browse_paths v)). cbv beta.
    rewrite elem_of_app, Hin1.
    destruct (decide (q = path)) as [->|Hne]; [|naive_solver].
    destruct (decide (path ∈ system_include_browse_paths w)); naive_solver.
  - apply NoDup_app. split; [done|]. split; [|done].
    intros q Hq1 Hq2. apply Hin2 in Hq2 as (_ & _ & Hq2). apply Hq2.
    change (system_include_browse_paths (set_system_include_browse_paths ?g ?v))
      with (g (system_include_browse_paths v)). cbv beta.
    apply elem_of_app. by right.
  - rewrite Hflag2, Hflag1. destruct added1, added2; cbn; by rewrite ?orb_false_r, ?orb_true_r.
Qed.

Lemma scan_outcome_define d named named_defines s w o :
  scan_outcome env named named_defines
    {| includePaths := includePaths s;
       scanned_defines := scanned_defines s ++ [d];
       new_system_path_found := new_system_path_found s |} w o ->
  scan_outcome env named (d :: named_defines) s w o.
Proof.
  intros H s' Hres. destruct (H s' Hres) as (Hev & Hinc & Hdef & Hadded).
  cbn in Hinc, Hdef, Hadded. rewrite <- app_assoc in Hdef. done.
Qed.

Lemma scanArgs_outcome n : forall opts s w, length opts <= n ->
  scan_outcome env (named_paths opts) (map define_of (define_options opts)) s w
    (scanArgs env opts s w).
Proof.
  induction n as [|n IH]; intros opts s w Hlen.
  { destruct opts; [|cbn in Hlen; lia]. apply scan_outcome_done. }
  destruct opts as [|opt rest]; [apply scan_outcome_done|].
  cbn in Hlen. cbn [scanArgs named_paths define_options].
  destruct (JsString.startsWith opt "-I").
  { apply scan_outcome_push. intros. apply IH. lia. }
  destruct (decide (opt = "-isystem")) as [->|_].
  { destruct rest as [|path rest].
    - replace (addIncludePath env None s w)
        with (bind (addIncludePath env None s) ret w).
      + apply scan_outcome_push. intros. apply scan_outcome_done.
      + unfold bind, ret. by destruct (addIncludePath env None s w) as [[[e|s1] w1] ev1];
          cbn; rewrite ?app_nil_r.
    - apply scan_outcome_push. intros. apply IH. cbn in Hlen. lia. }
  destruct (JsString.startsWith opt "-isystem=").
  { apply scan_outcome_push. intros. apply IH. lia. }
  destruct (JsString.startsWith opt "-D"); [|apply IH; lia].
  cbn [map]. apply scan_outcome_define. apply IH. lia.
Qed.

End ScanAsFunction.

(** A query that returns: its record, the browse list and the events. *)
Lemma query_outcome env commands w cfg :
  let pre := resolveWhenEmpty env (hd "" (tokens commands)) (tl (tokens commands)) w in
  let o := getSourceFileConfiguration env commands w in
  result_of o = inr cfg ->
  exists s added,
    cfg = {| standard := cppStandard env;
             intelliSenseMode := intelliSenseMode_setting env;
             includePath := includePaths s
                            ++ map Some (default_system_include_paths (state_of o));
             defines := scanned_defines s;
             compilerPath := hd "" (tokens commands) |}
    /\ includePaths s = named_paths (tl (tokens commands))
    /\ scanned_defines s = map define_of (define_options (tl (tokens commands)))
    /\ system_include_browse_paths (state_of o)
       = system_include_browse_paths w ++ added
    /\ (forall q, q ∈ added <->
          q ∈ named_paths (tl (tokens commands))
          /\ isWorkspacePath env q = inr false
          /\ q ∉ system_include_browse_paths w)
    /\ NoDup added
    /\ events_of o
       = events_of pre ++ (if bool_decide (added = []) then [] else [system_paths_changed]).
Proof.
  cbn zeta. rewrite getSourceFileConfiguration_run. cbn zeta.
  pose proof (resolveWhenEmpty_keeps_browse_paths env (hd "" (tokens commands))
                (tl (tokens commands)) w) as Hpre.
  set (pre := resolveWhenEmpty _ _ _ _) in *.
  destruct (result_of pre) as [e|[]]; [done|].
  pose proof (scanArgs_outcome env _ (tl (tokens commands)) scan_start (state_of pre)
                (le_n _)) as Hscan.
  set (o := scanArgs _ _ _ _) in *.
  destruct (result_of o) as [e|s] eqn:Hres; [done|].
  destruct (Hscan s) as (Hev & Hinc & Hdef & added & Hst & Hin & Hnd & Hflag); [done|].
  rewrite result_of_run, state_of_run, events_of_run. intros [= <-].
  exists s, added. split; [done|]. split; [done|]. split; [done|].
  split; [by rewrite Hst, <- Hpre|]. split; [by setoid_rewrite <- Hpre|].
  split; [done|].
  rewrite Hev, Hflag. cbn. by destruct (bool_decide (added = [])).
Qed.

Lemma option_has_no_space commands opt :
  opt ∈ tl (tokens commands) -> JsString.includes opt (unit_string " ") = false.
Proof.
  intros Hin. apply (split_no_separator " " (command commands)).
  fold (tokens commands). destruct (tokens commands); [done|].
  by apply list_elem_of_further.
Qed.

(** X12.  The configuration of a query that returns is read off the tokens of
    the command: its include paths are the paths the options name, in
    order, followed by the defaults; its defines are those of the options
    [-D...] that are not the path of an [-isystem], each without its
    backslashes.  No define holds a space or a backslash, and no named path
    holds a space: a quoted value with a space is cut at the space. *)
Theorem configuration_is_read_off_the_tokens
    (env : Env) (commands : CompileCommand) (w : CatkinWorkspace)
    (cfg : SourceFileConfiguration) :
  let o := getSourceFileConfiguration env commands w in
  let opts := tl (tokens commands) in
  result_of o = inr cfg ->
  includePath cfg
    = named_paths opts ++ map Some (default_system_include_paths (state_of o))
  /\ defines cfg = map define_of (define_options opts)
  /\ (forall d, d ∈ defines cfg ->
        JsString.includes d " " = false
        /\ JsString.includes d (unit_string JsString.backslash) = false
        /\ exists opt, opt ∈ opts /\ JsString.startsWith opt "-D" = true
                       /\ d = define_of opt)
  /\ (forall p, Some p ∈ named_paths opts -> JsString.includes p " " = false).
Proof.
  intros o opts Hres. subst o opts.
  destruct (query_outcome env commands w cfg Hres)
    as (s & added & -> & Hinc & Hdef & _).
  cbn [includePath defines]. rewrite Hinc, Hdef.
  split; [done|]. split; [done|]. split.
  - intros d (opt & -> & Hopt)%list_elem_of_fmap.
    apply (define_options_spec _ _ _ (le_n _)) in Hopt as [Hin HD].
    split; [|split; [apply stripBackslashes_clean|by exists opt]].
    apply (stripBackslashes_keeps_out " "), slice_keeps_out.
    by apply (option_has_no_space commands).
  - intros p Hp.
    apply (named_paths_spec _ _ _ (le_n _)) in Hp as (tok & Hin & k & ->).
    apply (slice_keeps_out " "). by apply (option_has_no_space commands).
Qed.

Lemma configuration_is_read_off_the_tokens_witness :
  let o := getSourceFileConfiguration example_env example_record newWorkspace in
  let opts := tl (tokens example_record) in
  includePath example_configuration
    = named_paths opts ++ map Some (default_system_include_paths (state_of o))
  /\ defines example_configuration = map define_of (define_options opts)
  /\ (forall d, d ∈ defines example_configuration ->
        JsString.includes d " " = false
        /\ JsString.includes d (unit_string JsString.backslash) = false
        /\ exists opt, opt ∈ opts /\ JsString.startsWith opt "-D" = true
                       /\ d = define_of opt)
  /\ (forall p, Some p ∈ named_paths opts -> JsString.includes p " " = false).
Proof.
  apply (configuration_is_read_off_the_tokens example_env example_record
           newWorkspace example_configuration).
  vm_compute. reflexivity.
Defined.

(** ** The browse list *)

(** X13.  After a query that returns, the browse list holds what it held and
    the paths the options name that lie outside the workspace, each added
    once at its end in the order of the options; a list without repetition
    stays so.  Beside the events of the resolution, the query dispatches
    [system_paths_changed] exactly when the browse list grew. *)
Theorem browse_list_after_a_query
    (env : Env) (commands : CompileCommand) (w : CatkinWorkspace)
    (cfg : SourceFileConfiguration) :
  let o := getSourceFileConfiguration env commands w in
  let opts := tl (tokens commands) in
  let before := system_include_browse_paths w in
  let after := system_include_browse_paths (state_of o) in
  result_of o = inr cfg ->
  (forall q, q ∈ after <->
     q ∈ before \/ (q ∈ named_paths opts /\ isWorkspacePath env q = inr false))
  /\ (exists added, after = before ++ added /\ NoDup added)
  /\ (NoDup before -> NoDup after)
  /\ events_of o
     = events_of (resolveWhenEmpty env (hd "" (tokens commands)) opts w)
       ++ (if bool_decide (after = before) then [] else [system_paths_changed]).
Proof.
  intros o opts before after Hres. subst o opts before after.
  destruct (query_outcome env commands w cfg Hres)
    as (s & added & _ & _ & _ & Hst & Hin & Hnd & Hev).
  rewrite Hst, Hev. split; [|split; [|split]].
  - intros q. rewrite elem_of_app, Hin.
    destruct (decide (q ∈ system_include_browse_paths w)); naive_solver.
  - by exists added.
  - intros Hb. apply NoDup_app. split; [done|]. split; [|done].
    intros q Hq Hq'. by apply Hin in Hq' as (_ & _ & Hq').
  - f_equal. destruct added as [|a added].
    + by rewrite app_nil_r, !bool_decide_eq_true_2.
    + rewrite !bool_decide_eq_false_2; [done| |done].
      intros Heq. apply (f_equal length) in Heq.
      rewrite length_app in Heq. cbn in Heq. lia.
Qed.

Lemma browse_list_after_a_query_witness :
  let o := getSourceFileConfiguration example_env example_record newWorkspace in
  let opts := tl (tokens example_record) in
  let before := system_include_browse_paths newWorkspace in
  let after := system_include_browse_paths (state_of o) in
  (forall q, q ∈ after <->
     q ∈ before \/ (q ∈ named_paths opts /\ isWorkspacePath example_env q = inr false))
  /\ (exists added, after = before ++ added /\ NoDup added)
  /\ (NoDup before -> NoDup after)
  /\ events_of o
     = events_of (resolveWhenEmpty example_env (hd "" (tokens example_record)) opts
                    newWorkspace)
       ++ (if bool_decide (after = before) then [] else [system_paths_changed]).
Proof.
  apply (browse_list_after_a_query example_env example_record newWorkspace
           example_configuration).
  vm_compute. reflexivity.
Defined.

Lemma addIncludePath_keeps_distinct env path s :
  maintains (fun w => NoDup (system_include_browse_paths w)) (fun _ => True)
    (addIncludePath env path s).
Proof.
  intros w Hw. rewrite addIncludePath_run.
  destruct (isWorkspacePath env path) as [e|[]]; [by split|by split|].
  destruct (bool_decide (path ∉ system_include_browse_paths w)) eqn:Hnew;
    [|by split].
  apply bool_decide_eq_true in Hnew. split; [|done].
  cbn. apply NoDup_app. split; [done|]. split; [|apply NoDup_singleton].
  by intros q Hq ->%list_elem_of_singleton.
Qed.

Lemma scanArgs_keeps_distinct env n : forall opts s, length opts <= n ->
  maintains (fun w => NoDup (system_include_browse_paths w)) (fun _ => True)
    (scanArgs env opts s).
Proof.
  induction n as [|n IH]; intros opts s Hlen.
  { destruct opts; [apply maintains_ret|cbn in Hlen; lia]. }
  destruct opts as [|opt rest]; [apply maintains_ret|].
  cbn in Hlen. cbn [scanArgs].
  destruct (JsString.startsWith opt "-I").
  { apply maintains_bind; [apply addIncludePath_keeps_distinct|].
    intros. apply IH. lia. }
  destruct (decide (opt = "-isystem")) as [->|_].
  { destruct rest as [|path rest]; [apply addIncludePath_keeps_distinct|].
    apply maintains_bind; [apply addIncludePath_keeps_distinct|].
    intros. apply IH. cbn in Hlen. lia. }
  destruct (JsString.startsWith opt "-isystem=").
  { apply maintains_bind; [apply addIncludePath_keeps_distinct|].
    intros. apply IH. lia. }
  destruct (JsString.startsWith opt "-D"); apply IH; lia.
Qed.

Lemma query_keeps_distinct env commands :
  maintains (fun w => NoDup (system_include_browse_paths w)) (fun _ => True)
    (getSourceFileConfiguration env commands).
Proof.
  unfold getSourceFileConfiguration.
  apply maintains_bind.
  { unfold resolveWhenEmpty. apply maintains_bind; [apply maintains_get|intros w].
    destruct (decide _); [|apply maintains_ret].
    by apply parseCompilerDefaults_maintains. }
  intros _. apply maintains_bind; [by apply (scanArgs_keeps_distinct env _ _ _ (le_n _))|].
  intros s. apply maintains_bind.
  { destruct (new_system_path_found s); [by apply maintains_emit|apply maintains_ret]. }
  intros _. apply maintains_bind; [apply maintains_get|intros w]. apply maintains_ret.
Qed.

Lemma browse_beside_the_store : beside_the_store system_include_browse_paths.
Proof. by repeat split. Qed.

Lemma reload_empties_browse_list env inp w :
  system_include_browse_paths (state_of (reload env inp w)) = [].
Proof.
  rewrite reload_run. cbn zeta.
  destruct (scan_field system_include_browse_paths browse_beside_the_store
              (fun _ _ => eq_refl) (fun _ _ => eq_refl) (fun _ _ => eq_refl)
              env (scan_input inp) (clearCaches w)) as [Hb _].
  set (s := loadAndWatchCompileCommands env (scan_input inp) (clearCaches w)) in *.
  destruct (result_of s); [done|].
  destruct (loadPackages_run (found_packages inp) (state_of s)) as (pkgs & Hload & _).
  rewrite Hload. done.
Qed.

Lemma call_keeps_distinct c w :
  NoDup (system_include_browse_paths w) ->
  NoDup (system_include_browse_paths (run_call c w).1).
Proof.
  intros Hw. destruct c as [env inp|env inp|env db_file|env commands];
    unfold run_call; cbn zeta; cbn [fst].
  - rewrite reload_empties_browse_list. constructor.
  - by rewrite (proj1 (scan_field system_include_browse_paths browse_beside_the_store
                  (fun _ _ => eq_refl) (fun _ _ => eq_refl) (fun _ _ => eq_refl)
                  env inp w)).
  - by rewrite (proj1 (updateDatabase_field system_include_browse_paths
                  browse_beside_the_store env db_file w)).
  - by apply query_keeps_distinct.
Qed.

(** X14.  In every state the workspace can reach, whatever the calls did and
    whether they returned or raised, the browse list holds no path twice. *)
Theorem browse_list_holds_no_path_twice (calls : list Call) :
  NoDup (system_include_browse_paths (run_calls calls newWorkspace).1).
Proof.
  assert (Hnew : NoDup (system_include_browse_paths newWorkspace)) by constructor.
  revert Hnew. generalize newWorkspace.
  induction calls as [|c rest IH]; intros w Hw; [done|].
  cbn [run_calls]. pose proof (call_keeps_distinct c w Hw) as Hw'.
  destruct (run_call c w) as [w' ev]. specialize (IH w' Hw').
  by destruct (run_calls rest w').
Qed.
(** ** Workspace paths *)

(** X15.  While no workspace is open the folders are [undefined] and
    [isWorkspacePath] raises a [TypeError] for every argument.  When the
    folders are a list, a path counts as a workspace path exactly when it
    starts with the source prefix of some folder, whatever follows the
    prefix: a folder beside [src] whose name starts with [src] counts as
    well; for [undefined] the check raises when the list holds a folder and
    answers false when the list is empty. *)
Theorem workspace_paths_start_with_a_source_prefix (env : Env) (p : string) :
  match workspaceFolders env with
  | None => forall path, isWorkspacePath env path = inl TypeError
  | Some folders =>
      (exists b, isWorkspacePath env (Some p) = inr b
         /\ (b = true <->
             exists ws r, ws ∈ folders /\ p = workspace_base ws +:+ r))
      /\ (isWorkspacePath env None = inl TypeError <-> folders ≠ [])
      /\ (isWorkspacePath env None = inr false <-> folders = [])
  end.
Proof.
  destruct (workspaceFolders env) as [folders|] eqn:Hfolders.
  2:{ intros path. by apply isWorkspacePath_undefined_folders. }
  split.
  - unfold isWorkspacePath. rewrite Hfolders. clear Hfolders.
    induction folders as [|ws more IH]; cbn [isWorkspacePath_from].
    { exists false. split; [done|]. split; [done|].
      by intros (ws & r & ?%elem_of_nil & _). }
    fold (workspace_base ws).
    destruct (JsString.startsWith p (workspace_base ws)) eqn:Hstart.
    + exists true. split; [done|]. split; [|done]. intros _.
      apply startsWith_prefix in Hstart as [r Hr].
      exists ws, r. split; [apply list_elem_of_here|done].
    + destruct IH as (b & Hb & Hiff). exists b. split; [done|].
      rewrite Hiff. split.
      * intros (ws' & r & Hin & Hp). exists ws', r.
        split; [by apply list_elem_of_further|done].
      * intros (ws' & r & [->|Hin]%elem_of_cons & Hp); [|by exists ws', r].
        assert (JsString.startsWith p (workspace_base ws) = true) as Habs
          by (apply startsWith_prefix; by exists r).
        by rewrite Habs in Hstart.
  - rewrite isWorkspacePath_None, Hfolders. by destruct folders.
Qed.

(** ** The search list of a compiler *)

Lemma cppSearchList_flags lines : forall a b a' b',
  a || b = a' || b' -> cppSearchList a b lines = cppSearchList a' b' lines.
Proof.
  induction lines as [|line rest IH]; intros a b a' b' Hab; [done|].
  cbn [cppSearchList].
  destruct (JsString.matchesDotStar _ _ line); [done|].
  destruct (JsString.matchesDotStar _ _ line); [done|].
  destruct (JsString.includes line _); [done|].
  rewrite (IH _ _ _ _ Hab), Hab. done.
Qed.

Lemma cppSearchList_start a b m rest :
  is_start_marker m = true ->
  cppSearchList a b (m :: rest) = cppSearchList true true rest.
Proof.
  unfold is_start_marker. intros Hm. cbn [cppSearchList].
  destruct (JsString.matchesDotStar _ _ m); [by apply cppSearchList_flags|].
  cbn [orb] in Hm. rewrite Hm. by apply cppSearchList_flags.
Qed.

Lemma cppSearchList_end a b e rest :
  is_start_marker e = false -> is_end_marker e = true ->
  cppSearchList a b (e :: rest) = cppSearchList false false rest.
Proof.
  unfold is_start_marker, is_end_marker.
  intros [H1 H2]%orb_false_iff He. cbn [cppSearchList]. by rewrite H1, H2, He.
Qed.

Lemma cppSearchList_plain a b line rest :
  is_plain_line line = true ->
  cppSearchList a b (line :: rest) =
  if a || b then JsString.trim line :: cppSearchList a b rest
  else cppSearchList a b rest.
Proof.
  unfold is_plain_line, is_start_marker, is_end_marker.
  intros [[H1 H2]%negb_true_iff%orb_false_iff He%negb_true_iff]%andb_true_iff.
  cbn [cppSearchList]. by rewrite H1, H2, He.
Qed.

Lemma cppSearchList_collect paths rest :
  Forall (fun l => is_plain_line l = true) paths ->
  cppSearchList true true (paths ++ rest)
  = map JsString.trim paths ++ cppSearchList true true rest.
Proof.
  induction 1 as [|line paths Hl _ IH]; [done|].
  cbn [app map]. rewrite cppSearchList_plain by done. cbn [orb]. by rewrite IH.
Qed.

Lemma cppSearchList_idle lines :
  Forall (fun l => is_start_marker l = false) lines ->
  cppSearchList false false lines = [].
Proof.
  induction 1 as [|line lines Hl _ IH]; [done|].
  unfold is_start_marker in Hl. apply orb_false_iff in Hl as [H1 H2].
  cbn [cppSearchList]. rewrite H1, H2. by destruct (JsString.includes line _).
Qed.

Lemma cppSearchList_skip pre rest :
  Forall (fun l => is_start_marker l = false) pre ->
  cppSearchList false false (pre ++ rest) = cppSearchList false false rest.
Proof.
  induction 1 as [|line lines Hl _ IH]; [done|].
  unfold is_start_marker in Hl. apply orb_false_iff in Hl as [H1 H2].
  cbn [app cppSearchList]. rewrite H1, H2. by destruct (JsString.includes line _).
Qed.

Lemma cppSearchList_sections sections : forall a b rest,
  Forall (fun sec => is_start_marker sec.1 = true
                     /\ Forall (fun l => is_plain_line l = true) sec.2) sections ->
  sections ≠ [] ->
  cppSearchList a b (section_lines sections ++ rest)
  = flat_map (fun sec => map JsString.trim sec.2) sections
    ++ cppSearchList true true rest.
Proof.
  induction sections as [|[m paths] more IH]; intros a b rest Hall Hne; [done|].
  apply Forall_cons in Hall as [[Hm Hpaths] Hmore]. cbn in Hm, Hpaths.
  unfold section_lines. cbn [flat_map fst snd].
  rewrite <- !app_assoc. cbn [app]. rewrite cppSearchList_start by done.
  rewrite cppSearchList_collect by done. f_equal.
  destruct more as [|sec more]; [done|].
  apply IH; [done|done].
Qed.

(** X16.  The resolution of a compiler that is neither [nvcc] nor a wrapper reads
    the search list off the output: when the lines of the output are some
    lines without a start marker, then sections of a start marker and plain
    lines, then the end marker and lines without a start marker, the
    defaults are the plain lines of the sections, trimmed, in order; with
    no section they are empty. *)
Theorem defaults_are_the_lines_between_the_markers
    (env : Env) (compiler : string) (args : list string) (w : CatkinWorkspace)
    (stdout : string) (pre post : list string)
    (sections : list (string * list string)) (e : string) :
  compiler_name compiler ≠ "nvcc" ->
  JsString.includes (compiler_name compiler) "ccache" = false ->
  execSync env (compiler +:+ " -xc++ -E -v /dev/null -o /dev/null 2>&1") = inl stdout ->
  JsString.split stdout line_break = pre ++ section_lines sections ++ e :: post ->
  Forall (fun l => is_start_marker l = false) pre ->
  Forall (fun sec => is_start_marker sec.1 = true
                     /\ Forall (fun l => is_plain_line l = true) sec.2) sections ->
  is_start_marker e = false -> is_end_marker e = true ->
  Forall (fun l => is_start_marker l = false) post ->
  let o := parseCompilerDefaults env compiler args w in
  result_of o = inr tt
  /\ default_system_include_paths (state_of o)
     = flat_map (fun sec => map JsString.trim sec.2) sections.
Proof.
  intros Hn Hc Hexec Hlines Hpre Hsec He1 He2 Hpost o. subst o.
  rewrite (parseCompilerDefaults_generic_run env compiler args w stdout) by done.
  split; [done|]. rewrite state_of_run.
  change (default_system_include_paths (set_default_system_include_paths ?g ?v))
    with (g (default_system_include_paths v)). cbv beta.
  change (String JsString.newline "") with line_break. rewrite Hlines.
  rewrite cppSearchList_skip by done.
  destruct sections as [|sec more].
  - cbn [section_lines flat_map app].
    rewrite cppSearchList_end by done. by apply cppSearchList_idle.
  - rewrite cppSearchList_sections by done.
    rewrite cppSearchList_end by done.
    rewrite cppSearchList_idle by done. by rewrite app_nil_r.
Qed.

Lemma defaults_are_the_lines_between_the_markers_witness :
  let o := parseCompilerDefaults example_env "/usr/bin/g++" [] newWorkspace in
  result_of o = inr tt
  /\ default_system_include_paths (state_of o)
     = flat_map (fun sec => map JsString.trim sec.2)
         [("#include <...> search starts here:",
           [" /usr/include/c++/9"; " /usr/local/include"])].
Proof.
  apply (defaults_are_the_lines_between_the_markers example_env "/usr/bin/g++" []
           newWorkspace gxx_output [] []
           [("#include <...> search starts here:",
             [" /usr/include/c++/9"; " /usr/local/include"])]
           "End of search list.").
  - vm_compute. discriminate.
  - vm_compute. reflexivity.
  - vm_compute. reflexivity.
  - vm_compute. reflexivity.
  - constructor.
  - repeat constructor.
  - vm_compute. reflexivity.
  - vm_compute. reflexivity.
  - constructor.
Defined.

(** ** A compiler that fails, a wrapper around a wrapper *)

Lemma set_defaults_empty w :
  default_system_include_paths w = [] ->
  set_default_system_include_paths (fun _ => []) w = w.
Proof. destruct w. cbn. by intros ->. Qed.

(** X17.  When no defaults are cached and the compiler of the record, neither
    [nvcc] nor a wrapper, fails, the query raises with the message of the
    failure after entering the generic resolver: it returns no
    configuration, dispatches no signal and leaves the workspace as it was,
    so the next query runs the compiler again. *)
Theorem failed_compiler_fails_the_query
    (env : Env) (commands : CompileCommand) (w : CatkinWorkspace) (message : string) :
  let compiler := hd "" (tokens commands) in
  compiler_name compiler ≠ "nvcc" ->
  JsString.includes (compiler_name compiler) "ccache" = false ->
  execSync env (compiler +:+ " -xc++ -E -v /dev/null -o /dev/null 2>&1") = inr message ->
  default_system_include_paths w = [] ->
  getSourceFileConfiguration env commands w
  = (inl (CommandFailed message), w, [Called Cpp compiler]).
Proof.
  intros compiler Hn Hc Hexec Hd.
  rewrite getSourceFileConfiguration_run. cbn zeta. fold compiler.
  rewrite resolveWhenEmpty_run, Hd.
  rewrite parseCompilerDefaults_unfold, run_modify_bind.
  destruct (decide _) as [|_]; [done|]. rewrite Hc, run_ret_bind.
  unfold parseCompilerDefaultsCpp. rewrite run_bind_assoc, run_emit_bind, Hexec.
  rewrite run_throw_bind. cbn. by rewrite set_defaults_empty.
Qed.

Lemma failed_compiler_fails_the_query_witness :
  getSourceFileConfiguration example_env missing_compiler_record newWorkspace
  = (inl (CommandFailed "Command failed"), newWorkspace,
     [Called Cpp (hd "" (tokens missing_compiler_record))]).
Proof.
  apply (failed_compiler_fails_the_query example_env missing_compiler_record
           newWorkspace "Command failed").
  - vm_compute. discriminate.
  - vm_compute. reflexivity.
  - vm_compute. reflexivity.
  - reflexivity.
Defined.

Lemma wrappers_run env (inner : string) (args : list string) :
  forall (wrappers : list string) (outer : string) w,
  all_wrappers (outer :: wrappers) ->
  let o := parseCompilerDefaults env inner args w in
  parseCompilerDefaults env outer (wrappers ++ inner :: args) w
  = (result_of o, state_of o,
     map (Called Ccache) (outer :: wrappers) ++ events_of o ++
       match result_of o with
       | inr _ => replicate (S (length wrappers)) system_paths_changed
       | inl _ => []
       end).
Proof.
  induction wrappers as [|next wrappers IH]; intros outer w Hall;
    apply Forall_cons in Hall as [Houter Hall]; cbn zeta.
  - cbn [app]. rewrite parseCompilerDefaults_wrapper by done. cbn zeta. done.
  - cbn [app]. rewrite parseCompilerDefaults_wrapper by done. cbn zeta.
    rewrite (IH next w Hall). cbn zeta.
    rewrite result_of_run, state_of_run, events_of_run.
    f_equal. cbn [map app length]. f_equal. rewrite <- !app_assoc. do 2 f_equal.
    destruct (result_of (parseCompilerDefaults env inner args w)); [done|].
    change (replicate (S (S (length wrappers))) system_paths_changed)
      with (system_paths_changed :: replicate (S (length wrappers)) system_paths_changed).
    rewrite (replicate_cons_app (S (length wrappers))). done.
Qed.

Lemma wrappers_alone_run env :
  forall (wrappers : list string) (outer : string) w,
  all_wrappers (outer :: wrappers) ->
  parseCompilerDefaults env outer wrappers w
  = (inr tt, set_default_system_include_paths (fun _ => []) w,
     map (Called Ccache) (outer :: wrappers)
     ++ replicate (S (length wrappers)) system_paths_changed).
Proof.
  induction wrappers as [|next wrappers IH]; intros outer w Hall;
    apply Forall_cons in Hall as [Houter Hall].
  - by rewrite parseCompilerDefaults_wrapper_alone.
  - rewrite parseCompilerDefaults_wrapper by done. cbn zeta.
    rewrite (IH next w Hall).
    rewrite result_of_run, state_of_run, events_of_run.
    f_equal. cbn [map app length]. f_equal. rewrite <- !app_assoc. do 2 f_equal.
    change (replicate (S (S (length wrappers))) system_paths_changed)
      with (system_paths_changed :: replicate (S (length wrappers)) system_paths_changed).
    rewrite (replicate_cons_app (S (length wrappers))). done.
Qed.

(** X18.  Wrappers around a compiler, however many, resolve what the compiler
    behind them resolves: the same outcome and the same state.  Each
    wrapper is entered once, in order, and [system_paths_changed] is
    dispatched once more for each wrapper when the resolution returns.
    Wrappers with nothing behind them return with an empty list of
    defaults. *)
Theorem wrappers_resolve_the_compiler_behind_them
    (env : Env) (outer : string) (wrappers : list string) (inner : string)
    (args : list string) (w : CatkinWorkspace) :
  all_wrappers (outer :: wrappers) ->
  let o := parseCompilerDefaults env inner args w in
  let wrapped := parseCompilerDefaults env outer (wrappers ++ inner :: args) w in
  let alone := parseCompilerDefaults env outer wrappers w in
  result_of wrapped = result_of o
  /\ state_of wrapped = state_of o
  /\ events_of wrapped
     = map (Called Ccache) (outer :: wrappers) ++ events_of o ++
       match result_of o with
       | inr _ => replicate (S (length wrappers)) system_paths_changed
       | inl _ => []
       end
  /\ result_of alone = inr tt
  /\ default_system_include_paths (state_of alone) = []
  /\ events_of alone
     = map (Called Ccache) (outer :: wrappers)
       ++ replicate (S (length wrappers)) system_paths_changed.
Proof.
  intros Hall o wrapped alone. subst o wrapped alone.
  rewrite (wrappers_run env inner args wrappers outer w Hall).
  rewrite (wrappers_alone_run env wrappers outer w Hall). done.
Qed.

Lemma wrappers_resolve_the_compiler_behind_them_witness :
  let o := parseCompilerDefaults example_env "/usr/bin/g++" ["-O2"] newWorkspace in
  let wrapped :=
    parseCompilerDefaults example_env "/usr/bin/ccache"
      (["sccache"] ++ "/usr/bin/g++" :: ["-O2"]) newWorkspace in
  let alone := parseCompilerDefaults example_env "/usr/bin/ccache" ["sccache"] newWorkspace in
  result_of wrapped = result_of o
  /\ state_of wrapped = state_of o
  /\ events_of wrapped
     = map (Called Ccache) ["/usr/bin/ccache"; "sccache"] ++ events_of o ++
       match result_of o with
       | inr _ => replicate 2 system_paths_changed
       | inl _ => []
       end
  /\ result_of alone = inr tt
  /\ default_system_include_paths (state_of alone) = []
  /\ events_of alone
     = map (Called Ccache) ["/usr/bin/ccache"; "sccache"]
       ++ replicate 2 system_paths_changed.
Proof.
  apply (wrappers_resolve_the_compiler_behind_them example_env "/usr/bin/ccache"
           ["sccache"] "/usr/bin/g++" ["-O2"] newWorkspace).
  repeat constructor.
Defined.
(** ** The packages that may use a file *)



Section OfferFacts.

Variable pkgs : list (string * CatkinPackage).
Variable accepts : CatkinPackage -> bool.
Variable owner : string.
Hypothesis keyed : keyed_by_name pkgs.





End OfferFacts.


(** ** The configuration of the build tool *)

Lemma includes_unit_rev c (s : string) :
  JsString.includes (String.rev s) (unit_string c) = JsString.includes s (unit_string c).
Proof.
  unfold String.rev.
  assert (Hacc : forall (s acc : string),
    JsString.includes (String.rev_app s acc) (unit_string c)
    = JsString.includes s (unit_string c) || JsString.includes acc (unit_string c)).
  { clear s. induction s as [|x s IH]; intros acc; [done|].
    cbn [String.rev_app]. rewrite IH, !includes_unit_cons.
    destruct (Ascii.eqb c x), (JsString.includes s _); done. }
  rewrite Hacc, includes_unit_nil. apply orb_false_r.
Qed.

Lemma trimStart_keeps_out c s :
  JsString.includes s (unit_string c) = false ->
  JsString.includes (JsString.trimStart s) (unit_string c) = false.
Proof.
  induction s as [|a s IH]; [done|]. intros Hs. cbn [JsString.trimStart].
  destruct (JsString.isSpace a); [|done]. apply IH.
  rewrite includes_unit_cons in Hs. by apply orb_false_iff in Hs as [_ ?].
Qed.

Lemma trim_keeps_out c s :
  JsString.includes s (unit_string c) = false ->
  JsString.includes (JsString.trim s) (unit_string c) = false.
Proof.
  intros Hs. unfold JsString.trim, JsString.trimEnd.
  rewrite includes_unit_rev. apply trimStart_keeps_out.
  rewrite includes_unit_rev. by apply trimStart_keeps_out.
Qed.

(** A string with an occurrence of the separator splits in two pieces at
    least. *)
Lemma split_two_pieces c s :
  (0 <= indexOf s (unit_string c))%Z ->
  exists p1 p2 ps, JsString.split s (unit_string c) = p1 :: p2 :: ps.
Proof.
  unfold JsString.split, unit_string.
  induction s as [|a s IH]; [done|].
  cbn [indexOf JsString.split_from].
  destruct (JsString.startsWith (String a s) (String c "")) eqn:Hstart.
  - intros _. cbn [String.length Nat.sub].
    pose proof (split_from_nonempty (String c "") s 0) as Hne.
    destruct (JsString.split_from (String c "") 0 s) as [|t ts]; [done|].
    by exists "", t, ts.
  - destruct (indexOf s (String c "") <? 0)%Z eqn:Hi; [lia|].
    intros _. destruct IH as (p1 & p2 & ps & ->); [lia|].
    by exists (String a p1), p2, ps.
Qed.

(** The pieces of a line of the shape [k:v] or [k:v:...]. *)
Lemma split_key_value c (k v rest : string) :
  JsString.includes k (unit_string c) = false ->
  JsString.includes v (unit_string c) = false ->
  rest = "" \/ JsString.startsWith rest (unit_string c) = true ->
  exists ps,
    JsString.split (k +:+ unit_string c +:+ v +:+ rest) (unit_string c) = k :: v :: ps.
Proof.
  intros Hk Hv Hrest. unfold JsString.split, unit_string in *.
  assert (Hpiece : forall (x r : string),
    JsString.includes x (String c "") = false ->
    JsString.split_from (String c "") 0 (x +:+ String c r)
    = x :: JsString.split_from (String c "") 0 r).
  { induction x as [|a x IH]; intros r Hx.
    - change ("" +:+ String c r) with (String c r).
      cbn [JsString.split_from JsString.startsWith].
      by rewrite Ascii.eqb_refl, startsWith_empty.
    - change (String a x +:+ String c r) with (String a (x +:+ String c r)).
      fold (unit_string c) in Hx. rewrite includes_unit_cons in Hx.
      apply orb_false_iff in Hx as [Ha Hx].
      cbn [JsString.split_from JsString.startsWith]. rewrite Ha.
      by rewrite (IH r Hx). }
  change (k +:+ String c "" +:+ v +:+ rest) with (k +:+ String c (v +:+ rest)).
  rewrite Hpiece by done.
  destruct Hrest as [->|Hrest].
  - rewrite string_app_nil_r. exists [].
    f_equal. clear -Hv. induction v as [|a v IH]; [done|].
    fold (unit_string c) in Hv. rewrite includes_unit_cons in Hv.
    apply orb_false_iff in Hv as [Ha Hv].
    cbn [JsString.split_from JsString.startsWith]. rewrite Ha.
    by rewrite (IH Hv).
  - apply startsWith_prefix in Hrest as [r ->].
    change (String c "" +:+ r) with (String c r).
    rewrite Hpiece by done. by eexists.
Qed.

Lemma indexOf_key c (k r : string) :
  k ≠ "" -> JsString.includes k (unit_string c) = false ->
  (0 < indexOf (k +:+ String c r) (unit_string c))%Z.
Proof.
  intros Hne Hk.
  assert (Hge : forall x : string, JsString.includes x (unit_string c) = false ->
                (0 <= indexOf (x +:+ String c r) (unit_string c))%Z).
  { induction x as [|a x IH]; intros Hx.
    - change ("" +:+ String c r) with (String c r). unfold unit_string.
      cbn [indexOf JsString.startsWith]. by rewrite Ascii.eqb_refl, startsWith_empty.
    - change (String a x +:+ String c r) with (String a (x +:+ String c r)).
      rewrite includes_unit_cons in Hx. apply orb_false_iff in Hx as [Ha Hx].
      specialize (IH Hx). unfold unit_string in *.
      cbn [indexOf JsString.startsWith]. rewrite Ha.
      destruct (indexOf _ _ <? 0)%Z eqn:Hi; lia. }
  destruct k as [|a k]; [done|].
  change (String a k +:+ String c r) with (String a (k +:+ String c r)).
  rewrite includes_unit_cons in Hk. apply orb_false_iff in Hk as [Ha Hk].
  specialize (Hge k Hk). unfold unit_string in *.
  cbn [indexOf JsString.startsWith]. rewrite Ha.
  destruct (indexOf _ _ <? 0)%Z eqn:Hi; lia.
Qed.

Lemma setConfigLine_other config line key :
  config_key line ≠ Some key ->
  setConfigLine config line !! key = config !! key.
Proof.
  unfold config_key, setConfigLine.
  destruct (0 <? indexOf line ":")%Z; [|done].
  intros Hne. rewrite lookup_insert_ne; [done|].
  intros Heq. apply Hne. f_equal. rewrite <- Heq.
  pose proof (split_from_nonempty ":" line 0) as Hsplit.
  unfold JsString.split. by destruct (JsString.split_from ":" 0 line).
Qed.

Lemma foldl_setConfigLine_other later key : forall config,
  Forall (fun l => config_key l ≠ Some key) later ->
  foldl setConfigLine config later !! key = config !! key.
Proof.
  induction later as [|l later IH]; intros config Hall; [done|].
  apply Forall_cons in Hall as [Hl Hall]. cbn [foldl].
  rewrite IH by done. by apply setConfigLine_other.
Qed.

(** What one line stores: a key and a value that is a string. *)
Lemma setConfigLine_sets config line key val :
  setConfigLine config line !! key = Some val ->
  config !! key = Some val
  \/ config_key line = Some key
     /\ exists s, val = Some s /\ JsString.includes s ":" = false.
Proof.
  unfold setConfigLine, config_key.
  destruct (0 <? indexOf line ":")%Z eqn:Hi; [|by left].
  destruct (split_two_pieces ":" line) as (p1 & p2 & ps & Hsplit);
    [apply Z.ltb_lt in Hi; unfold unit_string; lia|].
  pose proof (split_no_separator ":" line p2) as Hp2.
  unfold unit_string in Hsplit. rewrite Hsplit in Hp2 |- *.
  cbn [map hd]. change ((?a :: ?b :: ?l) !! 1%nat) with (Some b).
  destruct (decide (JsString.trim p1 = key)) as [<-|Hne].
  - rewrite lookup_insert_eq. intros [= <-]. right. split; [done|].
    eexists. split; [done|]. apply (trim_keeps_out ":"), Hp2.
    apply list_elem_of_further, list_elem_of_here.
  - rewrite lookup_insert_ne by done. by left.
Qed.

(** X20.  Every entry of the configuration comes from a line with a colon after
    its first place, under the trimmed text before the first colon; its
    value is a string, never [undefined], and holds no colon. *)
Theorem config_entries_are_defined (stdout key : string) (val : option string) :
  loadCatkinConfig stdout !! key = Some val ->
  (exists line, line ∈ JsString.split stdout line_break /\ config_key line = Some key)
  /\ exists s, val = Some s /\ JsString.includes s ":" = false.
Proof.
  unfold loadCatkinConfig.
  assert (Hgen : forall lines (config : gmap string (option string)),
    foldl setConfigLine config lines !! key = Some val ->
    config !! key = Some val
    \/ (exists line, line ∈ lines /\ config_key line = Some key)
       /\ exists s, val = Some s /\ JsString.includes s ":" = false).
  { induction lines as [|l lines IH]; intros config Hlook; [by left|].
    cbn [foldl] in Hlook. apply IH in Hlook as [Hlook|[(line & Hin & Hkey) Hval]].
    - apply setConfigLine_sets in Hlook as [Hlook|[Hkey Hval]]; [by left|].
      right. split; [|done]. exists l. split; [apply list_elem_of_here|done].
    - right. split; [|done]. exists line. split; [by apply list_elem_of_further|done]. }
  intros Hlook. apply Hgen in Hlook as [Hlook|Hlook]; [|done].
  by rewrite lookup_empty in Hlook.
Qed.

Lemma config_entries_are_defined_witness :
  (exists line, line ∈ JsString.split config_output line_break
                /\ config_key line = Some "Profile")
  /\ exists s, Some "default" = Some s /\ JsString.includes s ":" = false.
Proof.
  apply (config_entries_are_defined config_output "Profile" (Some "default")).
  vm_compute. reflexivity.
Defined.

(** X21.  A line [k:v] or [k:v:...], with a key [k] that is not empty, stores the
    trimmed [v] under the trimmed [k]: a value is cut at its first colon.
    The entry stands when no later line sets the same key. *)
Theorem config_value_is_cut_at_its_first_colon
    (stdout : string) (lines later : list string) (k v rest : string) :
  JsString.split stdout line_break = lines ++ (k +:+ ":" +:+ v +:+ rest) :: later ->
  k ≠ "" ->
  JsString.includes k ":" = false ->
  JsString.includes v ":" = false ->
  rest = "" \/ JsString.startsWith rest ":" = true ->
  Forall (fun l => config_key l ≠ Some (JsString.trim k)) later ->
  loadCatkinConfig stdout !! JsString.trim k = Some (Some (JsString.trim v)).
Proof.
  intros Hlines Hne Hk Hv Hrest Hlater. unfold loadCatkinConfig.
  rewrite Hlines, foldl_app. cbn [foldl].
  rewrite foldl_setConfigLine_other by done.
  unfold setConfigLine.
  pose proof (indexOf_key ":" k (v +:+ rest) Hne Hk) as Hi.
  change (k +:+ String ":" (v +:+ rest)) with (k +:+ ":" +:+ v +:+ rest) in Hi.
  unfold unit_string in Hi. apply Z.ltb_lt in Hi. rewrite Hi.
  destruct (split_key_value ":" k v rest Hk Hv Hrest) as (ps & Hsplit).
  unfold unit_string in Hsplit. rewrite Hsplit. cbn [map hd].
  change ((?a :: ?b :: ?l) !! 1%nat) with (Some b).
  by rewrite lookup_insert_eq.
Qed.

Lemma config_value_is_cut_at_its_first_colon_witness :
  loadCatkinConfig config_output !! JsString.trim "Extending"
  = Some (Some (JsString.trim "          [env] /opt/ros/noetic")).
Proof.
  apply (config_value_is_cut_at_its_first_colon config_output
           ["Profile:                     default"]
           ["Additional CMake Args:  -DCMAKE_BUILD_TYPE=Release"; ""]
           "Extending" "          [env] /opt/ros/noetic" ":/opt/extra").
  - vm_compute. reflexivity.
  - discriminate.
  - vm_compute. reflexivity.
  - vm_compute. reflexivity.
  - right. vm_compute. reflexivity.
  - repeat constructor; vm_compute; discriminate.
Defined.
(** ** What a query and an update leave alone *)

Lemma addIncludePath_maintains env I P path s :
  (forall g w, I w -> I (set_system_include_browse_paths g w)) ->
  maintains I P (addIncludePath env path s).
Proof.
  intros HI w Hw. rewrite addIncludePath_run.
  destruct (isWorkspacePath env path) as [e|[]]; [by split|by split|].
  destruct (bool_decide _); [|by split].
  split; [by apply HI|done].
Qed.

Lemma scanArgs_maintains env I P n : forall opts s, length opts <= n ->
  (forall g w, I w -> I (set_system_include_browse_paths g w)) ->
  maintains I P (scanArgs env opts s).
Proof.
  induction n as [|n IH]; intros opts s Hlen HI.
  { destruct opts; [apply maintains_ret|cbn in Hlen; lia]. }
  destruct opts as [|opt rest]; [apply maintains_ret|].
  cbn in Hlen. cbn [scanArgs].
  destruct (JsString.startsWith opt "-I").
  { apply maintains_bind; [by apply addIncludePath_maintains|].
    intros. apply IH; [lia|done]. }
  destruct (decide (opt = "-isystem")) as [->|_].
  { destruct rest as [|path rest]; [by apply addIncludePath_maintains|].
    apply maintains_bind; [by apply addIncludePath_maintains|].
    intros. apply IH; [cbn in Hlen; lia|done]. }
  destruct (JsString.startsWith opt "-isystem=").
  { apply maintains_bind; [by apply addIncludePath_maintains|].
    intros. apply IH; [lia|done]. }
  destruct (JsString.startsWith opt "-D"); (apply IH; [lia|done]).
Qed.

Lemma differs_in_path_lists_refl w : differs_in_path_lists w w.
Proof.
  exists (default_system_include_paths w), (system_include_browse_paths w).
  by destruct w.
Qed.

(** X22.  Whether it returns or raises, a query leaves every field of the
    workspace as it was but the list of defaults and the browse list; it
    emits nothing but the calls of the resolver and [system_paths_changed]:
    it neither dispatches [build_commands_changed] nor shows a dialog. *)
Theorem query_writes_only_the_path_lists
    (env : Env) (commands : CompileCommand) (w : CatkinWorkspace) :
  let o := getSourceFileConfiguration env commands w in
  differs_in_path_lists w (state_of o)
  /\ Forall is_resolver_event (events_of o).
Proof.
  cbn zeta.
  assert (Hm : maintains (differs_in_path_lists w) is_resolver_event
                 (getSourceFileConfiguration env commands)).
  { assert (Hd : forall g w', differs_in_path_lists w w' ->
        differs_in_path_lists w (set_default_system_include_paths g w')).
    { intros g w' (d & b & ->). by exists (g d), b. }
    assert (Hb : forall g w', differs_in_path_lists w w' ->
        differs_in_path_lists w (set_system_include_browse_paths g w')).
    { intros g w' (d & b & ->). by exists d, (g b). }
    unfold getSourceFileConfiguration.
    apply maintains_bind.
    { unfold resolveWhenEmpty. apply maintains_bind; [apply maintains_get|intros w'].
      destruct (decide _); [|apply maintains_ret].
      apply parseCompilerDefaults_maintains; [done| |by left].
      intros r c. right. by exists r, c. }
    intros _. apply maintains_bind; [by apply (scanArgs_maintains env _ _ _ _ _ (le_n _))|].
    intros s. apply maintains_bind.
    { destruct (new_system_path_found s); [|apply maintains_ret].
      apply maintains_emit. by left. }
    intros _. apply maintains_bind; [apply maintains_get|intros w']. apply maintains_ret. }
  apply Hm, differs_in_path_lists_refl.
Qed.

(** X23.  An update of a database, from a file that is gone or from one that is
    read, returns; it dispatches [build_commands_changed] exactly when it
    returns true and emits nothing else; it writes the three maps of the
    store and no other field: the watched paths, the two path lists, the
    build directory, the two flags and the packages stay as they were. *)
Theorem update_writes_only_the_store
    (env : Env) (db_file : string) (w : CatkinWorkspace) :
  let o := updateDatabase env db_file w in
  (exists change, result_of o = inr change
     /\ events_of o = if change then [build_commands_changed] else [])
  /\ watchers (state_of o) = watchers w
  /\ system_include_browse_paths (state_of o) = system_include_browse_paths w
  /\ default_system_include_paths (state_of o) = default_system_include_paths w
  /\ build_dir (state_of o) = build_dir w
  /\ ignore_missing_db (state_of o) = ignore_missing_db w
  /\ is_initialized (state_of o) = is_initialized w
  /\ packages (state_of o) = packages w.
Proof.
  cbn zeta. split.
  - unfold updateDatabase. destruct (readFile env db_file) as [raws|].
    + rewrite run_get_bind, !run_modify_bind.
      set (w0 := set_compile_commands _ (set_next_oid _ w)).
      destruct (mergeRecords_facts db_file (parseRecords (next_oid w) raws) false w0)
        as ((b & Hres & _) & Hev & _).
      exists b. rewrite (run_bind_inr _ _ _ _ Hres), Hev.
      cbn [result_of events_of fst snd app]. by destruct b.
    + rewrite run_modify_bind, run_emit_bind. by exists true.
  - assert (Hf : forall {B} (field : CatkinWorkspace -> B),
        beside_the_store field ->
        field (state_of (updateDatabase env db_file w)) = field w).
    { intros B field Hfield. by apply updateDatabase_field. }
    repeat split; by apply Hf.
Qed.
(** ** The include paths of nvcc *)

Lemma rev_app_acc (s acc : string) :
  String.rev_app s acc = String.rev s +:+ acc.
Proof.
  unfold String.rev. revert acc.
  induction s as [|a s IH]; intros acc; [done|].
  cbn [String.rev_app]. rewrite (IH (String a acc)), (IH (String a "")).
  clear. induction (String.rev_app s "") as [|b t IH]; [done|].
  change (String b t +:+ String a acc) with (String b (t +:+ String a acc)).
  change ((String b t +:+ String a "") +:+ acc)
    with (String b ((t +:+ String a "") +:+ acc)).
  by rewrite IH.
Qed.

Lemma rev_cons a (s : string) : String.rev (String a s) = String.rev s +:+ String a "".
Proof. unfold String.rev at 1. cbn [String.rev_app]. apply rev_app_acc. Qed.

Lemma string_app_assoc (x y z : string) : (x +:+ y) +:+ z = x +:+ (y +:+ z).
Proof.
  induction x as [|a x IH]; [done|].
  change (String a ((x +:+ y) +:+ z) = String a (x +:+ (y +:+ z))). by rewrite IH.
Qed.

Lemma rev_app_distr (x y : string) :
  String.rev (x +:+ y) = String.rev y +:+ String.rev x.
Proof.
  induction x as [|a x IH].
  - change ("" +:+ y) with y. by rewrite string_app_nil_r.
  - change (String a x +:+ y) with (String a (x +:+ y)).
    by rewrite !rev_cons, IH, string_app_assoc.
Qed.

Lemma rev_involutive (s : string) : String.rev (String.rev s) = s.
Proof.
  induction s as [|a s IH]; [done|].
  by rewrite rev_cons, rev_app_distr, IH.
Qed.

Lemma all_units_app P (x y : string) :
  all_units P (x +:+ y) = all_units P x && all_units P y.
Proof.
  induction x as [|a x IH]; [done|].
  change (String a x +:+ y) with (String a (x +:+ y)).
  cbn [all_units]. by rewrite IH, andb_assoc.
Qed.

Lemma all_units_rev P (s : string) : all_units P (String.rev s) = all_units P s.
Proof.
  induction s as [|a s IH]; [done|].
  rewrite rev_cons, all_units_app, IH. cbn. rewrite andb_true_r. apply andb_comm.
Qed.

Lemma noLineTerminator_all s :
  JsString.noLineTerminator s
  = all_units (fun a => negb (JsString.isLineTerminator a)) s.
Proof. induction s as [|a s IH]; [done|]. cbn. by rewrite IH. Qed.

Lemma trimStart_blanks (ws r : string) :
  all_units JsString.isSpace ws = true ->
  JsString.trimStart (ws +:+ r) = JsString.trimStart r.
Proof.
  induction ws as [|a ws IH]; [done|].
  cbn [all_units]. intros [Ha Hws]%andb_true_iff.
  change (String a ws +:+ r) with (String a (ws +:+ r)).
  cbn [JsString.trimStart]. rewrite Ha. by apply IH.
Qed.

Lemma trimStart_app (p r : string) :
  p ≠ "" -> JsString.trimStart p = p -> JsString.trimStart (p +:+ r) = p +:+ r.
Proof.
  destruct p as [|a p]; [done|]. intros _.
  change (String a p +:+ r) with (String a (p +:+ r)).
  cbn [JsString.trimStart]. destruct (JsString.isSpace a); [|done].
  intros Hp. exfalso.
  assert (Hlen : forall s, String.length (JsString.trimStart s) <= String.length s).
  { clear. induction s as [|b s IH]; [done|]. cbn [JsString.trimStart].
    destruct (JsString.isSpace b); cbn [String.length]; lia. }
  specialize (Hlen p). rewrite Hp in Hlen. cbn [String.length] in Hlen. lia.
Qed.

(** Trimming gives back a path without white space at its ends, whatever
    blanks follow it. *)
Lemma trim_listable (p pad : string) :
  listable p -> all_units JsString.isSpace pad = true ->
  JsString.trim (p +:+ pad) = p.
Proof.
  intros (Hne & Hstart & Hend & _) Hpad.
  unfold JsString.trim, JsString.trimEnd.
  rewrite trimStart_app by done.
  rewrite rev_app_distr, trimStart_blanks by by rewrite all_units_rev.
  rewrite Hend. apply rev_involutive.
Qed.

Lemma slice_app (x r : string) : JsString.slice (String.length x) (x +:+ r) = r.
Proof. induction x as [|a x IH]; [by destruct r|]. apply IH. Qed.

(** The regular expression finds the text between the first quote and the
    last one. *)
Lemma matchIncludes_line (body trailing : string) :
  JsString.noLineTerminator body = true ->
  all_units JsString.isSpace trailing = true ->
  matchIncludes ("#$ INCLUDES=" +:+ String JsString.dquote
                   (body +:+ String JsString.dquote trailing))
  = Some body.
Proof.
  intros Hbody Htrail. unfold matchIncludes. cbn zeta.
  set (pre := "#$ INCLUDES=" +:+ String JsString.dquote "").
  change ("#$ INCLUDES=" +:+ String JsString.dquote
            (body +:+ String JsString.dquote trailing))
    with (pre +:+ (body +:+ String JsString.dquote trailing)).
  rewrite (proj2 (startsWith_prefix _ pre)) by by eexists.
  rewrite slice_app, rev_app_distr, rev_cons, string_app_assoc.
  rewrite trimStart_blanks by by rewrite all_units_rev.
  change (String JsString.dquote "" +:+ String.rev body)
    with (String JsString.dquote (String.rev body)).
  cbn [JsString.trimStart].
  change (JsString.isSpace JsString.dquote) with false. cbv iota.
  rewrite Ascii.eqb_refl, noLineTerminator_all, all_units_rev,
    <- noLineTerminator_all, Hbody.
  cbn [andb]. by rewrite rev_involutive.
Qed.

Lemma startsWith_I_false a (x r : string) :
  JsString.startsWith (String a x) "-I" = false ->
  JsString.startsWith (String a (x +:+ String "-" r)) "-I" = false.
Proof.
  cbn [JsString.startsWith]. destruct (Ascii.eqb "-" a); [|done].
  destruct x as [|b x]; [done|].
  change (String b x +:+ String "-" r) with (String b (x +:+ String "-" r)).
  cbn [JsString.startsWith].
  destruct (Ascii.eqb "I" b); [|done]. by rewrite !startsWith_empty.
Qed.

Lemma includes_I_cons a (x : string) :
  JsString.includes (String a x) "-I" = false ->
  JsString.startsWith (String a x) "-I" = false /\ JsString.includes x "-I" = false.
Proof. cbn [JsString.includes]. by intros [? ?]%orb_false_iff. Qed.

(** A piece without [-I] ends at the next [-I]. *)
Lemma split_at_I (x r : string) :
  JsString.includes x "-I" = false ->
  JsString.split_from "-I" 0 (x +:+ "-I" +:+ r) = x :: JsString.split_from "-I" 0 r.
Proof.
  induction x as [|a x IH]; intros Hx.
  - change ("" +:+ "-I" +:+ r) with (String "-" (String "I" r)).
    cbn [JsString.split_from JsString.startsWith]. rewrite !Ascii.eqb_refl.
    by rewrite startsWith_empty.
  - apply includes_I_cons in Hx as [Hstart Hx].
    change (String a x +:+ "-I" +:+ r)
      with (String a (x +:+ String "-" (String "I" r))).
    cbn [JsString.split_from].
    rewrite (startsWith_I_false a x (String "I" r) Hstart).
    change (x +:+ String "-" (String "I" r)) with (x +:+ "-I" +:+ r).
    by rewrite (IH Hx).
Qed.

Lemma split_without_I (x : string) :
  JsString.includes x "-I" = false -> JsString.split_from "-I" 0 x = [x].
Proof.
  induction x as [|a x IH]; [done|].
  intros [Hstart Hx]%includes_I_cons.
  cbn [JsString.split_from]. rewrite Hstart. by rewrite (IH Hx).
Qed.

Lemma blank_is_space pad :
  all_units is_blank pad = true -> all_units JsString.isSpace pad = true.
Proof.
  induction pad as [|a pad IH]; [done|]. cbn [all_units]. unfold is_blank at 1.
  intros [[Ha _]%andb_true_iff Hpad]%andb_true_iff. rewrite Ha. by apply IH.
Qed.

Lemma blanks_hold_no_I pad :
  all_units JsString.isSpace pad = true -> JsString.includes pad "-I" = false.
Proof.
  induction pad as [|a pad IH]; [done|]. cbn [all_units].
  intros [Ha Hpad]%andb_true_iff.
  cbn [JsString.includes JsString.startsWith]. rewrite (IH Hpad), orb_false_r.
  destruct (Ascii.eqb "-" a) eqn:Heq; [|done].
  apply Ascii.eqb_eq in Heq as <-. discriminate Ha.
Qed.

Lemma padded_holds_no_I (p pad : string) :
  JsString.includes p "-I" = false ->
  all_units JsString.isSpace pad = true ->
  JsString.includes (p +:+ pad) "-I" = false.
Proof.
  intros Hp Hpad. induction p as [|a p IH]; [by apply blanks_hold_no_I|].
  apply includes_I_cons in Hp as [Hstart Hp].
  change (String a p +:+ pad) with (String a (p +:+ pad)).
  cbn [JsString.includes]. rewrite (IH Hp), orb_false_r.
  revert Hstart. cbn [JsString.startsWith]. destruct (Ascii.eqb "-" a); [|done].
  destruct p as [|b p].
  - intros _. destruct pad as [|c pad]; [done|].
    change ("" +:+ String c pad) with (String c pad).
    cbn [JsString.startsWith].
    destruct (Ascii.eqb "I" c) eqn:Heq; [|done].
    apply Ascii.eqb_eq in Heq as <-. cbn [all_units] in Hpad.
    by apply andb_true_iff in Hpad as [? _].
  - change (String b p +:+ pad) with (String b (p +:+ pad)).
    cbn [JsString.startsWith].
    destruct (Ascii.eqb "I" b); [|done]. by rewrite !startsWith_empty.
Qed.

Lemma split_includes_text (items : list (string * string)) : forall x : string,
  JsString.includes x "-I" = false ->
  Forall (fun item => listable item.1 /\ all_units is_blank item.2 = true) items ->
  JsString.split_from "-I" 0 (x +:+ includes_text items)
  = x :: map (fun item => item.1 +:+ item.2) items.
Proof.
  induction items as [|item rest IH]; intros x Hx Hall.
  - cbn [includes_text map]. rewrite string_app_nil_r. by apply split_without_I.
  - apply Forall_cons in Hall as [[Hp Hpad] Hall].
    cbn [includes_text map].
    rewrite split_at_I by done. f_equal.
    rewrite <- string_app_assoc. apply IH; [|done].
    apply padded_holds_no_I; [by destruct Hp as (_ & _ & _ & _ & ?)|].
    by apply blank_is_space.
Qed.

Lemma blank_is_no_terminator pad :
  all_units is_blank pad = true ->
  all_units (fun a => negb (JsString.isLineTerminator a)) pad = true.
Proof.
  induction pad as [|a pad IH]; [done|]. cbn [all_units]. unfold is_blank at 1.
  intros [[_ Ha]%andb_true_iff Hpad]%andb_true_iff. rewrite Ha. by apply IH.
Qed.

Lemma includes_text_one_line (items : list (string * string)) :
  Forall (fun item => listable item.1 /\ all_units is_blank item.2 = true) items ->
  JsString.noLineTerminator (includes_text items) = true.
Proof.
  induction 1 as [|item rest [Hp Hpad] _ IH]; [done|].
  cbn [includes_text]. rewrite noLineTerminator_all in *.
  destruct Hp as (_ & _ & _ & Hlt & _). rewrite noLineTerminator_all in Hlt.
  change ("-I" +:+ item.1 +:+ item.2 +:+ includes_text rest)
    with (String "-" (String "I" (item.1 +:+ item.2 +:+ includes_text rest))).
  cbn [all_units]. rewrite !all_units_app, IH, Hlt.
  by rewrite (blank_is_no_terminator _ Hpad).
Qed.

Lemma nvccIncludes_skip (lines rest : list string) :
  Forall (fun l => matchIncludes l = None) lines ->
  nvccIncludes (lines ++ rest) = nvccIncludes rest.
Proof.
  induction 1 as [|l lines Hl _ IH]; [done|].
  cbn [app nvccIncludes]. by rewrite Hl.
Qed.

Lemma nvccIncludes_line (items : list (string * string)) (trailing : string) rest :
  Forall (fun item => listable item.1 /\ all_units is_blank item.2 = true) items ->
  all_units JsString.isSpace trailing = true ->
  nvccIncludes (includes_line items trailing :: rest)
  = map fst items ++ nvccIncludes rest.
Proof.
  intros Hitems Htrail. cbn [nvccIncludes]. unfold includes_line.
  rewrite matchIncludes_line; [|by apply includes_text_one_line|done].
  f_equal. unfold JsString.split.
  change (includes_text items) with ("" +:+ includes_text items).
  rewrite split_includes_text by done.
  cbn [map]. change (JsString.trim "") with "".
  rewrite filter_cons_False by (cbn; lia).
  clear -Hitems. induction Hitems as [|item items [Hp Hpad] _ IH]; [done|].
  cbn [map]. rewrite trim_listable; [|done|by apply blank_is_space].
  rewrite filter_cons_True; [by rewrite IH|].
  destruct Hp as (Hne & _). by destruct (item.1).
Qed.

(** X24.  When [nvcc] fails, as it does on the dry run, and one line of its
    message is [#$ INCLUDES="..."] with, between the quotes, paths that each
    follow [-I] and are followed by blanks, while no other line has this
    form, the resolver of [nvcc] returns and appends these paths to the
    defaults, in order and without the blanks; it emits nothing else. *)
Theorem nvcc_defaults_are_the_I_options
    (env : Env) (compiler message : string) (w : CatkinWorkspace)
    (before after : list string) (items : list (string * string))
    (trailing : string) :
  execSync env (compiler +:+ " --dryrun -v /dev/null 1>&2") = inr message ->
  JsString.split message line_break
    = before ++ includes_line items trailing :: after ->
  Forall (fun l => matchIncludes l = None) before ->
  Forall (fun l => matchIncludes l = None) after ->
  Forall (fun item => listable item.1 /\ all_units is_blank item.2 = true) items ->
  all_units JsString.isSpace trailing = true ->
  parseCompilerDefaultsNvcc env compiler w
  = (inr tt,
     set_default_system_include_paths (fun paths => paths ++ map fst items) w,
     [Called Nvcc compiler]).
Proof.
  intros Hexec Hlines Hbefore Hafter Hitems Htrail.
  unfold parseCompilerDefaultsNvcc. rewrite run_emit_bind, Hexec.
  change (String JsString.newline "") with line_break. rewrite Hlines.
  rewrite nvccIncludes_skip, nvccIncludes_line by done.
  rewrite <- (app_nil_r after), nvccIncludes_skip by done.
  cbn [nvccIncludes]. by rewrite app_nil_r.
Qed.

Lemma nvcc_defaults_are_the_I_options_witness :
  parseCompilerDefaultsNvcc nvcc_env "/usr/local/cuda/bin/nvcc" newWorkspace
  = (inr tt,
     set_default_system_include_paths
       (fun paths => paths ++ map fst nvcc_items) newWorkspace,
     [Called Nvcc "/usr/local/cuda/bin/nvcc"]).
Proof.
  apply (nvcc_defaults_are_the_I_options nvcc_env "/usr/local/cuda/bin/nvcc"
           nvcc_output newWorkspace
           ["#$ _NVVM_BRANCH_=nvvm"] ["#$ LIBRARIES=  -L/usr/local/cuda/lib64"]
           nvcc_items "  ").
  - vm_compute. reflexivity.
  - vm_compute. reflexivity.
  - repeat constructor.
  - repeat constructor.
  - repeat constructor; try discriminate; vm_compute; reflexivity.
  - vm_compute. reflexivity.
Defined.
